(** * WebSDR client for VCV Rack: ring buffer, resampler, frame codec, session

    A shallow embedding of [src/modules/WebSDRModule.cpp] (the audio ring
    buffer and the linear resampler) and of [src/network/WebSDRClient.cpp]
    (frame encoding, the receive loop, the PCM decoder, connect and
    disconnect), with the properties of the specification stated against it.
    Part III covers more of the two files (the tuning commands, the
    presets and the tuning part of [process], the module seen as a queue)
    and the station table of [src/modules/stations.hpp].

    Conventions.
    - A wire byte is a [Z] in [0, 256); a C++ narrowing store is written
      out with its wrap-around ([mod 256], [int16_t] through [to_int16]).
    - A [float] sample is an exact rational ([Qc]).  Every value the PCM
      decoder produces is [n / 32768] with [n] a 16-bit integer, which
      binary32 represents exactly, and the properties below use no rounding.
    - [size_t] cursors are [nat]; the vector is a [list] indexed with
      stdpp's lookup and insert.  The cursors stay below the vector's size
      (lemma [wf_write_sample]), so no access is out of range. *)

From Stdlib Require Import ZArith QArith Qcanon Qround Qcabs Lqa Lia Ascii.
From stdpp Require Import base list strings numbers pretty.

Local Open Scope Z_scope.

(** ** Part I. Definitions *)

Definition float : Type := Qc.

Definition fzero : float := 0%Qc.

(** *** The module: ring buffer and resampler state
    ([struct WebSDRModule], WebSDRModule.cpp lines 37-45) *)

Record WebSDRModule : Type := mkModule {
  audioBuffer : list float;
  readPos : nat;
  writePos : nat;
  lastSample : float;
  resamplePhase : float
}.

(** [audioBuffer.size()] *)
Definition capacity (m : WebSDRModule) : nat := length (audioBuffer m).

(** The state the constructor leaves: [audioBuffer.resize(n)] fills the
    vector with zeros; the module itself uses [n = 48000]. *)
Definition newModule (n : nat) : WebSDRModule :=
  {| audioBuffer := replicate n fzero; readPos := 0; writePos := 0;
     lastSample := fzero; resamplePhase := fzero |}.

(** One turn of the loop in the audio callback (lines 85-91):
<<
    audioBuffer[writePos] = samples[i];
    writePos = (writePos + 1) % audioBuffer.size();
    if (writePos == readPos) readPos = (readPos + 1) % audioBuffer.size();
>> *)
Definition write_sample (m : WebSDRModule) (x : float) : WebSDRModule :=
  let buf := <[writePos m := x]> (audioBuffer m) in
  let w := ((writePos m + 1) mod length buf)%nat in
  let r := if decide (w = readPos m)
           then ((readPos m + 1) mod length buf)%nat
           else readPos m in
  {| audioBuffer := buf; readPos := r; writePos := w;
     lastSample := lastSample m; resamplePhase := resamplePhase m |}.

(** The callback installed by the constructor (lines 80-93). *)
Definition audioCallback (m : WebSDRModule) (samples : list float) : WebSDRModule :=
  foldl write_sample m samples.

(** One turn of the read loop of [getResampledAudio] (lines 204-207).  The
    first component is [Some v] when the slot under the read cursor was
    consumed, with [v] the value read into [lastSample]. *)
Definition read_sample (m : WebSDRModule) : option float * WebSDRModule :=
  if decide (readPos m ≠ writePos m) then
    let v := nth (readPos m) (audioBuffer m) fzero in
    (Some v,
     {| audioBuffer := audioBuffer m;
        readPos := ((readPos m + 1) mod length (audioBuffer m))%nat;
        writePos := writePos m;
        lastSample := v; resamplePhase := resamplePhase m |})
  else (None, m).

(** [for (int i = 0; i < advance; i++) ...] (lines 203-208); the list logs,
    in order, the values consumed from the buffer. *)
Fixpoint advance_read (advance : nat) (m : WebSDRModule) : list float * WebSDRModule :=
  match advance with
  | O => ([], m)
  | S k =>
      let '(o, m1) := read_sample m in
      let '(l, m2) := advance_read k m1 in
      (from_option (λ v, v :: l) l o, m2)
  end.

(** [(int)x]: conversion of a float to [int] truncates toward zero.  The
    conversion is defined in C++ only when the truncated value fits the
    32-bit [int], that is for [x] below 2^31 in absolute value; this is
    the value of the conversion there. *)
Definition truncate (x : float) : Z := Z.quot (Qnum (this x)) (Z.pos (Qden (this x))).

Definition of_int (z : Z) : float := Q2Qc (inject_Z z).

Definition sourceRate : float := of_int 12000.

Definition set_phase (m : WebSDRModule) (p : float) : WebSDRModule :=
  {| audioBuffer := audioBuffer m; readPos := readPos m; writePos := writePos m;
     lastSample := lastSample m; resamplePhase := p |}.

(** [getResampledAudio] (lines 189-220).  Returns the output sample, the
    log of the values consumed from the buffer by this call, and the new
    state.  [engineRate] is the sample rate of the audio engine, a positive
    number; the arithmetic is exact. *)
Definition getResampledAudio (engineRate : float) (m : WebSDRModule)
  : float * list float * WebSDRModule :=
  let resampleRatio := (sourceRate / engineRate)%Qc in
  let phase := (resamplePhase m + resampleRatio)%Qc in
  let '(consumed, m1) :=
    if bool_decide (1 ≤ phase)%Qc then
      let advance := truncate phase in
      advance_read (Z.to_nat advance) (set_phase m (phase - of_int advance)%Qc)
    else ([], set_phase m phase) in
  let nextSample :=
    if decide (readPos m1 ≠ writePos m1)
    then nth (readPos m1) (audioBuffer m1) fzero
    else lastSample m1 in
  ((lastSample m1 + (nextSample - lastSample m1) * resamplePhase m1)%Qc,
   consumed, m1).

(** [onReset] (lines 222-228), the ring buffer and resampler part. *)
Definition onReset (m : WebSDRModule) : WebSDRModule :=
  {| audioBuffer := replicate (length (audioBuffer m)) fzero;
     readPos := 0; writePos := 0; lastSample := fzero; resamplePhase := fzero |}.

(** K consecutive ticks of the audio engine, one engine rate per tick: the
    outputs, the samples consumed, and the final state. *)
Fixpoint pull (rates : list float) (m : WebSDRModule)
  : list float * list float * WebSDRModule :=
  match rates with
  | [] => ([], [], m)
  | e :: rest =>
      let '(y, c, m1) := getResampledAudio e m in
      let '(ys, cs, m2) := pull rest m1 in
      (y :: ys, c ++ cs, m2)
  end.

(** What happens to a module over its life: batches arrive from the
    receive thread, the engine pulls samples, the host resets it. *)
Inductive module_op : Type :=
  | OpCallback (samples : list float)
  | OpPull (engineRate : float)
  | OpReset.

(** Runs a history; the list is the log of every sample consumed from the
    buffer since construction or the last reset, oldest first. *)
Fixpoint run_module (ops : list module_op) (log : list float) (m : WebSDRModule)
  : list float * WebSDRModule :=
  match ops with
  | [] => (log, m)
  | OpCallback xs :: rest => run_module rest log (audioCallback m xs)
  | OpPull e :: rest =>
      let '(_, c, m1) := getResampledAudio e m in run_module rest (log ++ c) m1
  | OpReset :: rest => run_module rest [] (onReset m)
  end.

(** *** Bytes, strings and substring search *)

Definition byte_of_ascii (a : ascii) : Z := Z.of_N (N_of_ascii a).

(** The bytes of a [std::string] or of a C string literal. *)
Definition bytes_of_string (s : string) : list Z :=
  byte_of_ascii <$> String.list_ascii_of_string s.

Fixpoint is_prefix (p l : list Z) : bool :=
  match p, l with
  | [], _ => true
  | _ :: _, [] => false
  | a :: p', b :: l' => (a =? b) && is_prefix p' l'
  end.

(** [strstr(hay, needle) != NULL] and [hay.find(needle) != npos]. *)
Fixpoint contains (needle hay : list Z) : bool :=
  match hay with
  | [] => is_prefix needle []
  | _ :: t => is_prefix needle hay || contains needle t
  end.

(** What a C string function sees of a buffer: the bytes before the first
    NUL. *)
Fixpoint c_str (buffer : list Z) : list Z :=
  match buffer with
  | [] => []
  | b :: rest => if b =? 0 then [] else b :: c_str rest
  end.

Definition crlf : string := String "013"%char (String "010"%char EmptyString).

(** *** The client ([class WebSDRClient], WebSDRClient.hpp lines 27-36) *)

(** [std::thread receiveThread]: never started (or already joined), running
    [receiveLoop], or returned from it and not yet joined. *)
Inductive thread : Type := NotStarted | Running | Finished.

Definition joinable (t : thread) : bool :=
  match t with NotStarted => false | _ => true end.

(** The fields of the class, and three logs of what the client does to its
    surroundings: the byte strings handed to [send], the batches handed to
    the audio callback, and the server messages printed. *)
Record WebSDRClient : Type := mkClient {
  connected : bool;
  shouldStop : bool;
  receiveThread : thread;
  socketFd : Z;
  hasCallback : bool;
  sent : list (list Z);
  delivered : list (list float);
  printed : list (list Z)
}.

(** A client as constructed, with an audio callback installed. *)
Definition newClient : WebSDRClient :=
  {| connected := false; shouldStop := false; receiveThread := NotStarted;
     socketFd := -1; hasCallback := true; sent := []; delivered := [];
     printed := [] |}.

Definition isConnected (s : WebSDRClient) : bool := connected s.

Definition set_connected (b : bool) (s : WebSDRClient) : WebSDRClient :=
  {| connected := b; shouldStop := shouldStop s; receiveThread := receiveThread s;
     socketFd := socketFd s; hasCallback := hasCallback s; sent := sent s;
     delivered := delivered s; printed := printed s |}.

Definition set_shouldStop (b : bool) (s : WebSDRClient) : WebSDRClient :=
  {| connected := connected s; shouldStop := b; receiveThread := receiveThread s;
     socketFd := socketFd s; hasCallback := hasCallback s; sent := sent s;
     delivered := delivered s; printed := printed s |}.

Definition set_receiveThread (t : thread) (s : WebSDRClient) : WebSDRClient :=
  {| connected := connected s; shouldStop := shouldStop s; receiveThread := t;
     socketFd := socketFd s; hasCallback := hasCallback s; sent := sent s;
     delivered := delivered s; printed := printed s |}.

Definition set_socketFd (fd : Z) (s : WebSDRClient) : WebSDRClient :=
  {| connected := connected s; shouldStop := shouldStop s;
     receiveThread := receiveThread s; socketFd := fd;
     hasCallback := hasCallback s; sent := sent s; delivered := delivered s;
     printed := printed s |}.

(** [send(socketFd, bytes, n, 0)] *)
Definition do_send (bytes : list Z) (s : WebSDRClient) : WebSDRClient :=
  {| connected := connected s; shouldStop := shouldStop s;
     receiveThread := receiveThread s; socketFd := socketFd s;
     hasCallback := hasCallback s; sent := sent s ++ [bytes];
     delivered := delivered s; printed := printed s |}.

(** [audioCallback(samples.data(), samples.size())] *)
Definition do_callback (samples : list float) (s : WebSDRClient) : WebSDRClient :=
  {| connected := connected s; shouldStop := shouldStop s;
     receiveThread := receiveThread s; socketFd := socketFd s;
     hasCallback := hasCallback s; sent := sent s;
     delivered := delivered s ++ [samples]; printed := printed s |}.

(** [std::cout << "[WebSDR] Server message: " << ...] *)
Definition do_print (msg : list Z) (s : WebSDRClient) : WebSDRClient :=
  {| connected := connected s; shouldStop := shouldStop s;
     receiveThread := receiveThread s; socketFd := socketFd s;
     hasCallback := hasCallback s; sent := sent s;
     delivered := delivered s; printed := printed s ++ [msg] |}.

(** *** Outbound frames ([sendWebSocketFrame], lines 288-313) *)

Definition mask : list Z := [0x12; 0x34; 0x56; 0x78].

(** [frame.push_back(data[i] ^ mask[i % 4])]; the store into a [uint8_t]
    keeps the low eight bits. *)
Definition mask_payload (data : list Z) : list Z :=
  imap (λ i c, Z.lxor c (nth (i mod 4)%nat mask 0) mod 256) data.

(** The bytes [sendWebSocketFrame] assembles for a payload shorter than
    126 bytes. *)
Definition text_frame (data : list Z) : list Z :=
  [0x81; Z.lor 0x80 (Z.of_nat (length data)) mod 256] ++ mask ++ mask_payload data.

(** Returns [send(...) > 0]; the transport takes every frame it is given,
    so a frame that is sent reports success. *)
Definition sendWebSocketFrame (data : string) (s : WebSDRClient) : bool * WebSDRClient :=
  if socketFd s <? 0 then (false, s)
  else
    let bytes := bytes_of_string data in
    if (length bytes <? 126)%nat
    then (true, do_send (text_frame bytes) s)
    else (false, s).

(** *** The PCM decoder ([processAudioPacket], lines 259-286) *)

(** [(int16_t)u] *)
Definition to_int16 (u : Z) : Z := (u + 32768) mod 65536 - 32768.

(** [sample / 32768.0f] *)
Definition normalize (sample : Z) : float := Q2Qc (Qmake sample 32768).

(** [for (size_t i = 0; i + 1 < len; i += 2)]: one sample per complete
    pair of bytes, low byte first. *)
Fixpoint pcm_samples (data : list Z) : list float :=
  match data with
  | lo :: hi :: rest =>
      normalize (to_int16 (Z.lor lo (Z.shiftl hi 8))) :: pcm_samples rest
  | _ => []
  end.

Definition MSG_prefix : list Z := bytes_of_string "MSG ".

Definition processAudioPacket (data : list Z) (s : WebSDRClient) : WebSDRClient :=
  if (4 <? length data)%nat && bool_decide (take 4 data = MSG_prefix) then s
  else
    let samples := pcm_samples data in
    if negb (bool_decide (samples = [])) && hasCallback s
    then do_callback samples s
    else s.

(** *** The receive loop ([receiveLoop], lines 186-257) *)

(** What one turn of the loop gets from [select] and [recv]: a timeout, the
    bytes of one [recv] (none at all when the peer has closed), or an
    error. *)
Inductive io_event : Type :=
  | SelectTimeout
  | Recv (bytes : list Z)
  | RecvError.

(** The opcode switch (lines 223-240) on a payload of [dataLen] bytes.  The
    boolean tells whether the loop is left ([break]). *)
Definition dispatch (opcode : Z) (payload buffer : list Z) (s : WebSDRClient)
  : bool * WebSDRClient :=
  if opcode =? 2 then (false, processAudioPacket payload s)
  else if opcode =? 1 then
    (false, if contains (bytes_of_string "MSG") payload then s
            else do_print (take 100 payload) s)
  else if opcode =? 9 then (false, do_send (0x8A :: drop 1 buffer) s)
  else if opcode =? 8 then (true, set_shouldStop true s)
  else (false, s).

(** Lines 219-241: the frame is looked at when it is unmasked and at least
    one byte follows its header. *)
Definition on_frame (opcode : Z) (masked : bool) (payloadLen : Z) (headerLen : nat)
    (buffer : list Z) (s : WebSDRClient) : bool * WebSDRClient :=
  let received := length buffer in
  if negb masked && (headerLen <? received)%nat then
    let dataLen := payloadLen `min` Z.of_nat (received - headerLen) in
    dispatch opcode (take (Z.to_nat dataLen) (drop headerLen buffer)) buffer s
  else (false, s).

(** Lines 204-242: the body run on a read of at least one byte. *)
Definition on_data (buffer : list Z) (s : WebSDRClient) : bool * WebSDRClient :=
  let received := length buffer in
  if (2 <=? received)%nat then
    let opcode := Z.land (nth 0 buffer 0) 0x0F in
    let masked := negb (Z.land (nth 1 buffer 0) 0x80 =? 0) in
    let payloadLen := Z.land (nth 1 buffer 0) 0x7F in
    if (payloadLen =? 126) && (4 <=? received)%nat then
      on_frame opcode masked
        (Z.lor (Z.shiftl (nth 2 buffer 0) 8) (nth 3 buffer 0)) 4 buffer s
    else if (payloadLen =? 127) && (10 <=? received)%nat then (false, s)
    else on_frame opcode masked payloadLen 2 buffer s
  else (false, s).

(** [connected = false] after the loop; the thread function returns. *)
Definition thread_exit (s : WebSDRClient) : WebSDRClient :=
  set_receiveThread Finished (set_connected false s).

(** The loop, run on the events its [select] and [recv] calls meet.  When
    the events run out the thread is still waiting in [select]. *)
Fixpoint receiveLoop (io : list io_event) (s : WebSDRClient) : WebSDRClient :=
  if shouldStop s || (socketFd s <? 0) then thread_exit s
  else
    match io with
    | [] => s
    | SelectTimeout :: rest => receiveLoop rest s
    | RecvError :: _ => thread_exit s
    | Recv bytes :: rest =>
        let buffer := take (Z.to_nat 8192) bytes in
        if (0 <? length buffer)%nat then
          let '(stop, s1) := on_data buffer s in
          if stop then thread_exit s1 else receiveLoop rest s1
        else thread_exit s
    end.

(** *** Tuning commands ([setFrequency], [setMode], lines 147-175) *)

(** [fixed3 x] stands for the text [std::fixed << std::setprecision(3)]
    writes for [x]; the stream library is not part of the repository. *)
Definition setFrequency (fixed3 : float → string) (freq : float) (s : WebSDRClient)
  : WebSDRClient :=
  if negb (connected s) then s
  else
    let freqKhz := (freq / of_int 1000)%Qc in
    (sendWebSocketFrame
       ("SET mod=am low_cut=-4000 high_cut=4000 freq=" +:+ fixed3 freqKhz) s).2.

Definition setMode (mode : string) (s : WebSDRClient) : WebSDRClient :=
  if negb (connected s) then s
  else
    let kiwi_mode :=
      if String.eqb mode "usb" then "usb"
      else if String.eqb mode "lsb" then "lsb"
      else if String.eqb mode "fm" then "nbfm"
      else if String.eqb mode "cw" then "cw"
      else "am" in
    (sendWebSocketFrame ("SET mod=" +:+ kiwi_mode +:+ " low_cut=-4000 high_cut=4000") s).2.

(** *** Connecting ([connect], lines 35-127) *)

(** What the network answers to one call of [connect]: whether the host
    resolves, the descriptor [socket] returns, whether the TCP connection
    is made, and the bytes the first [recv] returns ([None] when it fails). *)
Record server : Type := mkServer {
  resolves : bool;
  socket_result : Z;
  accepts : bool;
  response : option (list Z)
}.

Definition upgrade_request (host : string) (port : Z) : string :=
  "GET /kiwi/" +:+ pretty port +:+ "/SND HTTP/1.1" +:+ crlf
  +:+ "Host: " +:+ host +:+ ":" +:+ pretty port +:+ crlf
  +:+ "Upgrade: websocket" +:+ crlf
  +:+ "Connection: Upgrade" +:+ crlf
  +:+ "Sec-WebSocket-Key: dGhlIHNhbXBsZSBub25jZQ==" +:+ crlf
  +:+ "Sec-WebSocket-Version: 13" +:+ crlf +:+ crlf.

(** The text [connect] looks for in the answer (line 95). *)
Definition upgrade_marker : list Z := bytes_of_string "101 Switching Protocols".

(** The commands sent after the upgrade, in order (lines 105-117). *)
Definition initial_commands : list string :=
  [ "SET auth t=kiwi p=";
    "SET AR OK in=12000 out=44100";
    "SET squelch=0 max=0";
    "SET genattn=0";
    "SET mod=am low_cut=-4000 high_cut=4000 freq=7055.000";
    "SET keepalive";
    "SET AUDIO_COMP=0";
    "SET AUDIO_START=1" ].

(** [connect], from the point where the URL has been split into host and
    port (lines 39-46 only prepare these two).  [recv] fills at most 1023
    bytes of the buffer and [strstr] reads it as a C string.  The
    assignment to [receiveThread] at line 101 is that of a client whose
    thread is not joinable; on a joinable thread the assignment ends the
    program, which this function does not describe. *)
Definition connect (host : string) (port : Z) (env : server) (s : WebSDRClient)
  : bool * WebSDRClient :=
  if negb (resolves env) then (false, s)
  else
    let s := set_socketFd (socket_result env) s in
    if socketFd s <? 0 then (false, s)
    else if negb (accepts env) then (false, set_socketFd (-1) s)
    else
      let s := do_send (bytes_of_string (upgrade_request host port)) s in
      let upgraded :=
        match response env with
        | Some bytes =>
            let buffer := take 1023 bytes in
            (0 <? length buffer)%nat
            && contains upgrade_marker (c_str buffer)
        | None => false
        end in
      if upgraded then
        let s := set_receiveThread Running (set_shouldStop false (set_connected true s)) in
        (true, foldl (λ s cmd, (sendWebSocketFrame cmd s).2) s initial_commands)
      else (false, set_socketFd (-1) s).

(** *** Disconnecting ([disconnect], lines 129-145), step by step *)

(** The program points of [disconnect]: before each of its operations, and
    after the last. *)
Inductive disconnect_pc : Type :=
  | AtRaiseStop       (* shouldStop = true;            line 130 *)
  | AtClearConnected  (* connected = false;            line 131 *)
  | AtCloseSocket     (* close(socketFd);              line 137 *)
  | AtInvalidate      (* socketFd = -1;                line 139 *)
  | AtJoin            (* receiveThread.join();         line 143 *)
  | AtReturn.

(** The client object together with the progress of a call of [disconnect]
    on it. *)
Record world : Type := mkWorld {
  client : WebSDRClient;
  pc : disconnect_pc
}.

(** What one step of the system does.  The first five are the operations
    of [disconnect], the last two belong to the receive thread: it hands a
    batch of samples to the audio callback, which writes them into the ring
    buffer, or it leaves its loop and returns. *)
Inductive label : Type :=
  | RaiseStop
  | ClearConnected
  | CloseSocket (fd : Z)
  | InvalidateSocket
  | Join
  | RingWrite (samples : list float)
  | ThreadExit.

(** [if (socketFd >= 0)], line 133 *)
Definition after_flags (s : WebSDRClient) : disconnect_pc :=
  if 0 <=? socketFd s then AtCloseSocket
  else if joinable (receiveThread s) then AtJoin else AtReturn.

(** [if (receiveThread.joinable())], line 142 *)
Definition after_socket (s : WebSDRClient) : disconnect_pc :=
  if joinable (receiveThread s) then AtJoin else AtReturn.

(** One step with the given label, when that step is possible.  [join]
    returns only once the thread function has returned; the receive thread
    moves only while it runs, and whatever the flags are, since a turn of
    its loop may be under way when they change. *)
Definition step (l : label) (w : world) : option world :=
  let s := client w in
  match l, pc w with
  | RaiseStop, AtRaiseStop =>
      Some (mkWorld (set_shouldStop true s) AtClearConnected)
  | ClearConnected, AtClearConnected =>
      Some (mkWorld (set_connected false s) (after_flags s))
  | CloseSocket fd, AtCloseSocket =>
      if fd =? socketFd s then Some (mkWorld s AtInvalidate) else None
  | InvalidateSocket, AtInvalidate =>
      Some (mkWorld (set_socketFd (-1) s) (after_socket s))
  | Join, AtJoin =>
      match receiveThread s with
      | Finished => Some (mkWorld (set_receiveThread NotStarted s) AtReturn)
      | _ => None
      end
  | RingWrite samples, _ =>
      match receiveThread s with
      | Running => Some (mkWorld (do_callback samples s) (pc w))
      | _ => None
      end
  | ThreadExit, _ =>
      match receiveThread s with
      | Running => Some (mkWorld (thread_exit s) (pc w))
      | _ => None
      end
  | _, _ => None
  end.

(** A run: the steps of a trace, one after the other. *)
Fixpoint run (tr : list label) (w : world) : option world :=
  match tr with
  | [] => Some w
  | l :: rest => match step l w with Some w1 => run rest w1 | None => None end
  end.

Definition is_disconnect_op (l : label) : bool :=
  match l with RingWrite _ | ThreadExit => false | _ => true end.

(** *** How a receiver reads what the client sends *)

(** The payload of a masked short-form text frame, unmasked with the key
    the frame carries; [None] for anything else. *)
Definition unmask_frame (frame : list Z) : option (list Z) :=
  match frame with
  | b0 :: b1 :: k0 :: k1 :: k2 :: k3 :: payload =>
      if (b0 =? 0x81) && negb (Z.land b1 0x80 =? 0)
         && (Z.land b1 0x7F <? 126)
         && (Z.of_nat (length payload) =? Z.land b1 0x7F)
      then Some (imap (λ i c, Z.lxor c (nth (i mod 4)%nat [k0; k1; k2; k3] 0)) payload)
      else None
  | _ => None
  end.

(** The space-separated tokens of a command. *)
Fixpoint tokens_from (cur : list Z) (cmd : list Z) : list (list Z) :=
  match cmd with
  | [] => [reverse cur]
  | c :: rest =>
      if c =? 32 then reverse cur :: tokens_from [] rest
      else tokens_from (c :: cur) rest
  end.

Fixpoint first_with_prefix (p : list Z) (ts : list (list Z)) : option (list Z) :=
  match ts with
  | [] => None
  | t :: rest => if is_prefix p t then Some (drop (length p) t) else first_with_prefix p rest
  end.

(** The value of the [mod=] token of a command, when it has one. *)
Definition command_mod (cmd : list Z) : option (list Z) :=
  first_with_prefix (bytes_of_string "mod=") (tokens_from [] cmd).

(** The demodulation mode in force at the receiver after it has read the
    given byte strings in order: the [mod=] value of the last command that
    carries one. *)
Definition selected_mode (sends : list (list Z)) : option (list Z) :=
  foldl (λ (cur : option (list Z)) bytes,
           match unmask_frame bytes ≫= command_mod with
           | Some m => Some m
           | None => cur
           end) None sends.

(** *** Notions used to state the properties *)

(** The last [n] elements of a list. *)
Definition lastn {A : Type} (n : nat) (l : list A) : list A :=
  drop (length l - n) l.

(** Cursors are indices into a non-empty vector. *)
Definition wf (m : WebSDRModule) : Prop :=
  (readPos m < capacity m)%nat ∧ (writePos m < capacity m)%nat.

(** The unread samples, oldest first: the slots from the read cursor up to,
    not including, the write cursor, around the end of the vector. *)
Definition unread (m : WebSDRModule) : list float :=
  (λ i, nth ((readPos m + i) mod capacity m)%nat (audioBuffer m) fzero)
    <$> seq 0 ((writePos m + capacity m - readPos m) mod capacity m)%nat.

Definition is_byte (b : Z) : Prop := 0 ≤ b < 256.

(** The value of a 16-bit word read as a two's complement number. *)
Definition signed16 (v : Z) : Z := if v <? 32768 then v else v - 65536.

Definition half : float := (of_int 1 / of_int 2)%Qc.

(** A client in the middle of a session: connected on descriptor 3, its
    receive thread running. *)
Definition live : WebSDRClient :=
  set_receiveThread Running (set_connected true (set_socketFd 3 newClient)).

(** The complete header of an unmasked frame (spec section 6), with the
    opcode and the payload length it declares: two bytes with a length
    below 126, or four bytes with the length in the last two. *)
Inductive header_of : list Z → Z → Z → Prop :=
  | short_header b0 b1 :
      Z.land b1 0x80 = 0 → Z.land b1 0x7F < 126 →
      header_of [b0; b1] (Z.land b0 0x0F) (Z.land b1 0x7F)
  | extended_header b0 b1 h l :
      Z.land b1 0x80 = 0 → Z.land b1 0x7F = 126 →
      header_of [b0; b1; h; l] (Z.land b0 0x0F) (Z.lor (Z.shiftl h 8) l).

(** A frame with the 64-bit length form that declares two payload bytes,
    and the binary frame of one sample that follows it on the stream. *)
Definition long_frame : list Z := [0x82; 0x7F; 0; 0; 0; 0; 0; 0; 0; 2; 0xAA; 0xBB].
Definition next_frame : list Z := [0x82; 0x02; 0x00; 0x40].

(** A server that answers the upgrade request with a 404 status line. *)
Definition server_404 : server :=
  {| resolves := true; socket_result := 3; accepts := true;
     response := Some (bytes_of_string "HTTP/1.1 404 Not Found") |}.

(** The operations of [disconnect] still to come from a program point. *)
Definition socket_ops (s : WebSDRClient) : list label :=
  if 0 <=? socketFd s then [CloseSocket (socketFd s); InvalidateSocket] else [].

Definition join_ops (s : WebSDRClient) : list label :=
  if joinable (receiveThread s) then [Join] else [].

Definition remaining (w : world) : list label :=
  let s := client w in
  match pc w with
  | AtRaiseStop => [RaiseStop; ClearConnected] ++ socket_ops s ++ join_ops s
  | AtClearConnected => [ClearConnected] ++ socket_ops s ++ join_ops s
  | AtCloseSocket => [CloseSocket (socketFd s); InvalidateSocket] ++ join_ops s
  | AtInvalidate => [InvalidateSocket] ++ join_ops s
  | AtJoin => [Join]
  | AtReturn => []
  end.

(** Once [disconnect] has passed the socket, the descriptor is invalid; once
    it has returned, there is no receive thread. *)
Definition settled (w : world) : Prop :=
  (pc w = AtReturn → receiveThread (client w) = NotStarted)
  ∧ (pc w = AtJoin ∨ pc w = AtReturn → socketFd (client w) < 0).

(** A complete call of [disconnect] on [live]; the receive thread delivers
    one more batch and leaves its loop before it is joined. *)
Definition disconnect_run : list label :=
  [RaiseStop; ClearConnected; CloseSocket 3; InvalidateSocket;
   RingWrite [half]; ThreadExit; Join].

(** A ring of four slots, freshly constructed, and six samples 1..6. *)
Definition ring4 : WebSDRModule := newModule 4.
Definition six_samples : list float := of_int <$> [1; 2; 3; 4; 5; 6].

(** The module as constructed (48000 slots) receives one silent sample and
    the engine, running at 12 kHz, pulls once. *)
Definition silent_history : list module_op :=
  [OpCallback [fzero]; OpPull (of_int 12000)].

(** A formatter that writes 14230.000, the text [std::fixed] with precision
    3 gives for 14.23 MHz in kHz. *)
Definition fixed3_20m : float → string := λ _, "14230.000".

(** *** The remaining code: [setBandwidth], the module's tuning and
    presets, the station table *)

(** [setBandwidth] (WebSDRClient.cpp lines 177-184).  [show x] stands for
    the text the stream library writes for a float with its default
    formatting.  A rational has no negative zero: for a bandwidth of zero
    the source writes [-0] and [0], which no [show] gives, so what is
    proved about the written edges is for a bandwidth other than zero. *)
Definition setBandwidth (show : float → string) (bw : float) (s : WebSDRClient)
  : WebSDRClient :=
  if negb (connected s) then s
  else
    let half_bw := (bw / of_int 2)%Qc in
    (sendWebSocketFrame
       ("SET low_cut=" +:+ show (- half_bw)%Qc +:+ " high_cut=" +:+ show half_bw) s).2.

(** *** The module's use of the client (WebSDRModule.cpp) *)

(** The constructor connects to the first server and, when that fails, to
    the backup (lines 101-104); [connect] splits each URL at the colon into
    the host and the port 8073. *)
Definition connectWithBackup (env1 env2 : server) (s : WebSDRClient) : WebSDRClient :=
  let r := connect "kiwisdr.ve6slp.ca" 8073 env1 s in
  if r.1 then r.2 else (connect "sdr.ve3sun.com" 8073 env2 r.2).2.

(** The two function-local statics of [process] (lines 144 and 152). *)
Record tuning : Type := mkTuning {
  lastFreq : float;
  lastMode : float
}.

Definition initial_tuning : tuning :=
  {| lastFreq := fzero; lastMode := of_int (-1) |}.

Definition modes : list string := ["am"; "fm"; "usb"; "lsb"; "cw"].

(** [std::min(4, std::max(0, (int)mode))] *)
Definition modeIdx (mode : float) : Z := 4 `min` (0 `max` truncate mode).

(** The tuning part of [process] (lines 143-159) for the values of the
    frequency and mode knobs. *)
Definition process_tuning (fixed3 : float → string) (freq mode : float)
    (ts : tuning * WebSDRClient) : tuning * WebSDRClient :=
  let '(t, s) := ts in
  let '(t, s) :=
    if bool_decide (of_int 100 < Qcabs (freq - lastFreq t))%Qc
    then ({| lastFreq := freq; lastMode := lastMode t |}, setFrequency fixed3 freq s)
    else (t, s) in
  if bool_decide (mode ≠ lastMode t)
  then ({| lastFreq := lastFreq t; lastMode := mode |},
        setMode (nth (Z.to_nat (modeIdx mode)) modes "") s)
  else (t, s).

(** *** Presets (WebSDRModule.cpp lines 47-53, 172-187, 230-235) *)

Definition NUM_PRESETS : nat := 8.

(** The frequency knob [params[FREQ_PARAM]] and the three preset arrays. *)
Record presets : Type := mkPresets {
  freqParam : float;
  presetFrequencies : list float;
  presetSaved : list bool;
  presetLightBrightness : list float
}.

(** As constructed (lines 49-53 and 58): the knob at its default. *)
Definition newPresets : presets :=
  {| freqParam := of_int 7055000;
     presetFrequencies := replicate NUM_PRESETS fzero;
     presetSaved := replicate NUM_PRESETS false;
     presetLightBrightness := replicate NUM_PRESETS fzero |}.

Definition flashPresetLight (preset : nat) (p : presets) : presets :=
  {| freqParam := freqParam p; presetFrequencies := presetFrequencies p;
     presetSaved := presetSaved p;
     presetLightBrightness := <[preset := of_int 1]> (presetLightBrightness p) |}.

(** [params[FREQ_PARAM].setValue(v)] *)
Definition setFreqParam (v : float) (p : presets) : presets :=
  {| freqParam := v; presetFrequencies := presetFrequencies p;
     presetSaved := presetSaved p;
     presetLightBrightness := presetLightBrightness p |}.

Definition handlePresetPress (preset : nat) (currentFreq : float) (p : presets) : presets :=
  if negb (nth preset (presetSaved p) false) then
    {| freqParam := freqParam p;
       presetFrequencies := <[preset := currentFreq]> (presetFrequencies p);
       presetSaved := <[preset := true]> (presetSaved p);
       presetLightBrightness := <[preset := of_int 1]> (presetLightBrightness p) |}
  else
    flashPresetLight preset (setFreqParam (nth preset (presetFrequencies p) fzero) p).

Definition fmax (a b : float) : float := if bool_decide (a < b)%Qc then b else a.

(** One turn of the preset loop of [process] (lines 115-141).  [pressed]
    tells whether the button's trigger fired, [gated] whether the gate
    input is connected and its trigger fired; [currentFreq] is the knob
    value read before the loop (line 113).  The floor [0.2f] of a saved
    preset's light is written as the rational 2/10. *)
Definition preset_turn (currentFreq sampleTime : float) (i : nat)
    (pressed gated : bool) (p : presets) : presets :=
  let p := if pressed then handlePresetPress i currentFreq p else p in
  let p :=
    if gated && nth i (presetSaved p) false
    then flashPresetLight i (setFreqParam (nth i (presetFrequencies p) fzero) p)
    else p in
  let b := (nth i (presetLightBrightness p) fzero - sampleTime * of_int 2)%Qc in
  let floor := if nth i (presetSaved p) false then (of_int 2 / of_int 10)%Qc else fzero in
  {| freqParam := freqParam p; presetFrequencies := presetFrequencies p;
     presetSaved := presetSaved p;
     presetLightBrightness := <[i := fmax floor b]> (presetLightBrightness p) |}.

(** [for (int i = 0; i < NUM_PRESETS; i++)], from index [i] on, over the
    trigger results of the remaining presets. *)
Fixpoint preset_loop (currentFreq sampleTime : float) (i : nat)
    (triggers : list (bool * bool)) (p : presets) : presets :=
  match triggers with
  | [] => p
  | (pressed, gated) :: rest =>
      preset_loop currentFreq sampleTime (S i) rest
        (preset_turn currentFreq sampleTime i pressed gated p)
  end.

(** The preset part of [process] for one tick; [triggers] has one entry per
    preset. *)
Definition process_presets (sampleTime : float) (triggers : list (bool * bool))
    (p : presets) : presets :=
  preset_loop (freqParam p) sampleTime 0 triggers p.

(** *** The station table (stations.hpp) *)

Module stations.

Record Station : Type := mkStation {
  freq : float;
  name : string;
  time : string;
  mode : string
}.

Definition STATIONS : list Station := [
    mkStation (of_int 2500000) "wwv 2.5" "24h" "am";
    mkStation (of_int 5000000) "wwv 5" "24h" "am";
    mkStation (of_int 10000000) "wwv 10" "24h" "am";
    mkStation (of_int 15000000) "wwv 15" "24h" "am";
    mkStation (of_int 20000000) "wwv 20" "24h" "am";
    mkStation (of_int 3330000) "chv" "24h" "am";
    mkStation (of_int 7850000) "chv" "24h" "am";
    mkStation (of_int 14670000) "chv" "24h" "am";
    mkStation (of_int 3255000) "bbc" "night" "am";
    mkStation (of_int 5875000) "bbc" "night" "am";
    mkStation (of_int 6195000) "bbc" "night" "am";
    mkStation (of_int 9410000) "bbc" "night" "am";
    mkStation (of_int 12095000) "bbc" "day" "am";
    mkStation (of_int 15400000) "bbc" "day" "am";
    mkStation (of_int 6080000) "voa" "night" "am";
    mkStation (of_int 9885000) "voa" "night" "am";
    mkStation (of_int 15580000) "voa" "day" "am";
    mkStation (of_int 6000000) "rhc" "night" "am";
    mkStation (of_int 6165000) "rhc" "night" "am";
    mkStation (of_int 11760000) "rhc" "night" "am";
    mkStation (of_int 9570000) "cri" "night" "am";
    mkStation (of_int 11710000) "cri" "day" "am";
    mkStation (of_int 13640000) "cri" "day" "am";
    mkStation (of_int 3750000) "80m ssb" "night" "lsb";
    mkStation (of_int 7074000) "40m ft8" "24h" "usb";
    mkStation (of_int 7200000) "40m ssb" "night" "lsb";
    mkStation (of_int 14074000) "20m ft8" "day" "usb";
    mkStation (of_int 14230000) "20m ssb" "day" "usb";
    mkStation (of_int 21074000) "15m ft8" "day" "usb";
    mkStation (of_int 21200000) "15m ssb" "day" "usb";
    mkStation (of_int 28074000) "10m ft8" "day" "usb";
    mkStation (of_int 28400000) "10m ssb" "day" "usb";
    mkStation (of_int 4625000) "uvb-76" "24h" "am";
    mkStation (of_int 8992000) "hfgcs" "24h" "usb";
    mkStation (of_int 11175000) "hfgcs" "24h" "usb";
    mkStation (of_int 6925000) "pirate" "night" "am";
    mkStation (of_int 6930000) "pirate" "night" "am";
    mkStation (of_int 6935000) "pirate" "night" "am";
    mkStation (of_int 5680000) "aviation" "24h" "usb";
    mkStation (of_int 8891000) "aviation" "24h" "usb";
    mkStation (of_int 11336000) "aviation" "24h" "usb";
    mkStation (of_int 3357000) "weather fax" "24h" "usb";
    mkStation (of_int 7795000) "weather fax" "24h" "usb";
    mkStation (of_int 9982500) "weather fax" "24h" "usb"
  ].

Definition NUM_STATIONS : Z := Z.of_nat (length STATIONS).

(** [getStation] (lines 91-96): [None] is the null pointer. *)
Definition getStation (index : Z) : option Station :=
  if bool_decide (0 ≤ index ∧ index < NUM_STATIONS)
  then STATIONS !! Z.to_nat index
  else None.

(** One turn of the loop of [findNearestStation] (lines 103-109) on the
    pair of [nearest] and [minDiff]. *)
Definition nearer (freq0 : float) (acc : option Station * float) (s : Station)
  : option Station * float :=
  let diff := Qcabs (freq s - freq0) in
  if bool_decide (diff < acc.2)%Qc then (Some s, diff) else acc.

(** [findNearestStation] (lines 99-112). *)
Definition findNearestStation (freq0 : float) : option Station :=
  (foldl (nearer freq0) (None, of_int 1000000) STATIONS).1.

End stations.

(** *** Further notions used to state the properties *)

(** The number of ring positions a call advances over, and the phase it
    leaves, for the phase [p] reached after adding the rate ratio
    (lines 198-201). *)
Definition advance_of (p : float) : nat :=
  if bool_decide (1 ≤ p)%Qc then Z.to_nat (truncate p) else 0%nat.

Definition phase_after (p : float) : float :=
  if bool_decide (1 ≤ p)%Qc then (p - of_int (truncate p))%Qc else p.

(** The interpolated value of lines 212-219 for a queue of unread samples. *)
Definition interpolate (last : float) (queue : list float) (phase : float) : float :=
  (last + (default last (head queue) - last) * phase)%Qc.


(** A phase that [(int)] can convert: it is below 2^31. *)
Definition fits_int (x : float) : Prop := (x < of_int 2147483648)%Qc.

(** Every engine rate of a history is positive, and not so small that the
    rate ratio leaves the range of [int]. *)
Definition engine_rates (ops : list module_op) : Prop :=
  Forall (λ op, match op with
                | OpPull e => (0 < e)%Qc ∧ (sourceRate / e ≤ of_int 2147483647)%Qc
                | _ => True
                end) ops.

(** A value lies in the closed interval from [lo] to [hi]. *)
Definition within (lo hi x : float) : Prop := (lo ≤ x)%Qc ∧ (x ≤ hi)%Qc.

(** The value of the token [key...] of a command, when it has one, and the
    value in force at the receiver after the given byte strings. *)
Definition command_value (key : string) (cmd : list Z) : option (list Z) :=
  first_with_prefix (bytes_of_string key) (tokens_from [] cmd).

Definition selected_value (key : string) (sends : list (list Z)) : option (list Z) :=
  foldl (λ (cur : option (list Z)) bytes,
           match unmask_frame bytes ≫= command_value key with
           | Some v => Some v
           | None => cur
           end) None sends.

(** The commands a receiver reads out of what was sent: the payloads of the
    masked text frames, in order. *)
Definition commands_read (sends : list (list Z)) : list (list Z) :=
  omap unmask_frame sends.


(** The KiwiSDR name of a demodulation mode, as [setMode] maps it: four
    names are known, everything else is AM. *)
Definition kiwi_table : list (string * string) :=
  [("usb", "usb"); ("lsb", "lsb"); ("fm", "nbfm"); ("cw", "cw")].

Fixpoint assoc (key : string) (table : list (string * string)) : option string :=
  match table with
  | [] => None
  | (k, v) :: rest => if String.eqb k key then Some v else assoc key rest
  end.

Definition kiwi_of (mode : string) : string := default "am" (assoc mode kiwi_table).

Definition no_space (s : string) : Prop := Forall (λ c, c ≠ 32) (bytes_of_string s).

(** The server answers the upgrade: it resolves, the socket opens, the
    connection is accepted, and the marker occurs in the first 1023 bytes of
    the answer before any NUL byte. *)
Definition answers_upgrade (env : server) : Prop :=
  resolves env = true ∧ 0 ≤ socket_result env ∧ accepts env = true
  ∧ ∃ bytes pre post, response env = Some bytes
      ∧ c_str (take 1023 bytes) = pre ++ upgrade_marker ++ post.


(** The two bytes a sender writes for a 16-bit sample: low byte first, two's
    complement. *)
Definition pcm_encode (v : Z) : list Z := [v mod 256; (v / 256) mod 256].

Definition is_int16 (v : Z) : Prop := -32768 ≤ v < 32768.

(** The payload is taken for a MSG frame and skipped by
    [processAudioPacket] (line 262). *)
Definition skipped (data : list Z) : Prop :=
  (4 < length data)%nat ∧ take 4 data = MSG_prefix.


(** Once [disconnect] is past its first two lines, the stop flag is up and
    [connected] is down. *)
Definition flags_down (w : world) : Prop :=
  (pc w ≠ AtRaiseStop → shouldStop (client w) = true)
  ∧ (pc w ≠ AtRaiseStop → pc w ≠ AtClearConnected → connected (client w) = false).

(** A trace on which [disconnect] completes from the client state [s],
    the receive thread leaving its loop as soon as the socket is gone. *)
Definition disconnect_trace (s : WebSDRClient) : list label :=
  [RaiseStop; ClearConnected] ++ socket_ops s
  ++ match receiveThread s with
     | Running => [ThreadExit; Join]
     | Finished => [Join]
     | NotStarted => []
     end.

(** The three preset arrays have one slot per preset. *)
Definition presets_wf (p : presets) : Prop :=
  length (presetFrequencies p) = NUM_PRESETS
  ∧ length (presetSaved p) = NUM_PRESETS
  ∧ length (presetLightBrightness p) = NUM_PRESETS.

(** Only the button of preset [i] fires in a tick. *)
Definition only_button (i : nat) (triggers : list (bool * bool)) : Prop :=
  length triggers = NUM_PRESETS
  ∧ triggers !! i = Some (true, false)
  ∧ ∀ j, j ≠ i → (j < NUM_PRESETS)%nat → triggers !! j = Some (false, false).

(** Two preset states agree on the knob and on what is stored (the lights
    apart). *)
Definition same_store (p q : presets) : Prop :=
  freqParam p = freqParam q
  ∧ presetFrequencies p = presetFrequencies q
  ∧ presetSaved p = presetSaved q.

(** *** Inputs of the examples *)

(** A server that upgrades, and one that cannot be resolved. *)
Definition server_101 : server :=
  {| resolves := true; socket_result := 3; accepts := true;
     response := Some (bytes_of_string "HTTP/1.1 101 Switching Protocols") |}.

Definition server_down : server :=
  {| resolves := false; socket_result := -1; accepts := false; response := None |}.

(** The ring of four slots with two unread samples. *)
Definition ring4_fed : WebSDRModule := audioCallback ring4 (of_int <$> [1; 2]).

(** A history of the module: a batch, a pull at 44.1 kHz, a reset and a pull
    at 48 kHz. *)
Definition module_history : list module_op :=
  [OpCallback six_samples; OpPull (of_int 44100); OpReset; OpPull (of_int 48000)].

(** A formatter that writes the two edges of a 3 kHz passband. *)
Definition show_3000 : float → string :=
  λ x, if bool_decide (x < 0)%Qc then "-1500" else "1500".

(** Only the button of the third preset fires. *)
Definition press_third : list (bool * bool) :=
  [(false, false); (false, false); (true, false); (false, false);
   (false, false); (false, false); (false, false); (false, false)].

(** The client after a complete call of [disconnect] on [live] along
    [disconnect_run]. *)
Definition after_disconnect : world :=
  mkWorld
    (set_receiveThread NotStarted
       (thread_exit (do_callback [half] (set_socketFd (-1)
          (set_connected false (set_shouldStop true live))))))
    AtReturn.

(** A sample time of one millisecond. *)
Definition one_ms : float := (of_int 1 / of_int 1000)%Qc.

(** The two 16-bit values 16384 and -16384 (the samples 0.5 and -0.5). *)
Definition two_values : list Z := [16384; -16384].

(** ** Part II. Properties *)

(** *** Arithmetic of the cursors *)

Lemma mod_wrap (a c : nat) :
  (a < 2 * c)%nat → (a mod c = if decide (a < c)%nat then a else a - c)%nat.
Proof.
  intros Ha. case_decide as Hlt.
  - by apply Nat.mod_small.
  - replace a with ((a - c) + 1 * c)%nat at 1 by lia.
    rewrite Nat.Div0.mod_add. apply Nat.mod_small. lia.
Qed.

(** Replaces every [a mod c] whose argument is below [2 * c] by its value. *)
Ltac unwrap_mod :=
  repeat match goal with
  | |- context [(?a mod ?c)%nat] => rewrite (mod_wrap a c) by lia; case_decide
  | H : context [(?a mod ?c)%nat] |- _ =>
      rewrite (mod_wrap a c) in H by lia; case_decide
  end.

Lemma lookup_fmap_seq {A : Type} (f : nat → A) (n i : nat) :
  (f <$> seq 0 n) !! i = if decide (i < n)%nat then Some (f i) else None.
Proof.
  rewrite list_lookup_fmap. case_decide as Hi.
  - by rewrite lookup_seq_lt.
  - rewrite lookup_seq_ge; [done | lia].
Qed.

Lemma length_lastn {A : Type} (n : nat) (l : list A) :
  length (lastn n l) = (length l `min` n)%nat.
Proof. unfold lastn. rewrite length_drop. lia. Qed.

Lemma lastn_all {A : Type} (n : nat) (l : list A) :
  (length l ≤ n)%nat → lastn n l = l.
Proof. intros H. unfold lastn. by replace (length l - n)%nat with 0%nat by lia. Qed.

Lemma lastn_app_r {A : Type} (n : nat) (l1 l2 : list A) :
  (n ≤ length l2)%nat → lastn n (l1 ++ l2) = lastn n l2.
Proof.
  intros H. unfold lastn. rewrite length_app.
  replace (length l1 + length l2 - n)%nat
    with (length l1 + (length l2 - n))%nat by lia.
  by rewrite drop_app_add.
Qed.

Lemma lastn_lastn_app {A : Type} (n : nat) (l1 l2 : list A) :
  lastn n (lastn n l1 ++ l2) = lastn n (l1 ++ l2).
Proof.
  unfold lastn at 1 3. rewrite !length_app, length_lastn.
  destruct (decide (length l1 ≤ n)%nat) as [Hle|Hgt].
  - rewrite lastn_all by done. by rewrite Nat.min_l.
  - unfold lastn. rewrite Nat.min_r by lia.
    replace (length l1 + length l2 - n)%nat
      with ((length l1 - n) + length l2)%nat by lia.
    rewrite <- drop_drop, (drop_app_le l1) by lia.
    f_equal. lia.
Qed.

(** *** The ring buffer keeps its cursors in range *)

Lemma capacity_write_sample m x : capacity (write_sample m x) = capacity m.
Proof. unfold capacity, write_sample. simpl. apply length_insert. Qed.

Lemma wf_write_sample m x : wf m → wf (write_sample m x).
Proof.
  unfold wf. rewrite capacity_write_sample.
  unfold write_sample, capacity. simpl. rewrite length_insert.
  intros [Hr Hw]. case_decide; unwrap_mod; lia.
Qed.

Lemma capacity_audioCallback xs : ∀ m, capacity (audioCallback m xs) = capacity m.
Proof.
  induction xs as [|x xs IH]; intros m; [done|].
  unfold audioCallback in *. simpl. by rewrite IH, capacity_write_sample.
Qed.

Lemma wf_audioCallback xs : ∀ m, wf m → wf (audioCallback m xs).
Proof.
  induction xs as [|x xs IH]; intros m Hm; [done|].
  apply IH. by apply wf_write_sample.
Qed.

Lemma length_unread_eq m :
  length (unread m) = ((writePos m + capacity m - readPos m) mod capacity m)%nat.
Proof. unfold unread. by rewrite length_fmap, length_seq. Qed.

Lemma length_unread m : wf m → (length (unread m) < capacity m)%nat.
Proof.
  intros [Hr Hw]. rewrite length_unread_eq. apply Nat.mod_upper_bound. lia.
Qed.

Lemma lookup_unread m i :
  unread m !! i =
    if decide (i < (writePos m + capacity m - readPos m) mod capacity m)%nat
    then Some (nth ((readPos m + i) mod capacity m)%nat (audioBuffer m) fzero)
    else None.
Proof. unfold unread. apply (lookup_fmap_seq (λ i, nth _ (audioBuffer m) fzero)). Qed.

(** *** A write appends a sample and drops the oldest one when full *)

Lemma unread_write_sample m x :
  wf m → unread (write_sample m x) = lastn (capacity m - 1) (unread m ++ [x]).
Proof.
  intros [Hr Hw]. apply list_eq. intros i.
  unfold lastn. rewrite lookup_drop, lookup_app, !lookup_unread, length_app.
  rewrite capacity_write_sample, length_unread_eq.
  destruct m as [buf r w ls ph].
  unfold write_sample, capacity in *. simpl in *.
  rewrite !length_insert. rewrite !nth_lookup.
  remember (length buf) as c eqn:Hc.
  assert (Hn : ((w + c - r) mod c = if decide (r ≤ w) then w - r else w + c - r)%nat)
    by (rewrite mod_wrap by lia; repeat case_decide; lia).
  assert (Hw' : ((w + 1) mod c = if decide (w + 1 < c) then w + 1 else 0)%nat)
    by (rewrite mod_wrap by lia; repeat case_decide; lia).
  assert (Hr' : ((r + 1) mod c = if decide (r + 1 < c) then r + 1 else 0)%nat)
    by (rewrite mod_wrap by lia; repeat case_decide; lia).
  rewrite Hn, Hw', Hr' in *. clear Hn Hw' Hr'.
  destruct (decide (w + 1 < c)%nat), (decide (r ≤ w)%nat), (decide (r + 1 < c)%nat).
  all: match goal with |- context [decide (?a = ?b)] => destruct (decide (a = b)) end;
         try lia.
  all: match goal with |- context [(?a mod ?c)%nat] =>
         rewrite (mod_wrap a c) by lia end.
  all: match goal with H : (_ < ?c)%nat |- _ =>
         destruct (decide (i < c)%nat);
         [rewrite ?(mod_wrap _ c) by lia | repeat case_decide; try lia] end.
  all: rewrite ?list_lookup_insert.
  all: repeat case_decide; try lia; try done.
  all: try (do 3 f_equal; lia).
  all: match goal with |- _ = [_] !! ?k =>
         first [ by replace k with 0%nat by lia
               | by rewrite lookup_ge_None_2 by (simpl; lia) ] end.
Qed.

Lemma unread_audioCallback xs : ∀ m,
  wf m → unread (audioCallback m xs) = lastn (capacity m - 1) (unread m ++ xs).
Proof.
  induction xs as [|x xs IH]; intros m Hm.
  - rewrite app_nil_r, lastn_all; [done|].
    pose proof (length_unread m Hm). lia.
  - change (audioCallback m (x :: xs)) with (audioCallback (write_sample m x) xs).
    rewrite IH by (by apply wf_write_sample).
    rewrite capacity_write_sample, unread_write_sample by done.
    rewrite lastn_lastn_app. by rewrite <- app_assoc.
Qed.

(** *** Reading until the cursors meet returns the unread samples *)

Lemma unread_empty m : readPos m = writePos m → wf m → unread m = [].
Proof.
  intros Heq [Hr Hw]. unfold unread. rewrite Heq.
  replace (writePos m + capacity m - writePos m)%nat with (capacity m) by lia.
  by rewrite Nat.Div0.mod_same.
Qed.

Lemma advance_read_empty n : ∀ m,
  readPos m = writePos m → advance_read n m = ([], m).
Proof.
  induction n as [|n IH]; intros m Heq; [done|].
  simpl. unfold read_sample. rewrite decide_False by (by intros ?).
  by rewrite IH.
Qed.

Lemma read_sample_unread m :
  wf m → readPos m ≠ writePos m →
  ∃ v m1, read_sample m = (Some v, m1) ∧ unread m = v :: unread m1 ∧ wf m1
          ∧ writePos m1 = writePos m ∧ capacity m1 = capacity m
          ∧ audioBuffer m1 = audioBuffer m.
Proof.
  intros [Hr Hw] Hne. unfold read_sample. rewrite decide_True by done.
  eexists _, _. split; [done|].
  destruct m as [buf r w ls ph]. unfold wf, unread, capacity in *. simpl in *.
  remember (length buf) as c eqn:Hc.
  assert (Hr' : ((r + 1) mod c < c)%nat) by (apply Nat.mod_upper_bound; lia).
  split_and!; try done.
  apply list_eq. intros i. destruct i as [|i]; simpl.
  - rewrite (lookup_fmap_seq (λ i, nth ((r + i) mod c)%nat buf fzero)).
    rewrite (mod_wrap (w + c - r)) by lia.
    rewrite Nat.add_0_r, Nat.mod_small by lia.
    repeat case_decide; try lia; done.
  - rewrite !(lookup_fmap_seq (λ i, nth (_ mod c)%nat buf fzero)).
    rewrite (mod_wrap (r + 1)), (mod_wrap (w + c - r)) by lia.
    destruct (decide (r + 1 < c)%nat), (decide (w + c - r < c)%nat).
    all: match goal with |- context [decide (_ < (?a mod ?c))%nat] =>
           rewrite (mod_wrap a c) by lia end.
    all: repeat case_decide; try lia; try done.
    all: rewrite !mod_wrap by lia.
    all: repeat case_decide; try lia; do 2 f_equal; lia.
Qed.

Lemma advance_read_unread n : ∀ m,
  wf m → (length (unread m) ≤ n)%nat →
  ∃ m1, advance_read n m = (unread m, m1) ∧ readPos m1 = writePos m1
        ∧ writePos m1 = writePos m ∧ audioBuffer m1 = audioBuffer m.
Proof.
  induction n as [|n IH]; intros m Hm Hlen.
  - assert (Heq : readPos m = writePos m).
    { destruct Hm as [Hr Hw]. rewrite length_unread_eq in Hlen.
      rewrite mod_wrap in Hlen by lia. case_decide; lia. }
    exists m. by rewrite unread_empty.
  - destruct (decide (readPos m = writePos m)) as [Heq|Hne].
    + exists m. by rewrite advance_read_empty, unread_empty.
    + destruct (read_sample_unread m Hm Hne)
        as (v & m1 & Hrs & Hu & Hm1 & Hw1 & Hc1 & Hb1).
      destruct (IH m1 Hm1) as (m2 & Hadv & Hr2 & Hw2 & Hb2).
      { rewrite Hu in Hlen. simpl in Hlen. lia. }
      exists m2. simpl. rewrite Hrs, Hadv, Hu. simpl.
      split_and!; congruence.
Qed.

(** *** The resampler holds its last sample on underrun *)

Lemma lastSample_write_sample m x : lastSample (write_sample m x) = lastSample m.
Proof. done. Qed.

Lemma lastSample_audioCallback xs : ∀ m, lastSample (audioCallback m xs) = lastSample m.
Proof.
  induction xs as [|x xs IH]; intros m; [done|].
  change (audioCallback m (x :: xs)) with (audioCallback (write_sample m x) xs).
  by rewrite IH.
Qed.

Lemma last_cons_default {A : Type} (l : list A) : ∀ a d d',
  List.last (a :: l) d = List.last (a :: l) d'.
Proof.
  induction l as [|b l IH]; intros a d d'; [done|].
  change (List.last (b :: l) d = List.last (b :: l) d'). apply IH.
Qed.

Lemma advance_read_last n : ∀ m c m',
  advance_read n m = (c, m') → lastSample m' = List.last c (lastSample m).
Proof.
  induction n as [|n IH]; intros m c m' Hadv; simpl in Hadv.
  - by inversion Hadv.
  - unfold read_sample in Hadv. case_decide.
    + destruct (advance_read n _) as [l m2] eqn:Hl. inversion Hadv; subst.
      apply IH in Hl. simpl in Hl |- *. rewrite Hl.
      destruct l; [done|]. apply last_cons_default.
    + destruct (advance_read n m) as [l m2] eqn:Hl. inversion Hadv; subst.
      by apply IH.
Qed.

Lemma getResampledAudio_last e m y c m' :
  getResampledAudio e m = (y, c, m') → lastSample m' = List.last c (lastSample m).
Proof.
  unfold getResampledAudio. case_bool_decide.
  - destruct (advance_read _ _) as [l m1] eqn:Hl. intros [= <- <- <-].
    by apply advance_read_last in Hl.
  - by intros [= <- <- <-].
Qed.

Lemma getResampledAudio_empty e m :
  readPos m = writePos m →
  ∃ p, getResampledAudio e m = (lastSample m, [], set_phase m p).
Proof.
  intros Heq. unfold getResampledAudio. case_bool_decide.
  - rewrite advance_read_empty by done. simpl.
    rewrite decide_False by (by intros ?).
    eexists. do 2 f_equal. ring.
  - simpl. rewrite decide_False by (by intros ?).
    eexists. do 2 f_equal. ring.
Qed.

Lemma last_app_default {A : Type} (l1 l2 : list A) (d : A) :
  List.last (l1 ++ l2) d = List.last l2 (List.last l1 d).
Proof.
  induction l1 as [|a l1 IH]; [done|].
  destruct l1 as [|b l1].
  - simpl. destruct l2; [done|]. apply last_cons_default.
  - change (List.last ((a :: b :: l1) ++ l2) d) with (List.last ((b :: l1) ++ l2) d).
    by rewrite IH.
Qed.

Lemma run_module_last ops : ∀ log m,
  lastSample m = List.last log fzero →
  lastSample (run_module ops log m).2 = List.last (run_module ops log m).1 fzero.
Proof.
  induction ops as [|[xs|e|] ops IH]; intros log m Hinv; simpl.
  - done.
  - apply IH. by rewrite lastSample_audioCallback.
  - destruct (getResampledAudio e m) as [[y c] m1] eqn:Hg.
    apply IH. rewrite last_app_default, <- Hinv.
    by apply getResampledAudio_last in Hg.
  - by apply IH.
Qed.

(** *** Claims about the ring buffer and the resampler *)

(** C1, as the code has it.  After a batch of N > capacity samples has been
    written, from any state whose cursors are in range, reading while the
    read cursor differs from the write cursor returns exactly the
    [capacity - 1] most recent samples of the batch, in write order, and
    ends with the cursors equal.  One slot always stays free: the write
    that would make the cursors meet drops the oldest unread sample.  Every
    value read is one of the samples written, none an initial slot. *)
Theorem C1_ring_keeps_capacity_minus_one (m : WebSDRModule) (xs : list float) (n : nat) :
  wf m → (capacity m < length xs)%nat → (capacity m - 1 ≤ n)%nat →
  ∃ m', advance_read n (audioCallback m xs) = (lastn (capacity m - 1) xs, m')
        ∧ readPos m' = writePos m'
        ∧ length (lastn (capacity m - 1) xs) = (capacity m - 1)%nat
        ∧ lastn (capacity m - 1) xs `suffix_of` xs.
Proof.
  intros Hm Hxs Hn.
  pose proof (unread_audioCallback xs m Hm) as Hu.
  rewrite lastn_app_r in Hu by lia.
  destruct (advance_read_unread n (audioCallback m xs)) as (m' & Hadv & Hr & _).
  - by apply wf_audioCallback.
  - rewrite Hu, length_lastn. lia.
  - exists m'. rewrite Hadv, Hu, length_lastn.
    split_and!; [done|done|lia|apply suffix_drop].
Qed.

Lemma C1_ring_witness :
  ∃ m', advance_read 4 (audioCallback ring4 six_samples)
          = (lastn (capacity ring4 - 1) six_samples, m')
        ∧ readPos m' = writePos m'
        ∧ length (lastn (capacity ring4 - 1) six_samples) = (capacity ring4 - 1)%nat
        ∧ lastn (capacity ring4 - 1) six_samples `suffix_of` six_samples.
Proof.
  apply (C1_ring_keeps_capacity_minus_one ring4 six_samples 4).
  - split; vm_compute; lia.
  - vm_compute; lia.
  - vm_compute; lia.
Defined.

(** C1 as stated fails: six samples written into a fresh ring of capacity
    four leave three samples to read (4, 5, 6), not the four most recent. *)
Lemma C1_ring_counterexample :
  (capacity ring4 < length six_samples)%nat
  ∧ (advance_read 4 (audioCallback ring4 six_samples)).1 = of_int <$> [4; 5; 6]
  ∧ readPos (advance_read 4 (audioCallback ring4 six_samples)).2
    = writePos (advance_read 4 (audioCallback ring4 six_samples)).2
  ∧ (advance_read 4 (audioCallback ring4 six_samples)).1 ≠ lastn (capacity ring4) six_samples.
Proof.
  split_and!.
  - vm_compute. lia.
  - by vm_compute.
  - by vm_compute.
  - vm_compute. discriminate.
Qed.

(** C9, as the code has it.  While the ring buffer is empty (the cursors
    are equal), K consecutive calls return the same value K times, namely
    [lastSample]; they consume nothing and leave [lastSample] and the
    cursors as they were.  [lastSample] is the sample most recently
    consumed from the buffer, or the initial 0 when none has been consumed
    since construction or the last reset. *)
Theorem C9_underrun_holds_last_sample :
  (∀ (m : WebSDRModule) (rates : list float),
     readPos m = writePos m →
     (pull rates m).1.1 = replicate (length rates) (lastSample m)
     ∧ (pull rates m).1.2 = []
     ∧ lastSample (pull rates m).2 = lastSample m
     ∧ readPos (pull rates m).2 = writePos (pull rates m).2)
  ∧ (∀ (n : nat) (ops : list module_op),
       lastSample (run_module ops [] (newModule n)).2
       = List.last (run_module ops [] (newModule n)).1 fzero).
Proof.
  split.
  - intros m rates. revert m.
    induction rates as [|e rates IH]; intros m Heq; [done|].
    destruct (getResampledAudio_empty e m Heq) as [p Hg].
    simpl. rewrite Hg.
    specialize (IH (set_phase m p) Heq).
    destruct (pull rates (set_phase m p)) as [[ys cs] m2]. simpl in *.
    destruct IH as (-> & -> & -> & ->). done.
  - intros n ops. by apply run_module_last.
Qed.

Lemma C9_underrun_witness :
  (pull [of_int 48000; of_int 48000] ring4).1.1
    = replicate (length [of_int 48000; of_int 48000]) (lastSample ring4)
  ∧ (pull [of_int 48000; of_int 48000] ring4).1.2 = []
  ∧ lastSample (pull [of_int 48000; of_int 48000] ring4).2 = lastSample ring4
  ∧ readPos (pull [of_int 48000; of_int 48000] ring4).2
    = writePos (pull [of_int 48000; of_int 48000] ring4).2.
Proof.
  apply (proj1 C9_underrun_holds_last_sample ring4 [of_int 48000; of_int 48000]).
  reflexivity.
Defined.

(** C9 as stated fails in its last part: after a sample of value 0 has been
    consumed the buffer is empty and every further pull returns 0, although
    a sample was consumed. *)
Lemma C9_underrun_counterexample :
  (run_module silent_history [] (newModule (Z.to_nat 48000))).1 = [fzero]
  ∧ readPos (run_module silent_history [] (newModule (Z.to_nat 48000))).2
    = writePos (run_module silent_history [] (newModule (Z.to_nat 48000))).2
  ∧ (pull [of_int 48000; of_int 48000; of_int 48000]
       (run_module silent_history [] (newModule (Z.to_nat 48000))).2).1.1
    = [fzero; fzero; fzero].
Proof. split_and!; by vm_compute. Qed.

(** *** Bytes *)

Lemma byte_of_ascii_range a : is_byte (byte_of_ascii a).
Proof.
  unfold is_byte, byte_of_ascii. pose proof (N_ascii_bounded a). lia.
Qed.

Lemma bytes_of_string_range s : Forall is_byte (bytes_of_string s).
Proof.
  unfold bytes_of_string. apply Forall_fmap, Forall_forall.
  intros a _. apply byte_of_ascii_range.
Qed.

Lemma bytes_of_string_app s1 s2 :
  bytes_of_string (s1 +:+ s2) = bytes_of_string s1 ++ bytes_of_string s2.
Proof.
  unfold bytes_of_string. rewrite <- fmap_app. f_equal.
  induction s1 as [|a s1 IH]; [done|]. simpl. by rewrite <- IH.
Qed.

Lemma is_prefix_spec p : ∀ l, is_prefix p l = true ↔ ∃ post, l = p ++ post.
Proof.
  induction p as [|a p IH]; intros l; simpl.
  - split; [by exists l|done].
  - destruct l as [|b l]; simpl.
    + split; [done|]. intros [post Hpost]. discriminate.
    + rewrite andb_true_iff, IH, Z.eqb_eq. split.
      * intros [-> [post ->]]. by exists post.
      * intros [post [= -> ->]]. eauto.
Qed.

Lemma contains_spec needle : ∀ hay,
  contains needle hay = true ↔ ∃ pre post, hay = pre ++ needle ++ post.
Proof.
  induction hay as [|b hay IH]; simpl.
  - rewrite is_prefix_spec. split.
    + intros [post Hpost]. by exists [], post.
    + intros (pre & post & Heq). symmetry in Heq.
      apply app_eq_nil in Heq as [-> Heq]. apply app_eq_nil in Heq as [-> ->].
      by exists [].
  - rewrite orb_true_iff, is_prefix_spec, IH. split.
    + intros [[post Hpost]|(pre & post & ->)].
      * by exists [], post.
      * by exists (b :: pre), post.
    + intros ([|c pre] & post & Heq).
      * left. by exists post.
      * right. injection Heq as -> ->. by exists pre, post.
Qed.

Lemma c_str_prefix buffer : ∃ rest, buffer = c_str buffer ++ rest.
Proof.
  induction buffer as [|b buffer [rest IH]]; simpl.
  - by exists [].
  - destruct (b =? 0).
    + by exists (b :: buffer).
    + exists rest. simpl. by rewrite <- IH.
Qed.

(** *** Masking *)

Lemma lxor_byte_range c k : is_byte c → is_byte k → is_byte (Z.lxor c k).
Proof.
  unfold is_byte. intros Hc Hk.
  assert (H : forallb (λ c, forallb (λ k, (0 <=? Z.lxor c k) && (Z.lxor c k <? 256))
                                    (seqZ 0 256)) (seqZ 0 256) = true) by by vm_compute.
  rewrite forallb_forall in H. specialize (H c).
  rewrite forallb_forall in H.
  assert (Hin : ∀ x, 0 ≤ x < 256 → In x (seqZ 0 256)).
  { intros x Hx. apply list_elem_of_In, elem_of_seqZ. lia. }
  specialize (H (Hin c Hc) k (Hin k Hk)). lia.
Qed.

Lemma mask_key_range (i : nat) (key : list Z) :
  Forall is_byte key → is_byte (nth i key 0).
Proof.
  intros Hkey. revert i.
  induction Hkey as [|k key Hk _ IH]; intros [|i]; simpl;
    [unfold is_byte; lia | unfold is_byte; lia | done | apply IH].
Qed.

Lemma mask_range : Forall is_byte mask.
Proof. unfold mask, is_byte. repeat constructor; lia. Qed.

Lemma unmask_mask_payload (data : list Z) :
  Forall is_byte data →
  imap (λ i c, Z.lxor c (nth (i mod 4)%nat mask 0)) (mask_payload data) = data.
Proof.
  intros Hdata. apply list_eq. intros i. unfold mask_payload.
  rewrite !list_lookup_imap. destruct (data !! i) as [c|] eqn:Hc; [|done].
  cbn [fmap option_fmap option_map]. f_equal.
  assert (Hcb : is_byte c) by (eapply Forall_lookup_1; eauto).
  pose proof (mask_key_range (i mod 4) mask mask_range) as Hk.
  pose proof (lxor_byte_range _ _ Hcb Hk) as Hx. unfold is_byte in Hx.
  rewrite Z.mod_small by lia.
  by rewrite Z.lxor_assoc, Z.lxor_nilpotent, Z.lxor_0_r.
Qed.

Lemma length_mask_payload data : length (mask_payload data) = length data.
Proof. unfold mask_payload. apply length_imap. Qed.

Lemma short_length_byte n :
  0 ≤ n < 126 →
  Z.land (Z.lor 0x80 n mod 256) 0x80 = 0x80 ∧ Z.land (Z.lor 0x80 n mod 256) 0x7F = n.
Proof.
  intros Hn.
  assert (H : forallb (λ n, (Z.land (Z.lor 0x80 n mod 256) 0x80 =? 0x80)
                            && (Z.land (Z.lor 0x80 n mod 256) 0x7F =? n))
                      (seqZ 0 126) = true) by by vm_compute.
  rewrite forallb_forall in H. specialize (H n).
  rewrite andb_true_iff, !Z.eqb_eq in H. apply H.
  apply list_elem_of_In, elem_of_seqZ. lia.
Qed.

(** A frame built by [sendWebSocketFrame] is masked with the fixed key, has
    the short length form, and unmasks to the payload it was built from. *)
Lemma unmask_text_frame (data : list Z) :
  Forall is_byte data → (length data < 126)%nat →
  unmask_frame (text_frame data) = Some data.
Proof.
  intros Hdata Hlen. unfold text_frame, mask. simpl.
  destruct (short_length_byte (Z.of_nat (length data))) as [Hm Hl]; [lia|].
  rewrite Hm, Hl, length_mask_payload. simpl.
  rewrite Z.eqb_refl. rewrite (proj2 (Z.ltb_lt _ _)) by lia. simpl.
  f_equal. by apply unmask_mask_payload.
Qed.

Lemma length_bytes_of_string s : length (bytes_of_string s) = String.length s.
Proof.
  unfold bytes_of_string. rewrite length_fmap.
  induction s as [|a s IH]; [done|]. simpl. by rewrite IH.
Qed.

Lemma sendWebSocketFrame_sends data s :
  0 ≤ socketFd s → (String.length data < 126)%nat →
  sendWebSocketFrame data s = (true, do_send (text_frame (bytes_of_string data)) s).
Proof.
  intros Hfd Hlen. unfold sendWebSocketFrame.
  rewrite (proj2 (Z.ltb_ge _ _)) by lia.
  rewrite length_bytes_of_string, (proj2 (Nat.ltb_lt _ _)) by lia. done.
Qed.

Lemma selected_mode_snoc sends bytes :
  selected_mode (sends ++ [bytes]) =
    match unmask_frame bytes ≫= command_mod with
    | Some m => Some m
    | None => selected_mode sends
    end.
Proof. unfold selected_mode. by rewrite foldl_app. Qed.

Lemma setFrequency_sends fixed3 freq s :
  connected s = true → 0 ≤ socketFd s →
  (String.length (fixed3 (freq / of_int 1000)%Qc) ≤ 80)%nat →
  setFrequency fixed3 freq s =
    do_send (text_frame (bytes_of_string
      ("SET mod=am low_cut=-4000 high_cut=4000 freq=" +:+ fixed3 (freq / of_int 1000)%Qc))) s.
Proof.
  intros Hc Hfd Hlen. unfold setFrequency. rewrite Hc. simpl negb. cbv iota.
  rewrite sendWebSocketFrame_sends; [done|done|].
  rewrite <- length_bytes_of_string, bytes_of_string_app, length_app,
    !length_bytes_of_string.
  simpl String.length. lia.
Qed.

Lemma command_mod_setFrequency (x : string) :
  command_mod (bytes_of_string ("SET mod=am low_cut=-4000 high_cut=4000 freq=" +:+ x))
  = Some (bytes_of_string "am").
Proof. rewrite bytes_of_string_app. reflexivity. Qed.

Lemma sendWebSocketFrame_preserves data s :
  connected (sendWebSocketFrame data s).2 = connected s
  ∧ socketFd (sendWebSocketFrame data s).2 = socketFd s
  ∧ receiveThread (sendWebSocketFrame data s).2 = receiveThread s
  ∧ shouldStop (sendWebSocketFrame data s).2 = shouldStop s
  ∧ delivered (sendWebSocketFrame data s).2 = delivered s.
Proof. unfold sendWebSocketFrame. by repeat case_match. Qed.

Lemma setMode_preserves mode s :
  connected (setMode mode s) = connected s ∧ socketFd (setMode mode s) = socketFd s.
Proof.
  unfold setMode. destruct (negb (connected s)); [done|].
  split; apply sendWebSocketFrame_preserves.
Qed.

(** C10.  On a connected client with a valid socket, [setFrequency] sends
    one masked text frame whose payload is the command
    [SET mod=am low_cut=-4000 high_cut=4000 freq=<kHz>]; the command carries
    the token [mod=am], so whatever mode [setMode] selected before, the mode
    the receiver has after the frequency change is AM.  The hypothesis on
    the formatter holds for every binary32 value, whose fixed-point text has
    at most 39 integer digits. *)
Theorem C10_setFrequency_resets_mode (fixed3 : float → string) (freq : float)
    (mode : string) (s : WebSDRClient) :
  connected s = true → 0 ≤ socketFd s →
  (String.length (fixed3 (freq / of_int 1000)%Qc) ≤ 80)%nat →
  let cmd := "SET mod=am low_cut=-4000 high_cut=4000 freq=" +:+ fixed3 (freq / of_int 1000)%Qc in
  (∃ frame, sent (setFrequency fixed3 freq s) = sent s ++ [frame]
            ∧ unmask_frame frame = Some (bytes_of_string cmd))
  ∧ command_mod (bytes_of_string cmd) = Some (bytes_of_string "am")
  ∧ selected_mode (sent (setFrequency fixed3 freq (setMode mode s)))
    = Some (bytes_of_string "am").
Proof.
  intros Hc Hfd Hlen cmd.
  assert (Hcmd : (length (bytes_of_string cmd) < 126)%nat).
  { unfold cmd. rewrite bytes_of_string_app, length_app, !length_bytes_of_string.
    simpl String.length. lia. }
  split_and!.
  - rewrite setFrequency_sends by done. eexists. split; [done|].
    apply unmask_text_frame; [apply bytes_of_string_range|done].
  - apply command_mod_setFrequency.
  - destruct (setMode_preserves mode s) as [Hc' Hfd'].
    rewrite setFrequency_sends by congruence.
    simpl sent. rewrite selected_mode_snoc.
    rewrite unmask_text_frame by (apply bytes_of_string_range || done).
    cbn [mbind option_bind]. by rewrite command_mod_setFrequency.
Qed.

Lemma C10_setFrequency_witness :
  let cmd := "SET mod=am low_cut=-4000 high_cut=4000 freq="
             +:+ fixed3_20m (of_int 14230000 / of_int 1000)%Qc in
  (∃ frame, sent (setFrequency fixed3_20m (of_int 14230000) live) = sent live ++ [frame]
            ∧ unmask_frame frame = Some (bytes_of_string cmd))
  ∧ command_mod (bytes_of_string cmd) = Some (bytes_of_string "am")
  ∧ selected_mode (sent (setFrequency fixed3_20m (of_int 14230000) (setMode "usb" live)))
    = Some (bytes_of_string "am").
Proof.
  apply (C10_setFrequency_resets_mode fixed3_20m (of_int 14230000) "usb" live).
  - reflexivity.
  - vm_compute. discriminate.
  - vm_compute. lia.
Defined.

(** *** PCM decoding *)

Lemma to_int16_range u : -32768 ≤ to_int16 u < 32768.
Proof. unfold to_int16. pose proof (Z.mod_pos_bound (u + 32768) 65536). lia. Qed.

Lemma to_int16_signed v : 0 ≤ v < 65536 → to_int16 v = signed16 v.
Proof.
  intros Hv. unfold to_int16, signed16. case_match.
  - rewrite Z.mod_small; lia.
  - replace (v + 32768) with ((v - 32768) + 1 * 65536) by lia.
    rewrite Z.mod_add, Z.mod_small; lia.
Qed.

Lemma little_endian_pair lo hi :
  is_byte lo → is_byte hi → Z.lor lo (Z.shiftl hi 8) = lo + 256 * hi.
Proof.
  intros Hlo Hhi.
  assert (H : forallb (λ lo, forallb (λ hi, Z.lor lo (Z.shiftl hi 8) =? lo + 256 * hi)
                                     (seqZ 0 256)) (seqZ 0 256) = true) by by vm_compute.
  rewrite forallb_forall in H. specialize (H lo).
  rewrite forallb_forall in H. apply Z.eqb_eq, H.
  all: apply list_elem_of_In, elem_of_seqZ; unfold is_byte in *; lia.
Qed.

Lemma normalize_div v : normalize v = (of_int v / of_int 32768)%Qc.
Proof.
  apply Qc_is_canon. unfold normalize, of_int, Qcdiv, Qcmult, Qcinv, Q2Qc. simpl this.
  rewrite !Qred_correct. unfold Qeq, Qmult, Qinv, inject_Z. simpl. lia.
Qed.

Lemma normalize_range v :
  -32768 ≤ v < 32768 → (- 1 ≤ normalize v)%Qc ∧ (normalize v < 1)%Qc.
Proof.
  intros Hv. unfold Qcle, Qclt, normalize, Q2Qc. simpl this.
  rewrite !Qred_correct. unfold Qle, Qlt. simpl. lia.
Qed.

Lemma pcm_samples_lookup : ∀ (j : nat) (data : list Z) lo hi,
  data !! (2 * j)%nat = Some lo → data !! (2 * j + 1)%nat = Some hi →
  pcm_samples data !! j = Some (normalize (to_int16 (Z.lor lo (Z.shiftl hi 8)))).
Proof.
  induction j as [|j IH]; intros data lo hi Hlo Hhi.
  - destruct data as [|a [|b data]]; simplify_eq/=. done.
  - replace (2 * S j)%nat with (S (S (2 * j))) in Hlo by lia.
    replace (2 * S j + 1)%nat with (S (S (2 * j + 1))) in Hhi by lia.
    destruct data as [|a [|b data]]; [done|done|].
    simpl. by apply IH.
Qed.

Lemma pcm_samples_ind (P : list Z → Prop) :
  P [] → (∀ a, P [a]) → (∀ a b l, P l → P (a :: b :: l)) → ∀ l, P l.
Proof.
  intros H0 H1 H2.
  assert (H : ∀ l, P l ∧ ∀ a, P (a :: l)).
  { induction l as [|b l [IHl IHl']]; [by split|]. split; [apply IHl'|].
    intros a. by apply H2. }
  intros l. apply H.
Qed.

Lemma length_pcm_samples data : length (pcm_samples data) = (length data / 2)%nat.
Proof.
  induction data as [| a | a b l IH] using pcm_samples_ind; [done|done|].
  simpl length. rewrite IH.
  replace (S (S (length l))) with (length l + 1 * 2)%nat by lia.
  rewrite Nat.div_add by lia. lia.
Qed.

Lemma pcm_samples_range data :
  Forall (λ x, (- 1 ≤ x)%Qc ∧ (x < 1)%Qc) (pcm_samples data).
Proof.
  induction data as [| a | a b l IH] using pcm_samples_ind; simpl; try by constructor.
  constructor; [|done]. apply normalize_range, to_int16_range.
Qed.

Lemma pcm_samples_nil data : pcm_samples data = [] ↔ (length data < 2)%nat.
Proof.
  destruct data as [|a [|b data]]; simpl; split; try done; try lia.
Qed.

Lemma is_prefix_false_take data :
  is_prefix MSG_prefix data = false → take 4 data ≠ MSG_prefix.
Proof.
  intros Hp Heq. rewrite <- not_true_iff_false in Hp. apply Hp.
  apply is_prefix_spec. exists (drop 4 data). by rewrite <- Heq, take_drop.
Qed.

(** C5.  A payload of bytes that does not begin with "MSG " is handed to the
    audio callback as one sample per complete pair of bytes: sample [j] is
    the 16-bit word [lo + 256 * hi] of bytes [2j] and [2j+1], read as a
    signed number and divided by 32768, so every sample lies in [-1, 1).
    A payload with no complete pair yields no call.  The binary frame with
    payload 00 40 00 C0 delivers exactly 0.5 and -0.5. *)
Theorem C5_pcm_samples_normalized (data : list Z) (s : WebSDRClient) :
  Forall is_byte data → is_prefix MSG_prefix data = false → hasCallback s = true →
  processAudioPacket data s
    = (if decide (2 ≤ length data)%nat then do_callback (pcm_samples data) s else s)
  ∧ length (pcm_samples data) = (length data / 2)%nat
  ∧ (∀ (j : nat) lo hi,
       data !! (2 * j)%nat = Some lo → data !! (2 * j + 1)%nat = Some hi →
       pcm_samples data !! j
       = Some (of_int (signed16 (lo + 256 * hi)) / of_int 32768)%Qc)
  ∧ Forall (λ x, (- 1 ≤ x)%Qc ∧ (x < 1)%Qc) (pcm_samples data)
  ∧ delivered (receiveLoop [Recv [0x82; 0x04; 0x00; 0x40; 0x00; 0xC0]] live)
    = [[half; (- half)%Qc]].
Proof.
  intros Hdata Hmsg Hcb. split_and!.
  - unfold processAudioPacket.
    rewrite (bool_decide_eq_false_2 (take 4 data = MSG_prefix))
      by by apply is_prefix_false_take.
    rewrite andb_false_r, Hcb, andb_true_r.
    case_decide as Hlen.
    + rewrite bool_decide_eq_false_2; [done|]. rewrite pcm_samples_nil. lia.
    + rewrite bool_decide_eq_true_2; [done|]. rewrite pcm_samples_nil. lia.
  - apply length_pcm_samples.
  - intros j lo hi Hlo Hhi.
    etrans; [by apply pcm_samples_lookup|]. f_equal.
    assert (Hl : is_byte lo) by (eapply Forall_lookup_1; eauto).
    assert (Hh : is_byte hi) by (eapply Forall_lookup_1; eauto).
    rewrite little_endian_pair, to_int16_signed by (unfold is_byte in *; lia || done).
    apply normalize_div.
  - apply pcm_samples_range.
  - vm_compute. do 2 f_equal; [|f_equal]; by apply Qc_is_canon.
Qed.

Lemma C5_pcm_witness :
  processAudioPacket [0x00; 0x40; 0x00; 0xC0] live
    = (if decide (2 ≤ length [0x00; 0x40; 0x00; 0xC0])%nat
       then do_callback (pcm_samples [0x00; 0x40; 0x00; 0xC0]) live else live)
  ∧ length (pcm_samples [0x00; 0x40; 0x00; 0xC0]) = (length [0x00; 0x40; 0x00; 0xC0] / 2)%nat
  ∧ (∀ (j : nat) lo hi,
       [0x00; 0x40; 0x00; 0xC0] !! (2 * j)%nat = Some lo →
       [0x00; 0x40; 0x00; 0xC0] !! (2 * j + 1)%nat = Some hi →
       pcm_samples [0x00; 0x40; 0x00; 0xC0] !! j
       = Some (of_int (signed16 (lo + 256 * hi)) / of_int 32768)%Qc)
  ∧ Forall (λ x, (- 1 ≤ x)%Qc ∧ (x < 1)%Qc) (pcm_samples [0x00; 0x40; 0x00; 0xC0])
  ∧ delivered (receiveLoop [Recv [0x82; 0x04; 0x00; 0x40; 0x00; 0xC0]] live)
    = [[half; (- half)%Qc]].
Proof.
  apply (C5_pcm_samples_normalized [0x00; 0x40; 0x00; 0xC0] live).
  - unfold is_byte. repeat constructor; lia.
  - reflexivity.
  - reflexivity.
Defined.

(** *** The receive loop, one read at a time *)

Lemma receiveLoop_recv bytes rest s :
  shouldStop s = false → 0 ≤ socketFd s →
  (0 < length bytes ≤ Z.to_nat 8192)%nat →
  receiveLoop (Recv bytes :: rest) s
  = (if (on_data bytes s).1 then thread_exit (on_data bytes s).2
     else receiveLoop rest (on_data bytes s).2).
Proof.
  intros Hstop Hfd Hlen. simpl.
  rewrite Hstop, (proj2 (Z.ltb_ge _ _)) by lia. simpl.
  rewrite take_ge by lia.
  rewrite (proj2 (Nat.ltb_lt _ _)) by lia.
  by destruct (on_data bytes s).
Qed.

Lemma processAudioPacket_msg data s :
  (4 < length data)%nat → is_prefix MSG_prefix data = true →
  processAudioPacket data s = s.
Proof.
  intros Hlen Hp. unfold processAudioPacket.
  rewrite (proj2 (Nat.ltb_lt _ _)) by done.
  apply is_prefix_spec in Hp as [post ->].
  rewrite bool_decide_eq_true_2; [done|].
  by rewrite take_app_length' by done.
Qed.

(** C8: the code departs from the claim on the payload that is exactly the
    four bytes "MSG ".  The test [len > 4] lets it through to the decoder,
    which hands two samples (0x534D and 0x2047 over 32768) to the callback. *)
Theorem C8_bare_msg_prefix_is_decoded :
  (length MSG_prefix = 4)%nat
  ∧ is_prefix MSG_prefix MSG_prefix = true
  ∧ processAudioPacket MSG_prefix live
    = do_callback [normalize 21325; normalize 8263] live
  ∧ delivered (receiveLoop [Recv ([0x82; 0x04] ++ MSG_prefix)] live)
    = [[normalize 21325; normalize 8263]].
Proof. split_and!; by vm_compute. Qed.

(** The reply to a ping is the read itself with its first byte replaced. *)
Lemma pong_is_echo b0 b1 payload s :
  Z.land b0 0x0F = 9 → Z.land b1 0x80 = 0 → Z.land b1 0x7F < 126 →
  payload ≠ [] →
  on_data (b0 :: b1 :: payload) s = (false, do_send (0x8A :: b1 :: payload) s).
Proof.
  intros Hop Hm Hl Hp. unfold on_data. simpl length. simpl nth.
  rewrite Hop, Hm. simpl.
  rewrite (proj2 (Z.eqb_neq _ 126)), (proj2 (Z.eqb_neq _ 127)) by lia. simpl.
  unfold on_frame. simpl. destruct payload; done.
Qed.

(** C4: the code departs from the claim on the reply to a ping.  A ping
    carrying "hi" is answered with the bytes 8A 02 68 69: the mask bit of
    the second byte is clear and no mask key follows, so the reply is not a
    masked frame. *)
Theorem C4_pong_reply_is_unmasked :
  sent (receiveLoop [Recv [0x89; 0x02; 0x68; 0x69]] live) = [[0x8A; 0x02; 0x68; 0x69]]
  ∧ Z.land (nth 1 [0x8A; 0x02; 0x68; 0x69] 0) 0x80 = 0
  ∧ take 4 (drop 2 [0x8A; 0x02; 0x68; 0x69]) ≠ mask
  ∧ unmask_frame [0x8A; 0x02; 0x68; 0x69] = None.
Proof. split_and!; by vm_compute. Qed.

(** Command frames do carry the mask bit, the fixed key and the short
    length form. *)
Lemma sendWebSocketFrame_masked data s s' :
  sendWebSocketFrame data s = (true, s') →
  ∃ frame, sent s' = sent s ++ [frame]
           ∧ nth 0 frame 0 = 0x81
           ∧ Z.land (nth 1 frame 0) 0x80 = 0x80
           ∧ Z.land (nth 1 frame 0) 0x7F = Z.of_nat (String.length data)
           ∧ (String.length data < 126)%nat
           ∧ take 4 (drop 2 frame) = mask
           ∧ unmask_frame frame = Some (bytes_of_string data).
Proof.
  unfold sendWebSocketFrame. destruct (socketFd s <? 0); [done|].
  destruct (length (bytes_of_string data) <? 126)%nat eqn:Hlen; [|done].
  apply Nat.ltb_lt in Hlen. intros [= <-].
  exists (text_frame (bytes_of_string data)).
  destruct (short_length_byte (Z.of_nat (length (bytes_of_string data)))) as [Hm Hl];
    [lia|].
  rewrite <- length_bytes_of_string.
  split_and!; try done.
  by apply unmask_text_frame; [apply bytes_of_string_range|].
Qed.

Lemma on_data_header header opcode declared s :
  header_of header opcode declared → on_data header s = (false, s).
Proof.
  intros [b0 b1 Hm Hl|b0 b1 h l Hm Hl]; unfold on_data, on_frame; simpl.
  - rewrite (proj2 (Z.eqb_neq _ 126)), (proj2 (Z.eqb_neq _ 127)) by lia.
    simpl. by rewrite andb_false_r.
  - rewrite Hl. simpl. by rewrite andb_false_r.
Qed.







(** *** Frames with the 64-bit length form *)

Lemma nth_take_lt {A : Type} (i n : nat) (l : list A) (d : A) :
  (i < n)%nat → nth i (take n l) d = nth i l d.
Proof. intros Hi. by rewrite !nth_lookup, lookup_take_lt. Qed.

(** C6, as the code has it.  A read of at least ten bytes whose second byte
    carries the length field 127 is dropped whole: nothing is dispatched,
    nothing is sent, the client state is unchanged (the session stays
    open), and the loop goes on with the next read, which it decodes from
    its first byte.  The loop keeps no position in the byte stream. *)
Theorem C6_long_length_read_is_dropped
    (bytes : list Z) (rest : list io_event) (s : WebSDRClient) :
  shouldStop s = false → 0 ≤ socketFd s →
  (10 ≤ length bytes)%nat → Z.land (nth 1 bytes 0) 0x7F = 127 →
  on_data (take (Z.to_nat 8192) bytes) s = (false, s)
  ∧ receiveLoop (Recv bytes :: rest) s = receiveLoop rest s.
Proof.
  intros Hstop Hfd Hlen H127.
  assert (Hn : (10 ≤ Z.to_nat 8192)%nat) by lia.
  assert (Hod : on_data (take (Z.to_nat 8192) bytes) s = (false, s)).
  { unfold on_data. rewrite length_take.
    rewrite (proj2 (Nat.leb_le 2 _)) by lia.
    rewrite nth_take_lt by lia. rewrite H127.
    change (127 =? 126) with false. change (127 =? 127) with true.
    cbn [andb]. by rewrite (proj2 (Nat.leb_le 10 _)) by lia. }
  split; [done|].
  simpl. rewrite Hstop, (proj2 (Z.ltb_ge _ _)) by lia. simpl.
  rewrite Hod. rewrite length_take.
  by rewrite (proj2 (Nat.ltb_lt 0 _)) by lia.
Qed.

Lemma C6_long_length_witness :
  on_data (take (Z.to_nat 8192) (long_frame ++ next_frame)) live = (false, live)
  ∧ receiveLoop (Recv (long_frame ++ next_frame) :: [Recv next_frame]) live
    = receiveLoop [Recv next_frame] live.
Proof.
  apply (C6_long_length_read_is_dropped (long_frame ++ next_frame) [Recv next_frame] live).
  - reflexivity.
  - vm_compute. discriminate.
  - vm_compute. lia.
  - reflexivity.
Defined.

(** C6 as stated fails.  When the two frames arrive in one read the whole
    read is dropped and the second frame is never decoded, although the
    same frame read on its own delivers its sample; and a read that ends
    inside the extended length (here a Close header and one further byte)
    is not discarded: it is taken as a Close frame and the session ends. *)
Lemma C6_long_length_counterexample :
  delivered (receiveLoop [Recv next_frame] live) = [[half]]
  ∧ delivered (receiveLoop [Recv (long_frame ++ next_frame)] live) = []
  ∧ Z.land (nth 1 [0x88; 0x7F; 0x00] 0) 0x7F = 127
  ∧ connected (receiveLoop [Recv [0x88; 0x7F; 0x00]] live) = false
  ∧ receiveThread (receiveLoop [Recv [0x88; 0x7F; 0x00]] live) = Finished.
Proof.
  split_and!; try by vm_compute.
  vm_compute. do 2 f_equal. by apply Qc_is_canon.
Qed.

(** *** Connecting *)

Lemma contains_c_str_take needle (n : nat) bytes :
  contains needle (c_str (take n bytes)) = true →
  ∃ pre post, bytes = pre ++ needle ++ post.
Proof.
  intros H. apply contains_spec in H as (pre & post & Hc).
  destruct (c_str_prefix (take n bytes)) as [rest Hrest].
  exists pre, (post ++ rest ++ drop n bytes).
  rewrite <- (take_drop n bytes) at 1. rewrite Hrest, Hc.
  by rewrite <- !app_assoc.
Qed.

(** C7.  When the bytes the server answers with do not contain
    "101 Switching Protocols" (or no answer arrives), [connect] on a client
    that is not connected returns false, leaves [isConnected] false and
    starts no receive thread; if the socket had been opened it is closed
    and the descriptor is -1. *)
Theorem C7_failed_upgrade (host : string) (port : Z) (env : server) (s : WebSDRClient) :
  (∀ bytes, response env = Some bytes →
            ¬ ∃ pre post, bytes = pre ++ upgrade_marker ++ post) →
  connected s = false → receiveThread s = NotStarted →
  (connect host port env s).1 = false
  ∧ isConnected (connect host port env s).2 = false
  ∧ receiveThread (connect host port env s).2 = NotStarted
  ∧ (resolves env = true → 0 ≤ socket_result env →
     socketFd (connect host port env s).2 = -1).
Proof.
  intros Hresp Hc Ht. unfold connect, isConnected.
  destruct (resolves env); cbn [negb]; [|by split_and!].
  destruct (socket_result env <? 0) eqn:Hfd; cbn [socketFd set_socketFd].
  { rewrite Hfd. apply Z.ltb_lt in Hfd. cbn. split_and!; try done. lia. }
  rewrite Hfd.
  destruct (accepts env); cbn [negb]; [|by split_and!].
  assert (Hup : match response env with
                | Some bytes =>
                    (0 <? length (take 1023 bytes))%nat
                    && contains upgrade_marker (c_str (take 1023 bytes))
                | None => false
                end = false).
  { destruct (response env) as [bytes|] eqn:Hr; [|done].
    apply andb_false_iff. right. apply not_true_iff_false. intros Hcontains.
    apply contains_c_str_take in Hcontains. by destruct (Hresp bytes). }
  rewrite Hup. by split_and!.
Qed.

Lemma C7_failed_upgrade_witness :
  (connect "kiwisdr.ve6slp.ca" 8073 server_404 newClient).1 = false
  ∧ isConnected (connect "kiwisdr.ve6slp.ca" 8073 server_404 newClient).2 = false
  ∧ receiveThread (connect "kiwisdr.ve6slp.ca" 8073 server_404 newClient).2 = NotStarted
  ∧ (resolves server_404 = true → 0 ≤ socket_result server_404 →
     socketFd (connect "kiwisdr.ve6slp.ca" 8073 server_404 newClient).2 = -1).
Proof.
  apply (C7_failed_upgrade "kiwisdr.ve6slp.ca" 8073 server_404 newClient).
  - intros bytes [= <-] H. apply contains_spec in H. vm_compute in H. discriminate.
  - reflexivity.
  - reflexivity.
Defined.

(** *** Disconnecting *)

Lemma step_remaining l w w' :
  step l w = Some w' →
  remaining w = (if is_disconnect_op l then [l] else []) ++ remaining w'.
Proof.
  destruct w as [s p]. unfold step, remaining, socket_ops, join_ops, after_flags,
    after_socket, thread_exit. simpl.
  destruct (receiveThread s) eqn:Ht, (0 <=? socketFd s) eqn:Hfd, l, p;
    simpl; try done.
  all: try by intros [= <-]; simpl; rewrite ?Ht, ?Hfd.
  all: destruct (fd =? socketFd s) eqn:Heq; [apply Z.eqb_eq in Heq as ->|done].
  all: by intros [= <-]; simpl; rewrite ?Ht.
Qed.

Lemma run_remaining tr : ∀ w w',
  run tr w = Some w' → remaining w = List.filter is_disconnect_op tr ++ remaining w'.
Proof.
  induction tr as [|l tr IH]; intros w w' Hrun; simpl in Hrun.
  - by simplify_eq.
  - destruct (step l w) as [w1|] eqn:Hstep; [|done].
    rewrite (step_remaining _ _ _ Hstep), (IH _ _ Hrun). simpl.
    by destruct (is_disconnect_op l).
Qed.

Lemma step_settled l w w' : step l w = Some w' → settled w → settled w'.
Proof.
  destruct w as [s p]. unfold step, settled, after_flags, after_socket, thread_exit.
  simpl. intros H [Hret Hsock]. revert H.
  destruct (receiveThread s) eqn:Ht, (0 <=? socketFd s) eqn:Hfd, l, p;
    simpl in *; try done.
  all: try (destruct (fd =? socketFd s); [|done]).
  all: intros [= <-]; simpl; rewrite ?Ht.
  all: split; [naive_solver|].
  all: first [by intros [|] | intros _; lia | intros _; apply Hsock; by (left + right)].
Qed.

Lemma run_settled tr : ∀ w w', run tr w = Some w' → settled w → settled w'.
Proof.
  induction tr as [|l tr IH]; intros w w' Hrun Hw; simpl in Hrun.
  - by simplify_eq.
  - destruct (step l w) as [w1|] eqn:Hstep; [|done].
    eapply IH; [done|]. by eapply step_settled.
Qed.

Lemma step_after_return l w :
  pc w = AtReturn → receiveThread (client w) = NotStarted → step l w = None.
Proof.
  destruct w as [s p]. simpl. intros -> Ht. unfold step. simpl. rewrite Ht.
  by destruct l.
Qed.

(** C3, as the code has it.  In every complete execution of [disconnect]
    on a client with an open socket and a joinable receive thread, however
    the steps of the receive thread fall in between, the operations of
    [disconnect] are, in order: raise the stop flag, clear [connected],
    close the socket, invalidate the descriptor, join.  The descriptor is
    invalidated before the join.  The join is the last operation, so when
    [disconnect] has returned the receive thread is gone and no step, in
    particular no write to the ring buffer, is possible any more. *)
Theorem C3_disconnect_order (tr : list label) (s : WebSDRClient) (w' : world) :
  0 ≤ socketFd s → joinable (receiveThread s) = true →
  run tr (mkWorld s AtRaiseStop) = Some w' → pc w' = AtReturn →
  List.filter is_disconnect_op tr
    = [RaiseStop; ClearConnected; CloseSocket (socketFd s); InvalidateSocket; Join]
  ∧ socketFd (client w') < 0
  ∧ receiveThread (client w') = NotStarted
  ∧ ∀ l, step l w' = None.
Proof.
  intros Hfd Hj Hrun Hret.
  pose proof (run_remaining _ _ _ Hrun) as Hrem.
  assert (Hs : settled w').
  { eapply run_settled; [done|]. by split; [|intros [|]]. }
  destruct Hs as [Ht Hsock].
  unfold remaining in Hrem. simpl in Hrem. rewrite Hret in Hrem.
  unfold socket_ops, join_ops in Hrem.
  rewrite (proj2 (Z.leb_le _ _)), Hj, app_nil_r in Hrem by done.
  split_and!; [done|by apply Hsock; right|by apply Ht|].
  intros l. by apply step_after_return; [|apply Ht].
Qed.

Lemma C3_disconnect_witness :
  List.filter is_disconnect_op disconnect_run
    = [RaiseStop; ClearConnected; CloseSocket (socketFd live); InvalidateSocket; Join]
  ∧ socketFd (client (mkWorld (set_receiveThread NotStarted
       (thread_exit (do_callback [half] (set_socketFd (-1)
          (set_connected false (set_shouldStop true live)))))) AtReturn)) < 0
  ∧ receiveThread (client (mkWorld (set_receiveThread NotStarted
       (thread_exit (do_callback [half] (set_socketFd (-1)
          (set_connected false (set_shouldStop true live)))))) AtReturn)) = NotStarted
  ∧ ∀ l, step l (mkWorld (set_receiveThread NotStarted
       (thread_exit (do_callback [half] (set_socketFd (-1)
          (set_connected false (set_shouldStop true live)))))) AtReturn) = None.
Proof.
  apply (C3_disconnect_order disconnect_run live).
  - vm_compute. discriminate.
  - reflexivity.
  - reflexivity.
  - reflexivity.
Defined.

(** C3 as stated fails: after the first four operations of [disconnect] the
    socket handle is already invalid while the receive thread still runs
    and has not been joined; the thread can still hand a batch to the ring
    buffer before it is joined. *)
Lemma C3_disconnect_counterexample :
  option_map (λ w, (socketFd (client w), receiveThread (client w), pc w))
    (run [RaiseStop; ClearConnected; CloseSocket 3; InvalidateSocket]
         (mkWorld live AtRaiseStop))
  = Some (-1, Running, AtJoin)
  ∧ option_map (λ w, (socketFd (client w), delivered (client w), pc w))
      (run [RaiseStop; ClearConnected; CloseSocket 3; InvalidateSocket; RingWrite [half]]
           (mkWorld live AtRaiseStop))
    = Some (-1, [[half]], AtJoin).
Proof. split; reflexivity. Qed.

(** ** Part III. Further properties *)

(** *** Reading advances over a prefix of the unread samples *)

Lemma read_sample_phase m : resamplePhase (read_sample m).2 = resamplePhase m.
Proof. unfold read_sample. by case_decide. Qed.

Lemma read_sample_value m v m1 :
  read_sample m = (Some v, m1) →
  v = nth (readPos m) (audioBuffer m) fzero ∧ lastSample m1 = v.
Proof. unfold read_sample. case_decide; [|done]. by intros [= <- <-]. Qed.

Lemma advance_read_take n : ∀ m,
  wf m →
  ∃ m1, advance_read n m = (take n (unread m), m1)
        ∧ unread m1 = drop n (unread m)
        ∧ wf m1 ∧ capacity m1 = capacity m
        ∧ writePos m1 = writePos m ∧ audioBuffer m1 = audioBuffer m
        ∧ resamplePhase m1 = resamplePhase m.
Proof.
  induction n as [|n IH]; intros m Hm.
  - exists m. by rewrite take_0, drop_0.
  - destruct (decide (readPos m = writePos m)) as [Heq|Hne].
    + exists m. rewrite advance_read_empty, unread_empty by done. by split_and!.
    + destruct (read_sample_unread m Hm Hne)
        as (v & m1 & Hrs & Hu & Hm1 & Hw1 & Hc1 & Hb1).
      destruct (IH m1 Hm1) as (m2 & Hadv & Hu2 & Hm2 & Hc2 & Hw2 & Hb2 & Hp2).
      exists m2. simpl. rewrite Hrs, Hadv, Hu. simpl.
      pose proof (read_sample_phase m) as Hp. rewrite Hrs in Hp. simpl in Hp.
      split_and!; congruence.
Qed.

Lemma unread_head m :
  wf m →
  default (lastSample m) (head (unread m))
  = if decide (readPos m ≠ writePos m)
    then nth (readPos m) (audioBuffer m) fzero else lastSample m.
Proof.
  intros Hm. case_decide as Hne.
  - destruct (read_sample_unread m Hm Hne) as (v & m1 & Hrs & Hu & _).
    apply read_sample_value in Hrs as [-> _]. by rewrite Hu.
  - rewrite unread_empty; [done| |done]. by destruct (decide (readPos m = writePos m)).
Qed.

Lemma unread_set_phase m p : unread (set_phase m p) = unread m.
Proof. done. Qed.

Lemma getResampledAudio_queue (engineRate : float) (m : WebSDRModule) :
  wf m →
  let p := (resamplePhase m + sourceRate / engineRate)%Qc in
  let k := advance_of p in
  let m' := (getResampledAudio engineRate m).2 in
  (getResampledAudio engineRate m).1.2 = take k (unread m)
  ∧ unread m' = drop k (unread m)
  ∧ lastSample m' = List.last (take k (unread m)) (lastSample m)
  ∧ resamplePhase m' = phase_after p
  ∧ (getResampledAudio engineRate m).1.1
    = interpolate (lastSample m') (unread m') (phase_after p)
  ∧ wf m' ∧ capacity m' = capacity m.
Proof.
  intros Hm p k m'.
  assert (Hg : ∃ m1, (if bool_decide (1 ≤ p)%Qc
                      then advance_read (Z.to_nat (truncate p))
                             (set_phase m (p - of_int (truncate p))%Qc)
                      else ([], set_phase m p)) = (take k (unread m), m1)
                     ∧ unread m1 = drop k (unread m) ∧ wf m1
                     ∧ capacity m1 = capacity m
                     ∧ resamplePhase m1 = phase_after p
                     ∧ lastSample m1 = List.last (take k (unread m)) (lastSample m)).
  { unfold k, advance_of, phase_after. case_bool_decide.
    - destruct (advance_read_take (Z.to_nat (truncate p))
                  (set_phase m (p - of_int (truncate p))%Qc) Hm)
        as (m1 & Hadv & Hu & Hm1 & Hc & _ & _ & Hp).
      exists m1. split_and!; try done.
      by apply advance_read_last in Hadv.
    - exists (set_phase m p). by rewrite take_0, drop_0. }
  destruct Hg as (m1 & Hg & Hu & Hm1 & Hc & Hp & Hl).
  unfold m', getResampledAudio. fold p. rewrite Hg. simpl.
  split_and!; try done.
  unfold interpolate. rewrite unread_head by done. by rewrite Hp.
Qed.

(** One call of [getResampledAudio] at a positive engine rate, the
    advanced phase being in the range of [int]: it takes the integer part
    [k] of the advanced phase off the front of the queue of unread samples,
    fewer when the queue is shorter.  The samples consumed are the first
    [k] unread ones, in order, the rest stays unread, [lastSample] becomes
    the last one consumed (it is kept when none is), the phase keeps its
    fractional part, and the value returned interpolates from [lastSample]
    towards the next unread sample without consuming it.  The cursors stay
    inside the vector, whose size does not change. *)
Theorem resampler_consumes_prefix (engineRate : float) (m : WebSDRModule) :
  wf m → (0 < engineRate)%Qc →
  fits_int (resamplePhase m + sourceRate / engineRate)%Qc →
  let p := (resamplePhase m + sourceRate / engineRate)%Qc in
  let k := advance_of p in
  let m' := (getResampledAudio engineRate m).2 in
  (getResampledAudio engineRate m).1.2 = take k (unread m)
  ∧ unread m' = drop k (unread m)
  ∧ lastSample m' = List.last (take k (unread m)) (lastSample m)
  ∧ resamplePhase m' = phase_after p
  ∧ (getResampledAudio engineRate m).1.1
    = interpolate (lastSample m') (unread m') (phase_after p)
  ∧ wf m' ∧ capacity m' = capacity m.
Proof.
  intros Hm _ _. exact (getResampledAudio_queue engineRate m Hm).
Qed.

Lemma resampler_consumes_prefix_witness :
  let p := (resamplePhase ring4_fed + sourceRate / of_int 8000)%Qc in
  let k := advance_of p in
  let m' := (getResampledAudio (of_int 8000) ring4_fed).2 in
  (getResampledAudio (of_int 8000) ring4_fed).1.2 = take k (unread ring4_fed)
  ∧ unread m' = drop k (unread ring4_fed)
  ∧ lastSample m' = List.last (take k (unread ring4_fed)) (lastSample ring4_fed)
  ∧ resamplePhase m' = phase_after p
  ∧ (getResampledAudio (of_int 8000) ring4_fed).1.1
    = interpolate (lastSample m') (unread m') (phase_after p)
  ∧ wf m' ∧ capacity m' = capacity ring4_fed.
Proof.
  apply (resampler_consumes_prefix (of_int 8000) ring4_fed).
  - split; vm_compute; lia.
  - reflexivity.
  - reflexivity.
Defined.

(** *** Phase and interpolation *)

Ltac qc_to_q :=
  unfold Qcle, Qclt in *;
  repeat (progress (unfold Qcminus, Qcplus, Qcmult, Qcopp, of_int, Q2Qc in *;
                    cbn [this] in *));
  repeat rewrite Qred_correct in *.

Lemma truncate_floor (x : float) :
  (0 ≤ x)%Qc →
  (inject_Z (truncate x) <= this x)%Q ∧ (this x < inject_Z (truncate x) + 1)%Q.
Proof.
  intros Hx. unfold truncate. destruct x as [[n d] Hc]. simpl.
  assert (Hn : 0 ≤ n).
  { unfold Qcle, Qle in Hx. simpl in Hx. lia. }
  rewrite Z.quot_div_nonneg by lia.
  change (n `div` Z.pos d) with (Qfloor (n # d)).
  split; [apply Qfloor_le|].
  pose proof (Qlt_floor (n # d)) as H. by rewrite inject_Z_plus in H.
Qed.

Lemma phase_after_range (p : float) :
  (0 ≤ p)%Qc → (0 ≤ phase_after p)%Qc ∧ (phase_after p < 1)%Qc.
Proof.
  intros Hp. unfold phase_after. case_bool_decide as H1.
  - destruct (truncate_floor p Hp) as [Hlo Hhi].
    qc_to_q. split; lra.
  - split; [done|]. by apply Qcnot_le_lt.
Qed.

Lemma interpolate_between (a b p : float) :
  (0 ≤ p)%Qc → (p ≤ 1)%Qc →
  ((a ≤ b)%Qc → (a ≤ a + (b - a) * p)%Qc ∧ (a + (b - a) * p ≤ b)%Qc)
  ∧ ((b ≤ a)%Qc → (b ≤ a + (b - a) * p)%Qc ∧ (a + (b - a) * p ≤ a)%Qc).
Proof.
  intros Hp0 Hp1. split; intros Hab; qc_to_q; split; nra.
Qed.

Lemma advance_read_phase n : ∀ m, resamplePhase (advance_read n m).2 = resamplePhase m.
Proof.
  induction n as [|n IH]; intros m; [done|]. simpl.
  pose proof (read_sample_phase m) as Hp.
  destruct (read_sample m) as [o m1]. simpl in Hp.
  specialize (IH m1). destruct (advance_read n m1) as [l m2]. simpl in *. congruence.
Qed.

Lemma getResampledAudio_phase e m :
  resamplePhase (getResampledAudio e m).2
  = phase_after (resamplePhase m + sourceRate / e)%Qc.
Proof.
  unfold getResampledAudio, phase_after. case_bool_decide; [|done].
  pose proof (advance_read_phase
    (Z.to_nat (truncate (resamplePhase m + sourceRate / e)%Qc))
    (set_phase m (resamplePhase m + sourceRate / e
                  - of_int (truncate (resamplePhase m + sourceRate / e)))%Qc)) as Hp.
  destruct (advance_read _ _) as [l m1]. done.
Qed.

Lemma ratio_positive (e : float) : (0 < e)%Qc → (0 < sourceRate / e)%Qc.
Proof.
  intros He. unfold Qcdiv, Qclt, Qcmult, Qcinv, Q2Qc in *. cbn [this] in *.
  rewrite !Qred_correct. apply Qmult_lt_0_compat; [done|].
  by apply Qinv_lt_0_compat.
Qed.

Lemma getResampledAudio_phase_range e m :
  (0 < e)%Qc → (0 ≤ resamplePhase m)%Qc →
  (0 ≤ resamplePhase (getResampledAudio e m).2)%Qc
  ∧ (resamplePhase (getResampledAudio e m).2 < 1)%Qc.
Proof.
  intros He Hp. rewrite getResampledAudio_phase. apply phase_after_range.
  pose proof (ratio_positive e He) as Hr. qc_to_q. lra.
Qed.

Lemma wf_getResampledAudio e m :
  wf m → wf (getResampledAudio e m).2 ∧ capacity (getResampledAudio e m).2 = capacity m.
Proof. intros Hm. by destruct (getResampledAudio_queue e m Hm) as (_&_&_&_&_&?&?). Qed.

Lemma wf_newModule n : (0 < n)%nat → wf (newModule n) ∧ capacity (newModule n) = n.
Proof. intros Hn. unfold wf, capacity, newModule. simpl. rewrite length_replicate. lia. Qed.

Lemma run_module_invariant ops : ∀ log m,
  engine_rates ops → wf m →
  (0 ≤ resamplePhase m)%Qc ∧ (resamplePhase m < 1)%Qc →
  let m' := (run_module ops log m).2 in
  wf m' ∧ capacity m' = capacity m
  ∧ (0 ≤ resamplePhase m')%Qc ∧ (resamplePhase m' < 1)%Qc.
Proof.
  induction ops as [|[xs|e|] ops IH]; intros log m Hops Hm [Hp0 Hp1]; simpl.
  - by split_and!.
  - inversion_clear Hops as [|?? _ Hops'].
    rewrite <- (capacity_audioCallback xs m). apply IH; [done| |].
    + by apply wf_audioCallback.
    + clear -Hp0 Hp1. revert m Hp0 Hp1.
      induction xs as [|x xs IHx]; intros m Hp0 Hp1; [done|].
      by apply (IHx (write_sample m x)).
  - inversion_clear Hops as [|?? He Hops']. destruct He as [He _].
    destruct (wf_getResampledAudio e m Hm) as [Hm1 Hc].
    pose proof (getResampledAudio_phase_range e m He Hp0) as Hp.
    destruct (getResampledAudio e m) as [[y c] m1]. simpl in *.
    rewrite <- Hc. by apply IH.
  - inversion_clear Hops as [|?? _ Hops'].
    assert (Hm1 : wf (onReset m) ∧ capacity (onReset m) = capacity m).
    { destruct Hm as [Hr Hw]. unfold wf, capacity, onReset in *. simpl.
      rewrite length_replicate. lia. }
    destruct Hm1 as [Hm1 Hc]. rewrite <- Hc. by apply IH.
Qed.

(** Invariants of the module over every history of audio callbacks,
    pulls and resets, from construction with a non-empty buffer, the engine
    rates being positive with a rate ratio in the range of [int]: both
    cursors stay inside the vector, the vector keeps its size, fewer
    samples than slots are unread, and the resampling phase stays in
    [0, 1). *)
Theorem module_invariants (n : nat) (ops : list module_op) :
  (0 < n)%nat → engine_rates ops →
  let m := (run_module ops [] (newModule n)).2 in
  wf m ∧ capacity m = n ∧ (length (unread m) < n)%nat
  ∧ (0 ≤ resamplePhase m)%Qc ∧ (resamplePhase m < 1)%Qc.
Proof.
  intros Hn Hops m.
  destruct (wf_newModule n Hn) as [Hwf Hcap].
  destruct (run_module_invariant ops [] (newModule n) Hops Hwf) as (Hm & Hc & Hp0 & Hp1).
  { by split. }
  fold m in Hm, Hc, Hp0, Hp1. rewrite Hcap in Hc.
  split_and!; try done. rewrite <- Hc. by apply length_unread.
Qed.

Lemma module_invariants_witness :
  let m := (run_module module_history [] (newModule 4)).2 in
  wf m ∧ capacity m = 4%nat ∧ (length (unread m) < 4)%nat
  ∧ (0 ≤ resamplePhase m)%Qc ∧ (resamplePhase m < 1)%Qc.
Proof.
  apply (module_invariants 4 module_history).
  - lia.
  - unfold engine_rates, module_history.
    repeat constructor; vm_compute; discriminate.
Defined.

Lemma last_Forall {A : Type} (P : A → Prop) (l : list A) (d : A) :
  Forall P l → P d → P (List.last l d).
Proof.
  intros Hl Hd. induction Hl as [|x l Hx Hl IH]; [done|].
  destruct l; [done|]. exact IH.
Qed.

Lemma interpolate_within lo hi a b p :
  (0 ≤ p)%Qc → (p ≤ 1)%Qc → within lo hi a → within lo hi b →
  within lo hi (a + (b - a) * p)%Qc.
Proof.
  intros Hp0 Hp1 [Ha0 Ha1] [Hb0 Hb1].
  destruct (interpolate_between a b p Hp0 Hp1) as [Hab Hba].
  destruct (Qclt_le_dec a b) as [Hlt|Hle].
  - destruct (Hab (Qclt_le_weak _ _ Hlt)) as [H1 H2].
    split; [by apply Qcle_trans with a|by apply Qcle_trans with b].
  - destruct (Hba Hle) as [H1 H2].
    split; [by apply Qcle_trans with b|by apply Qcle_trans with a].
Qed.

(** The resampler never overshoots: when the last consumed sample and
    all unread samples lie between [lo] and [hi], so does the value
    returned by [getResampledAudio] at a positive engine rate with the
    advanced phase in the range of [int], and so do the last consumed
    sample and the unread samples afterwards. *)
Theorem resampler_output_within (lo hi engineRate : float) (m : WebSDRModule) :
  wf m → (0 < engineRate)%Qc → (0 ≤ resamplePhase m)%Qc →
  fits_int (resamplePhase m + sourceRate / engineRate)%Qc →
  within lo hi (lastSample m) → Forall (within lo hi) (unread m) →
  within lo hi (getResampledAudio engineRate m).1.1
  ∧ within lo hi (lastSample (getResampledAudio engineRate m).2)
  ∧ Forall (within lo hi) (unread (getResampledAudio engineRate m).2).
Proof.
  intros Hm He Hp _ Hl Hu.
  destruct (getResampledAudio_queue engineRate m Hm) as (_ & Hu' & Hl' & Hp' & Hout & _).
  cbv zeta in *.
  assert (Hl2 : within lo hi (lastSample (getResampledAudio engineRate m).2)).
  { rewrite Hl'. apply last_Forall; [by apply Forall_take|done]. }
  assert (Hu2 : Forall (within lo hi) (unread (getResampledAudio engineRate m).2)).
  { rewrite Hu'. by apply Forall_drop. }
  split_and!; try done.
  rewrite Hout. unfold interpolate.
  destruct (getResampledAudio_phase_range engineRate m He Hp) as [Hp0 Hp1].
  rewrite Hp' in Hp0, Hp1.
  apply interpolate_within; [done|by apply Qclt_le_weak|done|].
  destruct (unread (getResampledAudio engineRate m).2) as [|x q]; [done|].
  by inversion Hu2.
Qed.

Lemma resampler_output_within_witness :
  within fzero (of_int 2) (getResampledAudio (of_int 44100) ring4_fed).1.1
  ∧ within fzero (of_int 2) (lastSample (getResampledAudio (of_int 44100) ring4_fed).2)
  ∧ Forall (within fzero (of_int 2))
      (unread (getResampledAudio (of_int 44100) ring4_fed).2).
Proof.
  apply (resampler_output_within fzero (of_int 2) (of_int 44100) ring4_fed).
  - split; vm_compute; lia.
  - reflexivity.
  - vm_compute. discriminate.
  - reflexivity.
  - split; vm_compute; discriminate.
  - change (Forall (within fzero (of_int 2)) [of_int 1; of_int 2]).
    repeat constructor; vm_compute; discriminate.
Defined.

(** The audio callback appends to the queue of unread samples: when the
    batch fits (unread plus new samples below the capacity) nothing is lost
    and the order is kept; otherwise the oldest samples are dropped and the
    newest [capacity - 1] remain.  The cursors stay inside the vector and
    its size does not change. *)
Theorem ring_is_bounded_queue (m : WebSDRModule) (xs : list float) :
  wf m →
  unread (audioCallback m xs) = lastn (capacity m - 1) (unread m ++ xs)
  ∧ wf (audioCallback m xs)
  ∧ capacity (audioCallback m xs) = capacity m
  ∧ ((length (unread m) + length xs < capacity m)%nat →
     unread (audioCallback m xs) = unread m ++ xs).
Proof.
  intros Hm. pose proof (unread_audioCallback xs m Hm) as Hu.
  split_and!; [done|by apply wf_audioCallback|apply capacity_audioCallback|].
  intros Hfit. rewrite Hu. apply lastn_all. rewrite length_app. lia.
Qed.

Lemma ring_is_bounded_queue_witness :
  unread (audioCallback ring4 six_samples)
    = lastn (capacity ring4 - 1) (unread ring4 ++ six_samples)
  ∧ wf (audioCallback ring4 six_samples)
  ∧ capacity (audioCallback ring4 six_samples) = capacity ring4
  ∧ ((length (unread ring4) + length six_samples < capacity ring4)%nat →
     unread (audioCallback ring4 six_samples) = unread ring4 ++ six_samples).
Proof.
  apply (ring_is_bounded_queue ring4 six_samples).
  split; vm_compute; lia.
Defined.

Lemma unit_ratio : (sourceRate / sourceRate)%Qc = 1%Qc.
Proof. by apply Qc_is_canon. Qed.

Lemma interpolate_zero (a : Qc) (q : list Qc) : interpolate a q fzero = a.
Proof.
  unfold interpolate, fzero.
  change ((a + (default a (head q) - a) * 0)%Qc = a :> Qc). ring.
Qed.

Lemma advance_of_one : advance_of 1%Qc = 1%nat.
Proof. unfold advance_of. by rewrite bool_decide_eq_true_2 by apply Qcle_refl. Qed.

Lemma phase_after_one : phase_after 1%Qc = fzero.
Proof.
  unfold phase_after. rewrite bool_decide_eq_true_2 by apply Qcle_refl.
  by apply Qc_is_canon.
Qed.

Lemma pull_source_rate (j : nat) : ∀ m,
  wf m → resamplePhase m = fzero → (j ≤ length (unread m))%nat →
  (pull (replicate j sourceRate) m).1.1 = take j (unread m)
  ∧ (pull (replicate j sourceRate) m).1.2 = take j (unread m)
  ∧ unread (pull (replicate j sourceRate) m).2 = drop j (unread m).
Proof.
  induction j as [|j IH]; intros m Hm Hp Hj.
  - by rewrite take_0, drop_0.
  - destruct (getResampledAudio_queue sourceRate m Hm)
      as (Hc & Hu & Hl & Hp' & Hout & Hm' & _).
    cbv zeta in *. rewrite Hp, unit_ratio in *.
    change (fzero + 1)%Qc with (0 + 1)%Qc in *.
    rewrite (Qcplus_0_l 1) in *. rewrite advance_of_one, phase_after_one in *.
    destruct (unread m) as [|x q] eqn:Hq; [simpl in Hj; lia|].
    change (take 1 (x :: q)) with [x] in *. change (drop 1 (x :: q)) with q in *.
    simpl in Hl, Hj.
    assert (Hy : (getResampledAudio sourceRate m).1.1 = x).
    { rewrite Hout, Hl. apply interpolate_zero. }
    destruct (IH (getResampledAudio sourceRate m).2 Hm' Hp') as (H1 & H2 & H3).
    { rewrite Hu. lia. }
    simpl. destruct (getResampledAudio sourceRate m) as [[y c] m1]. simpl in *.
    destruct (pull (replicate j sourceRate) m1) as [[ys cs] m2]. simpl in *.
    rewrite Hu in H1, H2, H3. by rewrite Hy, H1, H2, H3, Hc.
Qed.

(** What is written is what comes out: a batch shorter than the capacity
    written into an empty ring with phase 0 and then pulled at the source
    rate, once per sample, is returned sample for sample, and the ring is
    empty again. *)
Theorem write_then_pull_roundtrip (m : WebSDRModule) (xs : list float) :
  wf m → readPos m = writePos m → resamplePhase m = fzero →
  (length xs < capacity m)%nat →
  (pull (replicate (length xs) sourceRate) (audioCallback m xs)).1.1 = xs
  ∧ unread (pull (replicate (length xs) sourceRate) (audioCallback m xs)).2 = [].
Proof.
  intros Hm Hrw Hp Hlen.
  pose proof (wf_audioCallback xs m Hm) as Hwf.
  assert (Hfit : unread (audioCallback m xs) = xs).
  { rewrite unread_audioCallback, unread_empty by done.
    apply lastn_all. simpl. lia. }
  destruct (pull_source_rate (length xs) (audioCallback m xs)) as (H1 & _ & H3).
  - done.
  - clear -Hp. revert m Hp. induction xs as [|x xs IH]; intros m Hp; [done|].
    by apply (IH (write_sample m x)).
  - by rewrite Hfit.
  - rewrite H1, H3, Hfit. by rewrite take_ge, drop_ge.
Qed.

Lemma write_then_pull_roundtrip_witness :
  (pull (replicate (length (of_int <$> [1; 2; 3])) sourceRate)
     (audioCallback ring4 (of_int <$> [1; 2; 3]))).1.1 = of_int <$> [1; 2; 3]
  ∧ unread (pull (replicate (length (of_int <$> [1; 2; 3])) sourceRate)
              (audioCallback ring4 (of_int <$> [1; 2; 3]))).2 = [].
Proof.
  apply (write_then_pull_roundtrip ring4 (of_int <$> [1; 2; 3])).
  - split; vm_compute; lia.
  - reflexivity.
  - reflexivity.
  - vm_compute. lia.
Defined.

(** *** Command frames *)

Lemma length_text_frame data : length (text_frame data) = (6 + length data)%nat.
Proof. unfold text_frame, mask. simpl. by rewrite length_mask_payload. Qed.

Lemma commands_read_snoc sends bytes :
  commands_read (sends ++ [bytes])
  = commands_read sends ++ from_option (λ c, [c]) [] (unmask_frame bytes).
Proof.
  unfold commands_read. rewrite omap_app. simpl. by destruct (unmask_frame bytes).
Qed.

Lemma selected_value_snoc key sends bytes :
  selected_value key (sends ++ [bytes]) =
    match unmask_frame bytes ≫= command_value key with
    | Some v => Some v
    | None => selected_value key sends
    end.
Proof. unfold selected_value. by rewrite foldl_app. Qed.

(** [sendWebSocketFrame] on an open socket with a command shorter than 126
    bytes hands exactly one frame to [send]: the frame is six bytes longer
    than the command, and a receiver that removes the mask reads the
    command back unchanged; nothing else of the client changes.  With the
    socket closed, or a command of 126 bytes or more, it returns false
    before anything is assembled: the client is unchanged and nothing is
    handed to [send]. *)
Theorem sendWebSocketFrame_roundtrip (data : string) (s : WebSDRClient) :
  (0 ≤ socketFd s → (String.length data < 126)%nat →
   ∃ frame, (sendWebSocketFrame data s).2 = do_send frame s
            ∧ sent (sendWebSocketFrame data s).2 = sent s ++ [frame]
            ∧ length frame = (6 + String.length data)%nat
            ∧ unmask_frame frame = Some (bytes_of_string data))
  ∧ (socketFd s < 0 ∨ (126 ≤ String.length data)%nat →
     sendWebSocketFrame data s = (false, s)).
Proof.
  unfold sendWebSocketFrame. rewrite length_bytes_of_string. split.
  - intros Hfd Hlen.
    rewrite (proj2 (Z.ltb_ge _ _)), (proj2 (Nat.ltb_lt _ _)) by done.
    exists (text_frame (bytes_of_string data)).
    split_and!; [done|done|by rewrite length_text_frame, length_bytes_of_string|].
    apply unmask_text_frame; [apply bytes_of_string_range|].
    by rewrite length_bytes_of_string.
  - intros [Hfd|Hlen].
    + by rewrite (proj2 (Z.ltb_lt _ _)) by done.
    + rewrite (proj2 (Nat.ltb_ge _ _)) by done. by destruct (socketFd s <? 0).
Qed.

Lemma sendWebSocketFrame_roundtrip_witness :
  ∃ frame, (sendWebSocketFrame "SET keepalive" live).2 = do_send frame live
           ∧ sent (sendWebSocketFrame "SET keepalive" live).2 = sent live ++ [frame]
           ∧ length frame = (6 + String.length "SET keepalive")%nat
           ∧ unmask_frame frame = Some (bytes_of_string "SET keepalive").
Proof.
  apply (proj1 (sendWebSocketFrame_roundtrip "SET keepalive" live)).
  - vm_compute. discriminate.
  - vm_compute. lia.
Defined.

(** *** Tokens *)

Lemma tokens_from_word (w : list Z) : ∀ cur,
  Forall (λ c, c ≠ 32) w →
  (∀ rest, tokens_from cur (w ++ 32 :: rest) = (reverse cur ++ w) :: tokens_from [] rest)
  ∧ tokens_from cur w = [reverse cur ++ w].
Proof.
  induction w as [|c w IH]; intros cur Hw.
  - split; [intros rest|]; simpl; by rewrite app_nil_r.
  - inversion_clear Hw as [|?? Hc Hw'].
    destruct (IH (c :: cur) Hw') as [IH1 IH2].
    simpl. rewrite (proj2 (Z.eqb_neq c 32)) by done.
    split; [intros rest; rewrite IH1|rewrite IH2];
      by rewrite reverse_cons, <- app_assoc.
Qed.

(** *** [setMode] *)

Lemma setMode_sends mode s :
  connected s = true → 0 ≤ socketFd s →
  setMode mode s =
    do_send (text_frame (bytes_of_string
      ("SET mod=" +:+ kiwi_of mode +:+ " low_cut=-4000 high_cut=4000"))) s.
Proof.
  intros Hc Hfd. unfold setMode. rewrite Hc. cbn [negb].
  assert (Hk : (if String.eqb mode "usb" then "usb"
                else if String.eqb mode "lsb" then "lsb"
                else if String.eqb mode "fm" then "nbfm"
                else if String.eqb mode "cw" then "cw" else "am") = kiwi_of mode).
  { unfold kiwi_of, kiwi_table. cbn [assoc]. rewrite !(String.eqb_sym mode).
    by destruct (String.eqb "usb" mode), (String.eqb "lsb" mode),
         (String.eqb "fm" mode), (String.eqb "cw" mode). }
  rewrite Hk.
  assert (Hlen : (String.length ("SET mod=" +:+ kiwi_of mode
                                 +:+ " low_cut=-4000 high_cut=4000") < 126)%nat).
  { rewrite <- Hk.
    destruct (String.eqb mode "usb"), (String.eqb mode "lsb"),
      (String.eqb mode "fm"), (String.eqb mode "cw"); simpl; lia. }
  by rewrite sendWebSocketFrame_sends.
Qed.

Lemma kiwi_of_cases mode :
  kiwi_of mode ∈ ["usb"; "lsb"; "nbfm"; "cw"; "am"].
Proof.
  unfold kiwi_of, kiwi_table. cbn [assoc].
  destruct (String.eqb "usb" mode), (String.eqb "lsb" mode),
    (String.eqb "fm" mode), (String.eqb "cw" mode); cbn [default from_option id];
    apply list_elem_of_In; simpl; auto 10.
Qed.

Lemma kiwi_command_fields (k : string) :
  k ∈ ["usb"; "lsb"; "nbfm"; "cw"; "am"] →
  let cmd := bytes_of_string ("SET mod=" +:+ k +:+ " low_cut=-4000 high_cut=4000") in
  (length cmd < 126)%nat
  ∧ command_mod cmd = Some (bytes_of_string k)
  ∧ command_value "low_cut=" cmd = Some (bytes_of_string "-4000")
  ∧ command_value "high_cut=" cmd = Some (bytes_of_string "4000").
Proof.
  intros Hk. apply list_elem_of_In in Hk. simpl in Hk.
  destruct Hk as [<-|[<-|[<-|[<-|[<-|[]]]]]]; cbv zeta;
    (split_and!; [vm_compute; lia|by vm_compute..]).
Qed.

(** [setMode] on a connected client sends one command, which a receiver
    reads as [SET mod=<m> low_cut=-4000 high_cut=4000] and which makes <m>
    the mode in force.  <m> is always one of usb, lsb, nbfm, cw and am: fm
    is sent as nbfm, and every name other than the four known ones is sent
    as am. *)
Theorem setMode_selects_kiwi_mode (mode : string) (s : WebSDRClient) :
  connected s = true → 0 ≤ socketFd s →
  commands_read (sent (setMode mode s))
    = commands_read (sent s)
      ++ [bytes_of_string ("SET mod=" +:+ kiwi_of mode +:+ " low_cut=-4000 high_cut=4000")]
  ∧ selected_mode (sent (setMode mode s)) = Some (bytes_of_string (kiwi_of mode))
  ∧ kiwi_of mode ∈ ["usb"; "lsb"; "nbfm"; "cw"; "am"]
  ∧ kiwi_of "fm" = "nbfm"
  ∧ (mode ∉ ["usb"; "lsb"; "fm"; "cw"] → kiwi_of mode = "am").
Proof.
  intros Hc Hfd.
  destruct (kiwi_command_fields (kiwi_of mode) (kiwi_of_cases mode))
    as (Hlen & Hmod & _).
  rewrite setMode_sends by done. cbn [sent do_send].
  rewrite commands_read_snoc, selected_mode_snoc.
  rewrite unmask_text_frame by (apply bytes_of_string_range || done).
  cbn [from_option mbind option_bind]. rewrite Hmod.
  split_and!; [done|done|apply kiwi_of_cases|done|].
  intros Hnot. unfold kiwi_of, kiwi_table. cbn [assoc].
  assert (Hne : ∀ k, k ∈ ["usb"; "lsb"; "fm"; "cw"] → String.eqb k mode = false).
  { intros k Hk. apply String.eqb_neq. by intros ->. }
  rewrite !Hne; [done|..]; apply list_elem_of_In; simpl; auto.
Qed.

Lemma setMode_selects_kiwi_mode_witness :
  commands_read (sent (setMode "fm" live))
    = commands_read (sent live)
      ++ [bytes_of_string ("SET mod=" +:+ kiwi_of "fm" +:+ " low_cut=-4000 high_cut=4000")]
  ∧ selected_mode (sent (setMode "fm" live)) = Some (bytes_of_string (kiwi_of "fm"))
  ∧ kiwi_of "fm" ∈ ["usb"; "lsb"; "nbfm"; "cw"; "am"]
  ∧ kiwi_of "fm" = "nbfm"
  ∧ ("fm" ∉ ["usb"; "lsb"; "fm"; "cw"] → kiwi_of "fm" = "am").
Proof.
  apply (setMode_selects_kiwi_mode "fm" live).
  - reflexivity.
  - vm_compute. discriminate.
Defined.

(** *** [setBandwidth] *)

Lemma setBandwidth_sends show bw s :
  connected s = true → 0 ≤ socketFd s →
  (String.length (show (- (bw / of_int 2))%Qc)
   + String.length (show (bw / of_int 2)%Qc) ≤ 100)%nat →
  setBandwidth show bw s =
    do_send (text_frame (bytes_of_string
      ("SET low_cut=" +:+ show (- (bw / of_int 2))%Qc
       +:+ " high_cut=" +:+ show (bw / of_int 2)%Qc))) s.
Proof.
  intros Hc Hfd Hlen. unfold setBandwidth. rewrite Hc. cbn [negb].
  rewrite sendWebSocketFrame_sends; [done|done|].
  rewrite <- length_bytes_of_string, !bytes_of_string_app, !length_app,
    !length_bytes_of_string.
  simpl String.length. lia.
Qed.

Lemma setBandwidth_preserves show bw s :
  connected (setBandwidth show bw s) = connected s
  ∧ socketFd (setBandwidth show bw s) = socketFd s.
Proof.
  unfold setBandwidth. destruct (negb (connected s)); [done|].
  split; apply sendWebSocketFrame_preserves.
Qed.

Lemma bandwidth_command_fields (lo hi : string) :
  no_space lo → no_space hi →
  let cmd := bytes_of_string ("SET low_cut=" +:+ lo +:+ " high_cut=" +:+ hi) in
  command_mod cmd = None
  ∧ command_value "low_cut=" cmd = Some (bytes_of_string lo)
  ∧ command_value "high_cut=" cmd = Some (bytes_of_string hi).
Proof.
  intros Hlo Hhi cmd.
  assert (Ht : tokens_from [] cmd
               = [bytes_of_string "SET";
                  bytes_of_string "low_cut=" ++ bytes_of_string lo;
                  bytes_of_string "high_cut=" ++ bytes_of_string hi]).
  { unfold cmd. rewrite !bytes_of_string_app.
    change (bytes_of_string "SET low_cut=")
      with (bytes_of_string "SET" ++ 32 :: bytes_of_string "low_cut=").
    change (bytes_of_string " high_cut=") with (32 :: bytes_of_string "high_cut=").
    rewrite <- !app_assoc. cbn [app].
    assert (H1 : Forall (λ c, c ≠ 32) (bytes_of_string "SET"))
      by (repeat constructor; by vm_compute).
    assert (H2 : Forall (λ c, c ≠ 32) (bytes_of_string "low_cut=" ++ bytes_of_string lo))
      by (apply Forall_app; split; [repeat constructor; by vm_compute|done]).
    assert (H3 : Forall (λ c, c ≠ 32) (bytes_of_string "high_cut=" ++ bytes_of_string hi))
      by (apply Forall_app; split; [repeat constructor; by vm_compute|done]).
    destruct (tokens_from_word _ [] H1) as [T1 _].
    destruct (tokens_from_word _ [] H2) as [T2 _].
    destruct (tokens_from_word _ [] H3) as [_ T3].
    rewrite T1, (app_assoc (bytes_of_string "low_cut=")), T2, T3. done. }
  unfold command_mod, command_value. rewrite Ht. by split_and!.
Qed.

(** [setBandwidth] with a bandwidth other than zero, on a connected
    client, sends one command that sets the two passband edges to minus
    and plus half the bandwidth, as the stream library writes them, and
    leaves the mode in force as it was.  The written numbers are taken to
    hold no space and to fit a short frame. *)
Theorem setBandwidth_sets_passband (show : float → string) (bw : float)
    (s : WebSDRClient) :
  bw ≠ fzero →
  connected s = true → 0 ≤ socketFd s →
  (String.length (show (- (bw / of_int 2))%Qc)
   + String.length (show (bw / of_int 2)%Qc) ≤ 100)%nat →
  no_space (show (- (bw / of_int 2))%Qc) → no_space (show (bw / of_int 2)%Qc) →
  let s' := setBandwidth show bw s in
  commands_read (sent s')
    = commands_read (sent s)
      ++ [bytes_of_string ("SET low_cut=" +:+ show (- (bw / of_int 2))%Qc
                           +:+ " high_cut=" +:+ show (bw / of_int 2)%Qc)]
  ∧ selected_value "low_cut=" (sent s')
    = Some (bytes_of_string (show (- (bw / of_int 2))%Qc))
  ∧ selected_value "high_cut=" (sent s')
    = Some (bytes_of_string (show (bw / of_int 2)%Qc))
  ∧ selected_mode (sent s') = selected_mode (sent s).
Proof.
  intros _ Hc Hfd Hlen Hlo Hhi s'. unfold s'.
  destruct (bandwidth_command_fields _ _ Hlo Hhi) as (Hm & Hl & Hh).
  rewrite setBandwidth_sends by done. cbn [sent do_send].
  rewrite commands_read_snoc, !selected_value_snoc, selected_mode_snoc.
  rewrite unmask_text_frame.
  - cbn [from_option mbind option_bind]. by rewrite Hm, Hl, Hh.
  - apply bytes_of_string_range.
  - rewrite !bytes_of_string_app, !length_app, !length_bytes_of_string.
    simpl String.length. lia.
Qed.

Lemma setBandwidth_sets_passband_witness :
  let s' := setBandwidth show_3000 (of_int 3000) live in
  commands_read (sent s')
    = commands_read (sent live)
      ++ [bytes_of_string ("SET low_cut=" +:+ show_3000 (- (of_int 3000 / of_int 2))%Qc
                           +:+ " high_cut=" +:+ show_3000 (of_int 3000 / of_int 2)%Qc)]
  ∧ selected_value "low_cut=" (sent s')
    = Some (bytes_of_string (show_3000 (- (of_int 3000 / of_int 2))%Qc))
  ∧ selected_value "high_cut=" (sent s')
    = Some (bytes_of_string (show_3000 (of_int 3000 / of_int 2)%Qc))
  ∧ selected_mode (sent s') = selected_mode (sent live).
Proof.
  apply (setBandwidth_sets_passband show_3000 (of_int 3000) live).
  - intros H. apply (f_equal (λ q : Qc, Qnum q)) in H. vm_compute in H.
    discriminate H.
  - reflexivity.
  - vm_compute. discriminate.
  - vm_compute. lia.
  - change (Forall (λ c, c ≠ 32) (bytes_of_string "-1500")).
    repeat constructor; vm_compute; discriminate.
  - change (Forall (λ c, c ≠ 32) (bytes_of_string "1500")).
    repeat constructor; vm_compute; discriminate.
Defined.

Lemma frequency_command_fields (x : string) :
  let cmd := bytes_of_string ("SET mod=am low_cut=-4000 high_cut=4000 freq=" +:+ x) in
  command_value "low_cut=" cmd = Some (bytes_of_string "-4000")
  ∧ command_value "high_cut=" cmd = Some (bytes_of_string "4000").
Proof. cbv zeta. rewrite bytes_of_string_app. by split. Qed.

(** A bandwidth set with [setBandwidth] does not survive the next tuning
    command: after [setMode] or [setFrequency] the passband edges in force
    at the receiver are -4000 and 4000 again. *)
Theorem tuning_resets_passband (fixed3 show : float → string) (bw freq : float)
    (mode : string) (s : WebSDRClient) :
  connected s = true → 0 ≤ socketFd s →
  (String.length (fixed3 (freq / of_int 1000)%Qc) ≤ 80)%nat →
  let s1 := setBandwidth show bw s in
  selected_value "low_cut=" (sent (setMode mode s1)) = Some (bytes_of_string "-4000")
  ∧ selected_value "high_cut=" (sent (setMode mode s1)) = Some (bytes_of_string "4000")
  ∧ selected_value "low_cut=" (sent (setFrequency fixed3 freq s1))
    = Some (bytes_of_string "-4000")
  ∧ selected_value "high_cut=" (sent (setFrequency fixed3 freq s1))
    = Some (bytes_of_string "4000").
Proof.
  intros Hc Hfd Hlen s1.
  destruct (setBandwidth_preserves show bw s) as [Hc1 Hfd1]. fold s1 in Hc1, Hfd1.
  destruct (kiwi_command_fields (kiwi_of mode) (kiwi_of_cases mode))
    as (Hk & _ & Hl & Hh).
  destruct (frequency_command_fields (fixed3 (freq / of_int 1000)%Qc)) as [Hfl Hfh].
  rewrite setMode_sends, setFrequency_sends by congruence. cbn [sent do_send].
  rewrite !selected_value_snoc.
  rewrite !unmask_text_frame; try apply bytes_of_string_range; try done.
  - cbn [mbind option_bind]. by rewrite Hl, Hh, Hfl, Hfh.
  - rewrite bytes_of_string_app, length_app, !length_bytes_of_string.
    simpl String.length. lia.
Qed.

Lemma tuning_resets_passband_witness :
  let s1 := setBandwidth show_3000 (of_int 3000) live in
  selected_value "low_cut=" (sent (setMode "usb" s1)) = Some (bytes_of_string "-4000")
  ∧ selected_value "high_cut=" (sent (setMode "usb" s1)) = Some (bytes_of_string "4000")
  ∧ selected_value "low_cut=" (sent (setFrequency fixed3_20m (of_int 14230000) s1))
    = Some (bytes_of_string "-4000")
  ∧ selected_value "high_cut=" (sent (setFrequency fixed3_20m (of_int 14230000) s1))
    = Some (bytes_of_string "4000").
Proof.
  apply (tuning_resets_passband fixed3_20m show_3000 (of_int 3000) (of_int 14230000)
           "usb" live).
  - reflexivity.
  - vm_compute. discriminate.
  - vm_compute. lia.
Defined.

(** *** The upgrade *)

Lemma connect_upgraded_iff env :
  match response env with
  | Some bytes =>
      (0 <? length (take 1023 bytes))%nat
      && contains upgrade_marker (c_str (take 1023 bytes))
  | None => false
  end = true
  ↔ ∃ bytes pre post, response env = Some bytes
      ∧ c_str (take 1023 bytes) = pre ++ upgrade_marker ++ post.
Proof.
  destruct (response env) as [bytes|]; [|split; [done|by intros (?&?&?&?&?)]].
  rewrite andb_true_iff, contains_spec. split.
  - intros (_ & pre & post & H). by exists bytes, pre, post.
  - intros (? & pre & post & [= <-] & H). split; [|by exists pre, post].
    apply Nat.ltb_lt. destruct (take 1023 bytes) as [|b l]; [|simpl; lia].
    exfalso. apply (f_equal length) in H. rewrite !length_app in H.
    change (length upgrade_marker) with 23%nat in H. simpl in H. lia.
Qed.

Lemma send_all cmds : ∀ s,
  0 ≤ socketFd s → Forall (λ c, (String.length c < 126)%nat) cmds →
  let s' := foldl (λ s cmd, (sendWebSocketFrame cmd s).2) s cmds in
  sent s' = sent s ++ ((λ c, text_frame (bytes_of_string c)) <$> cmds)
  ∧ connected s' = connected s ∧ shouldStop s' = shouldStop s
  ∧ receiveThread s' = receiveThread s ∧ socketFd s' = socketFd s
  ∧ delivered s' = delivered s.
Proof.
  induction cmds as [|c cmds IH]; intros s Hfd Hlen; simpl.
  - by rewrite app_nil_r.
  - inversion_clear Hlen as [|?? Hc Hlen'].
    rewrite sendWebSocketFrame_sends by done. cbn [snd].
    destruct (IH (do_send (text_frame (bytes_of_string c)) s) Hfd Hlen')
      as (-> & -> & -> & -> & -> & ->).
    cbn. by rewrite <- app_assoc.
Qed.

Lemma commands_read_frames (cmds : list string) :
  Forall (λ c, (String.length c < 126)%nat) cmds →
  commands_read ((λ c, text_frame (bytes_of_string c)) <$> cmds)
  = bytes_of_string <$> cmds.
Proof.
  intros Hlen. unfold commands_read.
  induction Hlen as [|c cmds Hc _ IH]; [done|].
  rewrite !fmap_cons. cbn [omap list_omap].
  rewrite unmask_text_frame; [|apply bytes_of_string_range|].
  - f_equal. exact IH.
  - by rewrite length_bytes_of_string.
Qed.

Lemma initial_commands_short :
  Forall (λ c, (String.length c < 126)%nat) initial_commands.
Proof. unfold initial_commands. repeat constructor; simpl; lia. Qed.

Lemma unmask_upgrade_request host port :
  unmask_frame (bytes_of_string (upgrade_request host port)) = None.
Proof. unfold upgrade_request. by rewrite bytes_of_string_app. Qed.

Lemma connect_result host port env s :
  ((connect host port env s).1 = true ↔ answers_upgrade env)
  ∧ ((connect host port env s).1 = true →
     let s' := (connect host port env s).2 in
     connected s' = true ∧ shouldStop s' = false ∧ receiveThread s' = Running
     ∧ socketFd s' = socket_result env
     ∧ sent s' = sent s ++ bytes_of_string (upgrade_request host port)
                 :: ((λ c, text_frame (bytes_of_string c)) <$> initial_commands)
     ∧ delivered s' = delivered s)
  ∧ ((connect host port env s).1 = false →
     let s' := (connect host port env s).2 in
     connected s' = connected s ∧ shouldStop s' = shouldStop s
     ∧ receiveThread s' = receiveThread s ∧ delivered s' = delivered s).
Proof.
  unfold connect, answers_upgrade.
  destruct (resolves env); cbn [negb].
  2: { split_and!; [split; [done|by intros (?&_)]|done|done]. }
  cbn [socketFd set_socketFd].
  destruct (socket_result env <? 0) eqn:Hfd.
  { apply Z.ltb_lt in Hfd.
    split_and!; [split; [done|intros (_&?&_); lia]|done|done]. }
  apply Z.ltb_ge in Hfd.
  destruct (accepts env); cbn [negb].
  2: { split_and!; [split; [done|by intros (_&_&?&_)]|done|done]. }
  pose proof (connect_upgraded_iff env) as Hup.
  destruct (match response env with Some _ => _ | None => _ end).
  - split_and!; [split; [intros _; split_and!; try done; by apply Hup|done]| |done].
    intros _.
    destruct (send_all initial_commands
      (set_receiveThread Running (set_shouldStop false (set_connected true
         (do_send (bytes_of_string (upgrade_request host port))
            (set_socketFd (socket_result env) s)))))) as (Hs & Hc & Hst & Ht & Hf & Hd);
      [done|apply initial_commands_short|].
    cbn [snd]. cbv zeta in *. rewrite Hs, Hc, Hst, Ht, Hf, Hd. cbn.
    by rewrite <- app_assoc.
  - split_and!; [split; [done|]|done|done].
    intros (_ & _ & _ & H). apply Hup in H. done.
Qed.

(** [connect] on a client whose thread is not joinable (never started, or
    joined by [disconnect]) returns true exactly when the host resolves,
    the socket opens, the connection is accepted and the marker 101
    Switching Protocols occurs in the first 1023 bytes of the answer.  Then
    the client is connected on the new socket with the stop flag down and
    the receive thread running, the eight initial commands were handed to
    [send] in order, after what was sent before, as frames a receiver reads
    back, and nothing was delivered to the audio callback. *)
Theorem connect_succeeds_iff (host : string) (port : Z) (env : server)
    (s : WebSDRClient) :
  joinable (receiveThread s) = false →
  ((connect host port env s).1 = true ↔ answers_upgrade env)
  ∧ (answers_upgrade env →
     let s' := (connect host port env s).2 in
     connected s' = true ∧ shouldStop s' = false ∧ receiveThread s' = Running
     ∧ socketFd s' = socket_result env
     ∧ commands_read (sent s')
       = commands_read (sent s) ++ (bytes_of_string <$> initial_commands)
     ∧ delivered s' = delivered s).
Proof.
  intros _.
  destruct (connect_result host port env s) as (Hiff & Hok & _).
  split; [done|]. intros Hans. apply Hiff in Hans.
  destruct (Hok Hans) as (Hc & Hst & Ht & Hfd & Hs & Hd). cbv zeta in *.
  split_and!; try done.
  rewrite Hs. unfold commands_read. rewrite omap_app. cbn [omap list_omap].
  rewrite unmask_upgrade_request.
  pose proof (commands_read_frames _ initial_commands_short) as Hr.
  unfold commands_read in Hr. by rewrite Hr.
Qed.

Lemma connect_succeeds_iff_witness :
  let s' := (connect "kiwisdr.ve6slp.ca" 8073 server_101 newClient).2 in
  connected s' = true ∧ shouldStop s' = false ∧ receiveThread s' = Running
  ∧ socketFd s' = socket_result server_101
  ∧ commands_read (sent s')
    = commands_read (sent newClient) ++ (bytes_of_string <$> initial_commands)
  ∧ delivered s' = delivered newClient.
Proof.
  apply (proj2 (connect_succeeds_iff "kiwisdr.ve6slp.ca" 8073 server_101 newClient
                  eq_refl)).
  unfold answers_upgrade. split_and!; [reflexivity|vm_compute; discriminate|reflexivity|].
  exists (bytes_of_string "HTTP/1.1 101 Switching Protocols"),
    (bytes_of_string "HTTP/1.1 "), []. split; reflexivity.
Defined.

Lemma answers_upgrade_101 : answers_upgrade server_101.
Proof.
  unfold answers_upgrade, server_101. cbn [resolves socket_result accepts response].
  split; [done|]. split; [lia|]. split; [done|].
  exists (bytes_of_string "HTTP/1.1 101 Switching Protocols"),
    (bytes_of_string "HTTP/1.1 "), []. by vm_compute.
Qed.

(** The constructor's connection with a backup: for a client that was
    never connected, the module ends up connected, with a receive thread
    running, exactly when the first or the backup server answers the
    upgrade; when the first server answers, the backup is not contacted. *)
Theorem connectWithBackup_connected (env1 env2 : server) (s : WebSDRClient) :
  connected s = false → receiveThread s = NotStarted →
  (isConnected (connectWithBackup env1 env2 s) = true
   ↔ answers_upgrade env1 ∨ answers_upgrade env2)
  ∧ (receiveThread (connectWithBackup env1 env2 s) = Running
     ↔ answers_upgrade env1 ∨ answers_upgrade env2)
  ∧ (answers_upgrade env1 →
     connectWithBackup env1 env2 s = (connect "kiwisdr.ve6slp.ca" 8073 env1 s).2).
Proof.
  intros Hc Ht. unfold connectWithBackup, isConnected. cbv zeta.
  destruct (connect_result "kiwisdr.ve6slp.ca" 8073 env1 s) as (Hiff1 & Hok1 & Hno1).
  destruct (connect "kiwisdr.ve6slp.ca" 8073 env1 s) as [[] s1]; cbn [fst snd] in *.
  - destruct (Hok1 eq_refl) as (Hc1 & _ & Ht1 & _).
    pose proof (proj1 Hiff1 eq_refl). by split_and!; [split; [left|]|split; [left|]|].
  - destruct (Hno1 eq_refl) as (Hc1 & _ & Ht1 & _).
    assert (Hn1 : ¬ answers_upgrade env1) by (intros H; by apply Hiff1 in H).
    destruct (connect_result "sdr.ve3sun.com" 8073 env2 s1) as (Hiff2 & Hok2 & Hno2).
    destruct (connect "sdr.ve3sun.com" 8073 env2 s1) as [[] s2]; cbn [fst snd] in *.
    + destruct (Hok2 eq_refl) as (Hc2 & _ & Ht2 & _).
      pose proof (proj1 Hiff2 eq_refl).
      by split_and!; [split; [right|]|split; [right|]|].
    + destruct (Hno2 eq_refl) as (Hc2 & _ & Ht2 & _).
      assert (Hn2 : ¬ answers_upgrade env2) by (intros H; by apply Hiff2 in H).
      split_and!; [split|split|done]; try (intros [|]; done).
      * congruence.
      * congruence.
Qed.

Lemma connectWithBackup_connected_witness :
  (isConnected (connectWithBackup server_down server_101 newClient) = true
   ↔ answers_upgrade server_down ∨ answers_upgrade server_101)
  ∧ (receiveThread (connectWithBackup server_down server_101 newClient) = Running
     ↔ answers_upgrade server_down ∨ answers_upgrade server_101)
  ∧ (answers_upgrade server_down →
     connectWithBackup server_down server_101 newClient
     = (connect "kiwisdr.ve6slp.ca" 8073 server_down newClient).2).
Proof.
  apply (connectWithBackup_connected server_down server_101 newClient); reflexivity.
Defined.

(** *** The receive loop: which reads change nothing *)

Lemma take_declared (declared : Z) (l : list Z) :
  take (Z.to_nat (declared `min` Z.of_nat (length l))) l = take (Z.to_nat declared) l.
Proof.
  destruct (Z.le_gt_cases declared (Z.of_nat (length l))).
  - by rewrite Z.min_l.
  - rewrite Z.min_r, Nat2Z.id by lia. by rewrite !take_ge by lia.
Qed.

Lemma on_data_frame header opcode declared rest s :
  header_of header opcode declared → rest ≠ [] →
  on_data (header ++ rest) s
  = dispatch opcode (take (Z.to_nat declared) rest) (header ++ rest) s.
Proof.
  intros [b0 b1 Hm Hl|b0 b1 h l Hm Hl] Hrest; unfold on_data, on_frame.
  - simpl length. simpl nth. simpl app.
    rewrite (proj2 (Z.eqb_neq _ 126)), (proj2 (Z.eqb_neq _ 127)) by lia.
    rewrite Hm. simpl andb.
    destruct rest as [|r rest]; [done|].
    rewrite (proj2 (Nat.ltb_lt 2 _)) by (simpl; lia). simpl drop.
    replace (S (S (length (r :: rest))) - 2)%nat with (length (r :: rest)) by lia.
    by rewrite take_declared.
  - simpl length. simpl nth. simpl app.
    rewrite Hl, Hm. simpl andb.
    destruct rest as [|r rest]; [done|].
    rewrite (proj2 (Nat.ltb_lt 4 _)) by (simpl; lia). simpl drop.
    replace (S (S (S (S (length (r :: rest))))) - 4)%nat
      with (length (r :: rest)) by lia.
    by rewrite take_declared.
Qed.

Lemma on_data_ignored buffer s :
  Z.land (nth 1 buffer 0) 0x80 ≠ 0 ∨ Z.land (nth 0 buffer 0) 0x0F ∉ [1; 2; 8; 9] →
  on_data buffer s = (false, s).
Proof.
  intros Hign. unfold on_data, on_frame, dispatch.
  assert (Hd : Z.land (nth 1 buffer 0) 128 ≠ 0
               ∨ ((Z.land (nth 0 buffer 0) 15 =? 2) = false
                  ∧ (Z.land (nth 0 buffer 0) 15 =? 1) = false
                  ∧ (Z.land (nth 0 buffer 0) 15 =? 9) = false
                  ∧ (Z.land (nth 0 buffer 0) 15 =? 8) = false)).
  { destruct Hign as [?|Hop]; [by left|right].
    split_and!; apply Z.eqb_neq; intros Heq; apply Hop; rewrite Heq;
      apply list_elem_of_In; simpl; auto. }
  destruct Hd as [Hm|(H2 & H1 & H9 & H8)].
  - rewrite (proj2 (Z.eqb_neq _ 0)) by done. cbn [negb andb].
    by repeat case_match.
  - rewrite H2, H1, H9, H8. by repeat case_match.
Qed.

(** A read whose frame has the mask bit set, or an opcode other than
    text, binary, close and ping, has no effect at all: the loop goes on
    with the next read from the same client state. *)
Theorem receiveLoop_ignores_frame (bytes : list Z) (rest : list io_event)
    (s : WebSDRClient) :
  shouldStop s = false → 0 ≤ socketFd s →
  (0 < length bytes ≤ Z.to_nat 8192)%nat →
  Z.land (nth 1 bytes 0) 0x80 ≠ 0 ∨ Z.land (nth 0 bytes 0) 0x0F ∉ [1; 2; 8; 9] →
  receiveLoop (Recv bytes :: rest) s = receiveLoop rest s.
Proof.
  intros Hstop Hfd Hlen Hign.
  rewrite receiveLoop_recv by done. by rewrite on_data_ignored.
Qed.

Lemma receiveLoop_ignores_frame_witness :
  receiveLoop (Recv [0x81; 0x82; 0x12; 0x34; 0x56; 0x78; 0x7A; 0x5D] :: []) live
  = receiveLoop [] live.
Proof.
  apply (receiveLoop_ignores_frame [0x81; 0x82; 0x12; 0x34; 0x56; 0x78; 0x7A; 0x5D]
           [] live).
  - reflexivity.
  - vm_compute. discriminate.
  - simpl. lia.
  - left. vm_compute. discriminate.
Defined.

(** A read is decoded as one frame.  When a complete frame is followed by
    more bytes in the same read, the frame is dispatched with exactly its
    declared payload and the bytes after it are never looked at: for a
    binary frame the loop continues from the state after decoding that
    payload alone. *)
Theorem receiveLoop_decodes_first_frame_only
    (header payload more : list Z) (opcode declared : Z) (rest : list io_event)
    (s : WebSDRClient) :
  header_of header opcode declared →
  payload ≠ [] → Z.of_nat (length payload) = declared →
  (length (header ++ payload ++ more) ≤ Z.to_nat 8192)%nat →
  shouldStop s = false → 0 ≤ socketFd s →
  on_data (header ++ payload ++ more) s
    = dispatch opcode payload (header ++ payload ++ more) s
  ∧ (opcode = 2 →
     receiveLoop (Recv (header ++ payload ++ more) :: rest) s
     = receiveLoop rest (processAudioPacket payload s)).
Proof.
  intros Hh Hp Hd Hlen Hstop Hfd.
  assert (Hod : on_data (header ++ payload ++ more) s
                = dispatch opcode payload (header ++ payload ++ more) s).
  { rewrite (on_data_frame _ _ _ _ _ Hh) by (by destruct payload).
    by rewrite <- Hd, Nat2Z.id, take_app_length. }
  split; [done|]. intros ->.
  rewrite receiveLoop_recv; [|done|done|].
  - by rewrite Hod.
  - split; [|done]. rewrite !length_app. destruct payload; [done|simpl; lia].
Qed.

Lemma receiveLoop_decodes_first_frame_only_witness :
  on_data ([0x82; 0x02] ++ [0x00; 0x40] ++ next_frame) live
    = dispatch (Z.land 0x82 0x0F) [0x00; 0x40]
        ([0x82; 0x02] ++ [0x00; 0x40] ++ next_frame) live
  ∧ (Z.land 0x82 0x0F = 2 →
     receiveLoop (Recv ([0x82; 0x02] ++ [0x00; 0x40] ++ next_frame) :: []) live
     = receiveLoop [] (processAudioPacket [0x00; 0x40] live)).
Proof.
  apply (receiveLoop_decodes_first_frame_only [0x82; 0x02] [0x00; 0x40] next_frame
           (Z.land 0x82 0x0F) (Z.land 0x02 0x7F) [] live).
  - apply short_header; reflexivity.
  - discriminate.
  - reflexivity.
  - simpl. lia.
  - reflexivity.
  - vm_compute. discriminate.
Defined.

(** How the receive loop ends and how it does not: a read of zero bytes
    (the peer closed) and a receive error both end the thread with
    [connected] cleared; a Close frame that carries at least one payload
    byte raises the stop flag first; a Close frame that is a bare header is
    not acted on, the loop goes on with the next read; select timeouts,
    however many, change nothing and the loop goes on. *)
Theorem receiveLoop_ends (rest : list io_event) (s : WebSDRClient) :
  shouldStop s = false → 0 ≤ socketFd s →
  receiveLoop (Recv [] :: rest) s = thread_exit s
  ∧ receiveLoop (RecvError :: rest) s = thread_exit s
  ∧ (∀ header declared payload,
       header_of header 8 declared → payload ≠ [] →
       (length (header ++ payload) ≤ Z.to_nat 8192)%nat →
       receiveLoop (Recv (header ++ payload) :: rest) s
       = thread_exit (set_shouldStop true s))
  ∧ (∀ header declared,
       header_of header 8 declared →
       receiveLoop (Recv header :: rest) s = receiveLoop rest s)
  ∧ (∀ n io, receiveLoop (replicate n SelectTimeout ++ io) s = receiveLoop io s).
Proof.
  intros Hstop Hfd.
  assert (Hhead : shouldStop s || (socketFd s <? 0) = false).
  { rewrite Hstop. cbn. by apply Z.ltb_ge. }
  split_and!.
  - simpl. by rewrite Hhead.
  - simpl. by rewrite Hhead.
  - intros header declared payload Hh Hp Hlen.
    rewrite receiveLoop_recv; [|done|done|].
    + by rewrite (on_data_frame _ _ _ _ _ Hh).
    + split; [|done]. rewrite length_app. destruct payload; [done|simpl; lia].
  - intros header declared Hh.
    rewrite receiveLoop_recv; [|done|done|].
    + by rewrite (on_data_header _ _ _ _ Hh).
    + inversion Hh; simpl; lia.
  - intros n io. induction n as [|n IH]; [done|].
    simpl. by rewrite Hhead.
Qed.

Lemma receiveLoop_ends_witness :
  receiveLoop (Recv [] :: []) live = thread_exit live
  ∧ receiveLoop (RecvError :: []) live = thread_exit live
  ∧ (∀ header declared payload,
       header_of header 8 declared → payload ≠ [] →
       (length (header ++ payload) ≤ Z.to_nat 8192)%nat →
       receiveLoop (Recv (header ++ payload) :: []) live
       = thread_exit (set_shouldStop true live))
  ∧ (∀ header declared,
       header_of header 8 declared →
       receiveLoop (Recv header :: []) live = receiveLoop [] live)
  ∧ (∀ n io, receiveLoop (replicate n SelectTimeout ++ io) live = receiveLoop io live).
Proof.
  apply (receiveLoop_ends [] live).
  - reflexivity.
  - vm_compute. discriminate.
Defined.

(** *** The receive loop: what it never touches *)

Lemma processAudioPacket_effect data s :
  processAudioPacket data s = s
  ∨ (hasCallback s = true ∧ processAudioPacket data s = do_callback (pcm_samples data) s).
Proof.
  unfold processAudioPacket. destruct (_ && _); [by left|].
  destruct (hasCallback s); [|left; by rewrite andb_false_r].
  destruct (negb _); [by right|by left].
Qed.

Lemma on_data_preserves buffer s :
  let r := on_data buffer s in
  socketFd r.2 = socketFd s ∧ hasCallback r.2 = hasCallback s
  ∧ connected r.2 = connected s ∧ receiveThread r.2 = receiveThread s
  ∧ sent s `prefix_of` sent r.2 ∧ delivered s `prefix_of` delivered r.2
  ∧ (shouldStop s = true → shouldStop r.2 = true).
Proof.
  assert (Hsame : ∀ b, let r : bool * WebSDRClient := (b, s) in
    socketFd r.2 = socketFd s ∧ hasCallback r.2 = hasCallback s
    ∧ connected r.2 = connected s ∧ receiveThread r.2 = receiveThread s
    ∧ sent s `prefix_of` sent r.2 ∧ delivered s `prefix_of` delivered r.2
    ∧ (shouldStop s = true → shouldStop r.2 = true)) by (by intros b; split_and!).
  assert (Hdisp : ∀ opcode payload buf,
    let r := dispatch opcode payload buf s in
    socketFd r.2 = socketFd s ∧ hasCallback r.2 = hasCallback s
    ∧ connected r.2 = connected s ∧ receiveThread r.2 = receiveThread s
    ∧ sent s `prefix_of` sent r.2 ∧ delivered s `prefix_of` delivered r.2
    ∧ (shouldStop s = true → shouldStop r.2 = true)).
  { intros opcode payload buf. unfold dispatch.
    destruct (opcode =? 2).
    { destruct (processAudioPacket_effect payload s) as [->|[_ ->]]; cbn.
      - by split_and!.
      - split_and!; try done. by apply prefix_app_r. }
    destruct (opcode =? 1).
    { destruct (contains _ _); cbn; by split_and!. }
    destruct (opcode =? 9).
    { cbn. split_and!; try done. by apply prefix_app_r. }
    destruct (opcode =? 8); cbn; by split_and!. }
  unfold on_data, on_frame. repeat case_match; try apply Hsame; apply Hdisp.
Qed.

(** What the receive loop never does, over every sequence of reads: it
    never changes the socket handle or the callback, never removes or
    reorders what was sent or delivered, never turns [connected] on, never
    lowers the stop flag, and leaves the thread state alone unless it ends,
    in which case [connected] is off. *)
Theorem receiveLoop_invariants (io : list io_event) (s : WebSDRClient) :
  let s' := receiveLoop io s in
  socketFd s' = socketFd s ∧ hasCallback s' = hasCallback s
  ∧ sent s `prefix_of` sent s' ∧ delivered s `prefix_of` delivered s'
  ∧ (connected s' = true → connected s = true)
  ∧ (shouldStop s = true → shouldStop s' = true)
  ∧ (receiveThread s' = receiveThread s
     ∨ receiveThread s' = Finished ∧ connected s' = false).
Proof.
  revert s. induction io as [|e io IH]; intros s; cbv zeta.
  - simpl. destruct (shouldStop s || (socketFd s <? 0));
      cbn; split_and!; try done; first [by left|by right].
  - cbn [receiveLoop]. destruct (shouldStop s || (socketFd s <? 0)).
    { cbn. split_and!; try done. by right. }
    destruct e as [|bytes|].
    + apply IH.
    + destruct (0 <? length (take (Z.to_nat 8192) bytes))%nat.
      2: { cbn. split_and!; try done. by right. }
      destruct (on_data_preserves (take (Z.to_nat 8192) bytes) s)
        as (Hfd & Hcb & Hc & Ht & Hs & Hd & Hst).
      destruct (on_data (take (Z.to_nat 8192) bytes) s) as [stop s1].
      cbn [fst snd] in *. destruct stop.
      * cbn. split_and!; try done. by right.
      * destruct (IH s1) as (Hfd' & Hcb' & Hs' & Hd' & Hc' & Hst' & Ht').
        split_and!.
        -- congruence.
        -- congruence.
        -- by etrans.
        -- by etrans.
        -- intros H. rewrite <- Hc. by apply Hc'.
        -- intros H. by apply Hst', Hst.
        -- destruct Ht' as [Ht'|Ht']; [left; congruence|by right].
    + cbn. split_and!; try done. by right.
Qed.

(** *** PCM payloads *)

Lemma pcm_samples_app (a b : list Z) :
  Nat.Even (length a) → pcm_samples (a ++ b) = pcm_samples a ++ pcm_samples b.
Proof.
  induction a as [| x | x y a IH] using pcm_samples_ind; intros Ha.
  - done.
  - destruct Ha as [k Hk]. simpl in Hk. lia.
  - simpl. rewrite IH; [done|].
    destruct Ha as [k Hk]. simpl in Hk. exists (k - 1)%nat. lia.
Qed.

Lemma pcm_encode_decode v :
  is_int16 v → pcm_samples (pcm_encode v) = [normalize v].
Proof.
  intros Hv. unfold pcm_encode. simpl. do 2 f_equal.
  assert (Hlo : is_byte (v mod 256)) by (unfold is_byte; apply Z.mod_pos_bound; lia).
  assert (Hhi : is_byte ((v / 256) mod 256)) by (unfold is_byte; apply Z.mod_pos_bound; lia).
  rewrite little_endian_pair by done.
  unfold to_int16, is_int16 in *.
  destruct (Z_lt_ge_dec v 0) as [Hneg|Hpos].
  - replace ((v / 256) mod 256) with (v / 256 + 256).
    2: { symmetry. rewrite <- (Z.mod_add _ 1 256) by lia.
         apply Z.mod_small. pose proof (Z.div_le_lower_bound v 256 (-128)).
         pose proof (Z.div_lt_upper_bound v 256 0). lia. }
    pose proof (Z.div_mod v 256). 
    replace (v mod 256 + 256 * (v / 256 + 256) + 32768)
      with ((v + 32768) + 1 * 65536) by lia.
    rewrite Z.mod_add, Z.mod_small by lia. lia.
  - rewrite (Z.mod_small (v / 256)).
    2: { pose proof (Z.div_le_lower_bound v 256 0).
         pose proof (Z.div_lt_upper_bound v 256 128). lia. }
    pose proof (Z.div_mod v 256).
    replace (v mod 256 + 256 * (v / 256)) with v by lia.
    rewrite Z.mod_small; lia.
Qed.

Lemma normalize_inj v w : normalize v = normalize w → v = w.
Proof.
  unfold normalize. intros H. apply Q2Qc_eq_iff in H.
  unfold Qeq in H. simpl in H. lia.
Qed.

Lemma pcm_samples_encode (vs : list Z) :
  Forall is_int16 vs → pcm_samples (vs ≫= pcm_encode) = normalize <$> vs.
Proof.
  intros Hvs. induction Hvs as [|v vs Hv _ IH]; [done|].
  change ((v :: vs) ≫= pcm_encode) with (pcm_encode v ++ (vs ≫= pcm_encode)).
  rewrite pcm_samples_app by (exists 1%nat; reflexivity).
  by rewrite pcm_encode_decode, IH.
Qed.

Lemma length_encode (vs : list Z) :
  length (vs ≫= pcm_encode) = (2 * length vs)%nat.
Proof.
  induction vs as [|v vs IH]; [done|].
  change ((v :: vs) ≫= pcm_encode) with (pcm_encode v ++ (vs ≫= pcm_encode)).
  rewrite length_app, IH. simpl. lia.
Qed.

Lemma pcm_encode_bytes (v lo hi : Z) :
  is_int16 v → 0 ≤ lo < 256 → 0 ≤ hi < 128 →
  (pcm_encode v = [lo; hi] ↔ v = lo + 256 * hi).
Proof.
  unfold is_int16, pcm_encode. intros Hv Hlo Hhi. split.
  - intros [= H1 H2]. Z.div_mod_to_equations. lia.
  - intros ->. f_equal; [|f_equal]; Z.div_mod_to_equations; lia.
Qed.

Lemma skipped_encode (vs : list Z) :
  Forall is_int16 vs →
  (skipped (vs ≫= pcm_encode) ↔ take 2 vs = [21325; 8263] ∧ (2 < length vs)%nat).
Proof.
  intros Hvs. unfold skipped. rewrite length_encode.
  destruct vs as [|v1 [|v2 vs]].
  - simpl. split; intros [? ?]; lia.
  - simpl. split; intros [? ?]; lia.
  - apply Forall_cons in Hvs as [H1 Hvs]. apply Forall_cons in Hvs as [H2 Hvs].
    change ((v1 :: v2 :: vs) ≫= pcm_encode)
      with (pcm_encode v1 ++ pcm_encode v2 ++ (vs ≫= pcm_encode)).
    change (take 4 (pcm_encode v1 ++ pcm_encode v2 ++ (vs ≫= pcm_encode)))
      with (pcm_encode v1 ++ pcm_encode v2).
    change MSG_prefix with ([77; 83] ++ [71; 32]).
    change (take 2 (v1 :: v2 :: vs)) with [v1; v2].
    pose proof (pcm_encode_bytes v1 77 83 H1 ltac:(lia) ltac:(lia)) as E1.
    pose proof (pcm_encode_bytes v2 71 32 H2 ltac:(lia) ltac:(lia)) as E2.
    split.
    + intros [Hlen Heq]. apply app_inj_1 in Heq as [Ha Hb]; [|done].
      apply E1 in Ha. apply E2 in Hb. simpl in Hlen. split; [by subst|simpl; lia].
    + intros [[= -> ->] Hlen]. split; [simpl in *; lia|reflexivity].
Qed.

Lemma processAudioPacket_decoded data s :
  ¬ skipped data →
  processAudioPacket data s
  = if negb (bool_decide (pcm_samples data = [])) && hasCallback s
    then do_callback (pcm_samples data) s else s.
Proof.
  intros Hns. unfold processAudioPacket.
  destruct (4 <? length data)%nat eqn:Hlen; [|done].
  apply Nat.ltb_lt in Hlen. rewrite bool_decide_eq_false_2; [done|].
  intros Heq. by apply Hns.
Qed.

Lemma processAudioPacket_skipped data s :
  skipped data → processAudioPacket data s = s.
Proof.
  intros [Hlen Heq]. unfold processAudioPacket.
  by rewrite (proj2 (Nat.ltb_lt _ _)), bool_decide_eq_true_2 by done.
Qed.

Lemma processAudioPacket_stream data s :
  ¬ skipped data →
  concat (delivered (processAudioPacket data s))
  = concat (delivered s) ++ (if hasCallback s then pcm_samples data else [])
  ∧ hasCallback (processAudioPacket data s) = hasCallback s.
Proof.
  intros Hns. rewrite processAudioPacket_decoded by done.
  destruct (hasCallback s) eqn:Hcb; case_bool_decide as Hnil; cbn [negb andb].
  - by rewrite Hnil, app_nil_r.
  - cbn [delivered do_callback hasCallback]. split; [|done].
    by rewrite concat_app, concat_cons, concat_nil, app_nil_r.
  - by rewrite app_nil_r.
  - by rewrite app_nil_r.
Qed.

(** Round trip through the packet decoder.  A packet made of the two-byte
    little-endian two's complement encodings of 16-bit values is handed to
    the audio callback as one batch of exactly those values divided by
    32768, in order, and different value sequences give different batches.
    The one exception is the MSG guard: the packet is skipped, and its
    audio lost, exactly when it holds more than two values and starts with
    the values 21325 and 8263, whose bytes spell MSG and a space. *)
Theorem processAudioPacket_roundtrip (vs : list Z) (s : WebSDRClient) :
  Forall is_int16 vs → vs ≠ [] → hasCallback s = true →
  (skipped (vs ≫= pcm_encode) ↔ take 2 vs = [21325; 8263] ∧ (2 < length vs)%nat)
  ∧ (¬ skipped (vs ≫= pcm_encode) →
     processAudioPacket (vs ≫= pcm_encode) s = do_callback (normalize <$> vs) s)
  ∧ (skipped (vs ≫= pcm_encode) → processAudioPacket (vs ≫= pcm_encode) s = s)
  ∧ (∀ ws, normalize <$> vs = normalize <$> ws → vs = ws).
Proof.
  intros Hvs Hne Hcb. split_and!.
  - by apply skipped_encode.
  - intros Hns. rewrite processAudioPacket_decoded, pcm_samples_encode, Hcb by done.
    rewrite bool_decide_eq_false_2; [done|]. by destruct vs.
  - apply processAudioPacket_skipped.
  - clear Hvs Hne. induction vs as [|v vs IH]; intros [|w ws] H; try done.
    rewrite !fmap_cons in H.
    pose proof (f_equal (λ l, default fzero (head l)) H) as Hv.
    pose proof (f_equal tail H) as Hrest. simpl in Hv, Hrest.
    f_equal; [by apply normalize_inj|by apply IH].
Qed.

Lemma processAudioPacket_roundtrip_witness :
  (skipped (two_values ≫= pcm_encode)
   ↔ take 2 two_values = [21325; 8263] ∧ (2 < length two_values)%nat)
  ∧ (¬ skipped (two_values ≫= pcm_encode) →
     processAudioPacket (two_values ≫= pcm_encode) live
     = do_callback (normalize <$> two_values) live)
  ∧ (skipped (two_values ≫= pcm_encode) →
     processAudioPacket (two_values ≫= pcm_encode) live = live)
  ∧ (∀ ws, normalize <$> two_values = normalize <$> ws → two_values = ws).
Proof.
  apply (processAudioPacket_roundtrip two_values live).
  - repeat constructor; vm_compute; discriminate.
  - discriminate.
  - reflexivity.
Defined.

(** The packet decoder goes pair by pair from the start of the payload.  A
    single byte after an even number of bytes is dropped without a sample:
    the packet has the effect of the packet without it.  A payload cut at
    an even offset into two packets gives the audio callback the same
    samples in the same order as the payload in one packet.  Both hold for
    packets the MSG guard does not skip. *)
Theorem processAudioPacket_chunks (a b : list Z) (x : Z) (s : WebSDRClient) :
  Nat.Even (length a) →
  (¬ skipped (a ++ [x]) → processAudioPacket (a ++ [x]) s = processAudioPacket a s)
  ∧ (¬ skipped a → ¬ skipped b → ¬ skipped (a ++ b) →
     concat (delivered (processAudioPacket b (processAudioPacket a s)))
     = concat (delivered (processAudioPacket (a ++ b) s))).
Proof.
  intros Ha. split.
  - intros Hns.
    assert (Hna : ¬ skipped a).
    { intros [Hlen Heq]. apply Hns. split; [rewrite length_app; lia|].
      by rewrite take_app_le by lia. }
    rewrite !processAudioPacket_decoded by done.
    rewrite pcm_samples_app by done. simpl. by rewrite app_nil_r.
  - intros Hna Hnb Hnab.
    destruct (processAudioPacket_stream a s Hna) as [Ea Hcb].
    destruct (processAudioPacket_stream b (processAudioPacket a s) Hnb) as [Eb _].
    destruct (processAudioPacket_stream (a ++ b) s Hnab) as [Eab _].
    rewrite Eb, Eab, Ea, Hcb, pcm_samples_app by done.
    destruct (hasCallback s); by rewrite <- ?app_assoc, ?app_nil_r.
Qed.

Lemma processAudioPacket_chunks_witness :
  (¬ skipped ([0x00; 0x40] ++ [7]) →
   processAudioPacket ([0x00; 0x40] ++ [7]) live = processAudioPacket [0x00; 0x40] live)
  ∧ (¬ skipped [0x00; 0x40] → ¬ skipped [0x00; 0xC0] →
     ¬ skipped ([0x00; 0x40] ++ [0x00; 0xC0]) →
     concat (delivered (processAudioPacket [0x00; 0xC0]
                          (processAudioPacket [0x00; 0x40] live)))
     = concat (delivered (processAudioPacket ([0x00; 0x40] ++ [0x00; 0xC0]) live))).
Proof.
  apply (processAudioPacket_chunks [0x00; 0x40] [0x00; 0xC0] 7 live).
  exists 1%nat. reflexivity.
Defined.

(** *** [disconnect] from any state *)

Lemma step_flags_down l w w' : step l w = Some w' → flags_down w → flags_down w'.
Proof.
  destruct w as [s p]. unfold step, flags_down, after_flags, after_socket, thread_exit.
  simpl. intros H [Hs Hc]. revert H.
  destruct (receiveThread s) eqn:Ht, (0 <=? socketFd s) eqn:Hfd, l, p;
    simpl in *; try done.
  all: try (destruct (fd =? socketFd s); [|done]).
  all: intros [= <-]; simpl; rewrite ?Ht.
  all: split; intros; try done; auto.
Qed.

Lemma run_flags_down tr : ∀ w w', run tr w = Some w' → flags_down w → flags_down w'.
Proof.
  induction tr as [|l tr IH]; intros w w' Hrun Hw; simpl in Hrun.
  - by simplify_eq.
  - destruct (step l w) as [w1|] eqn:Hstep; [|done].
    eapply IH; [done|]. by eapply step_flags_down.
Qed.

Lemma step_thread_running l w w' :
  step l w = Some w' → receiveThread (client w) = Running → pc w ≠ AtReturn →
  l ≠ ThreadExit →
  receiveThread (client w') = Running ∧ pc w' ≠ AtReturn.
Proof.
  destruct w as [s p]. unfold step, after_flags, after_socket. simpl.
  intros H Ht Hp Hl. rewrite Ht in H. revert H.
  destruct (0 <=? socketFd s) eqn:Hfd, l, p; simpl; try done.
  all: try (destruct (fd =? socketFd s); [|done]).
  all: by intros [= <-].
Qed.

Lemma run_thread_running tr : ∀ w w',
  run tr w = Some w' → receiveThread (client w) = Running → pc w ≠ AtReturn →
  ThreadExit ∉ tr → pc w' ≠ AtReturn.
Proof.
  induction tr as [|l tr IH]; intros w w' Hrun Ht Hpc Hno; simpl in Hrun.
  - by simplify_eq.
  - destruct (step l w) as [w1|] eqn:Hstep; [|done].
    apply not_elem_of_cons in Hno as [Hl Hno].
    destruct (step_thread_running _ _ _ Hstep Ht Hpc) as [Ht1 Hpc1]; [done|].
    by eapply IH.
Qed.

(** [disconnect] works from every client state, whether or not a socket is
    open or a thread was started: in a complete run its own operations are
    the two flag writes, then closing and invalidating the socket only when
    one is open, then the join only when the thread is joinable.  When it
    has returned the stop flag is up, the client is not connected, the
    socket handle is invalid and there is no thread; [setFrequency] and
    [setMode] then do nothing. *)
Theorem disconnect_any_state (tr : list label) (s : WebSDRClient) (w' : world)
    (fixed3 : float → string) (freq : float) (mode : string) :
  run tr (mkWorld s AtRaiseStop) = Some w' → pc w' = AtReturn →
  List.filter is_disconnect_op tr
    = [RaiseStop; ClearConnected] ++ socket_ops s ++ join_ops s
  ∧ shouldStop (client w') = true
  ∧ isConnected (client w') = false
  ∧ socketFd (client w') < 0
  ∧ receiveThread (client w') = NotStarted
  ∧ setFrequency fixed3 freq (client w') = client w'
  ∧ setMode mode (client w') = client w'.
Proof.
  intros Hrun Hret.
  pose proof (run_remaining _ _ _ Hrun) as Hrem.
  assert (Hs : settled w').
  { eapply run_settled; [done|]. by split; [|intros [|]]. }
  assert (Hf : flags_down w').
  { eapply run_flags_down; [done|]. by split. }
  destruct Hs as [Ht Hsock]. destruct Hf as [Hstop Hconn].
  unfold remaining in Hrem at 2. rewrite Hret, app_nil_r in Hrem.
  assert (Hc : connected (client w') = false) by (apply Hconn; by rewrite Hret).
  split_and!; try done.
  - apply Hstop. by rewrite Hret.
  - apply Hsock. by right.
  - by apply Ht.
  - unfold setFrequency. by rewrite Hc.
  - unfold setMode. by rewrite Hc.
Qed.

Lemma disconnect_any_state_witness :
  List.filter is_disconnect_op [RaiseStop; ClearConnected]
    = [RaiseStop; ClearConnected] ++ socket_ops newClient ++ join_ops newClient
  ∧ shouldStop (set_connected false (set_shouldStop true newClient)) = true
  ∧ isConnected (set_connected false (set_shouldStop true newClient)) = false
  ∧ socketFd (set_connected false (set_shouldStop true newClient)) < 0
  ∧ receiveThread (set_connected false (set_shouldStop true newClient)) = NotStarted
  ∧ setFrequency fixed3_20m (of_int 14230000)
      (set_connected false (set_shouldStop true newClient))
    = set_connected false (set_shouldStop true newClient)
  ∧ setMode "usb" (set_connected false (set_shouldStop true newClient))
    = set_connected false (set_shouldStop true newClient).
Proof.
  apply (disconnect_any_state [RaiseStop; ClearConnected] newClient
           (mkWorld (set_connected false (set_shouldStop true newClient)) AtReturn)
           fixed3_20m (of_int 14230000) "usb"); reflexivity.
Defined.

(** [disconnect] can always run to its end: from every client state there
    is a complete run, the receive thread leaving its loop once the socket
    is gone.  And it cannot return early: while the receive thread was
    running at the call and has not left its loop, no run has reached the
    return. *)
Theorem disconnect_completes (s : WebSDRClient) :
  (∃ w', run (disconnect_trace s) (mkWorld s AtRaiseStop) = Some w' ∧ pc w' = AtReturn)
  ∧ (∀ tr w', receiveThread s = Running →
       run tr (mkWorld s AtRaiseStop) = Some w' → ThreadExit ∉ tr → pc w' ≠ AtReturn).
Proof.
  split.
  - unfold disconnect_trace, socket_ops.
    destruct (receiveThread s) eqn:Ht, (0 <=? socketFd s) eqn:Hfd;
      simpl; unfold after_flags, after_socket; simpl;
      rewrite ?Hfd, ?Ht, ?Z.eqb_refl; simpl; rewrite ?Ht; simpl; eauto.
  - intros tr w' Ht Hrun Hno. by eapply run_thread_running.
Qed.

Lemma disconnect_completes_witness :
  pc (mkWorld (set_socketFd (-1) (set_connected false (set_shouldStop true live)))
        AtJoin) ≠ AtReturn.
Proof.
  apply (proj2 (disconnect_completes live)
           [RaiseStop; ClearConnected; CloseSocket 3; InvalidateSocket]).
  - reflexivity.
  - reflexivity.
  - intros H. apply list_elem_of_In in H. simpl in H.
    repeat (destruct H as [H|H]; [discriminate H|]). exact H.
Defined.

Lemma run_no_thread tr : ∀ w w',
  run tr w = Some w' → receiveThread (client w) = NotStarted →
  socketFd (client w) < 0 → pc w = AtRaiseStop → pc w' = AtReturn →
  tr = [RaiseStop; ClearConnected] ∧ socketFd (client w') = socketFd (client w).
Proof.
  intros [s p] w' Hrun Ht Hfd Hp Hret. simpl in *. subst p.
  assert (Hfd' : (0 <=? socketFd s) = false) by (apply Z.leb_gt; lia).
  destruct tr as [|l1 tr]; simpl in Hrun; [by simplify_eq|].
  destruct l1; simpl in Hrun; rewrite ?Ht in Hrun; try done.
  destruct tr as [|l2 tr]; simpl in Hrun; [by simplify_eq|].
  destruct l2; simpl in Hrun; rewrite ?Ht in Hrun; try done.
  unfold after_flags in Hrun. simpl in Hrun. rewrite Hfd', Ht in Hrun. simpl in Hrun.
  destruct tr as [|l3 tr]; simpl in Hrun; [by simplify_eq|].
  destruct l3; simpl in Hrun; rewrite ?Ht in Hrun; done.
Qed.

(** Calling [disconnect] again after it has returned only writes the two
    flags: nothing is closed or joined a second time and the client state
    does not change. *)
Theorem disconnect_twice (tr1 tr2 : list label) (s : WebSDRClient) (w1 w2 : world) :
  run tr1 (mkWorld s AtRaiseStop) = Some w1 → pc w1 = AtReturn →
  run tr2 (mkWorld (client w1) AtRaiseStop) = Some w2 → pc w2 = AtReturn →
  tr2 = [RaiseStop; ClearConnected] ∧ client w2 = client w1.
Proof.
  intros Hrun1 Hret1 Hrun2 Hret2.
  assert (Hs : settled w1).
  { eapply run_settled; [done|]. by split; [|intros [|]]. }
  assert (Hf : flags_down w1).
  { eapply run_flags_down; [done|]. by split. }
  destruct Hs as [Ht Hsock]. destruct Hf as [Hstop Hconn].
  specialize (Ht Hret1). specialize (Hsock (or_intror Hret1)).
  assert (Hst : shouldStop (client w1) = true) by (apply Hstop; by rewrite Hret1).
  assert (Hc : connected (client w1) = false) by (apply Hconn; by rewrite Hret1).
  destruct (run_no_thread tr2 _ _ Hrun2 Ht Hsock eq_refl Hret2) as [-> _].
  split; [done|].
  simpl in Hrun2. unfold after_flags in Hrun2. simpl in Hrun2.
  rewrite (proj2 (Z.leb_gt _ _)), Ht in Hrun2 by lia. simpl in Hrun2.
  injection Hrun2 as <-. simpl.
  destruct (client w1). simpl in *. by subst.
Qed.

Lemma disconnect_twice_witness :
  [RaiseStop; ClearConnected] = [RaiseStop; ClearConnected]
  ∧ client after_disconnect = client after_disconnect.
Proof.
  apply (disconnect_twice disconnect_run [RaiseStop; ClearConnected] live
           after_disconnect after_disconnect); reflexivity.
Defined.

(** *** The tuning part of [process] *)

Lemma selected_mode_setMode mode s :
  connected s = true → 0 ≤ socketFd s →
  selected_mode (sent (setMode mode s)) = Some (bytes_of_string (kiwi_of mode)).
Proof.
  intros Hc Hfd.
  destruct (kiwi_command_fields (kiwi_of mode) (kiwi_of_cases mode)) as (Hlen & Hmod & _).
  rewrite setMode_sends by done. cbn [sent do_send].
  rewrite selected_mode_snoc, unmask_text_frame
    by (apply bytes_of_string_range || done).
  cbn [mbind option_bind]. by rewrite Hmod.
Qed.

Lemma selected_mode_setFrequency fixed3 freq s :
  connected s = true → 0 ≤ socketFd s →
  (String.length (fixed3 (freq / of_int 1000)%Qc) ≤ 80)%nat →
  selected_mode (sent (setFrequency fixed3 freq s)) = Some (bytes_of_string "am").
Proof.
  intros Hc Hfd Hlen. rewrite setFrequency_sends by done. cbn [sent do_send].
  rewrite selected_mode_snoc, unmask_text_frame.
  - cbn [mbind option_bind]. by rewrite command_mod_setFrequency.
  - apply bytes_of_string_range.
  - rewrite bytes_of_string_app, length_app, !length_bytes_of_string.
    simpl String.length. lia.
Qed.

Lemma setFrequency_preserves fixed3 freq s :
  connected (setFrequency fixed3 freq s) = connected s
  ∧ socketFd (setFrequency fixed3 freq s) = socketFd s.
Proof.
  unfold setFrequency. destruct (negb (connected s)); [done|].
  split; apply sendWebSocketFrame_preserves.
Qed.

Lemma modeIdx_range mode : 0 ≤ modeIdx mode ≤ 4.
Proof. unfold modeIdx. lia. Qed.

(** The tuning part of [process] over two ticks with the mode knob held
    at one value.  On the first tick (frequency knob more than 100 Hz from
    0) the frequency command goes out and then the mode command, so the
    receiver ends in the mode of the knob.  On the second tick the mode
    knob has not changed, so a retune by more than 100 Hz sends only the
    frequency command and the receiver is back in AM whatever the knob
    says; a change of at most 100 Hz sends nothing at all. *)
Theorem process_retune_reverts_mode (fixed3 : float → string) (f1 f2 mode : float)
    (s : WebSDRClient) :
  connected s = true → 0 ≤ socketFd s →
  (∀ x, (String.length (fixed3 x) ≤ 80)%nat) →
  mode ≠ of_int (-1) → (of_int 100 < Qcabs (f1 - fzero))%Qc →
  let ts1 := process_tuning fixed3 f1 mode (initial_tuning, s) in
  let ts2 := process_tuning fixed3 f2 mode ts1 in
  nth (Z.to_nat (modeIdx mode)) modes "" ∈ modes
  ∧ selected_mode (sent ts1.2)
    = Some (bytes_of_string (kiwi_of (nth (Z.to_nat (modeIdx mode)) modes "")))
  ∧ ((of_int 100 < Qcabs (f2 - f1))%Qc →
     selected_mode (sent ts2.2) = Some (bytes_of_string "am"))
  ∧ (¬ (of_int 100 < Qcabs (f2 - f1))%Qc → ts2 = ts1).
Proof.
  intros Hc Hfd Hlen Hmode Hf1 ts1 ts2.
  assert (Hts1 : ts1 = ({| lastFreq := f1; lastMode := mode |},
                        setMode (nth (Z.to_nat (modeIdx mode)) modes "")
                          (setFrequency fixed3 f1 s))).
  { unfold ts1, process_tuning, initial_tuning. cbn [lastFreq lastMode].
    rewrite bool_decide_eq_true_2 by done. cbn [lastFreq lastMode].
    by rewrite bool_decide_eq_true_2 by done. }
  destruct (setFrequency_preserves fixed3 f1 s) as [Hc1 Hfd1].
  split_and!.
  - pose proof (modeIdx_range mode) as Hr.
    assert (Hi : (Z.to_nat (modeIdx mode) < 5)%nat) by lia.
    destruct (Z.to_nat (modeIdx mode)) as [|[|[|[|[|]]]]]; try lia;
      apply list_elem_of_In; simpl; auto 10.
  - rewrite Hts1. cbn [snd]. apply selected_mode_setMode; congruence.
  - intros Hf2. unfold ts2. rewrite Hts1. unfold process_tuning.
    cbn [lastFreq lastMode]. rewrite bool_decide_eq_true_2 by done.
    cbn [lastFreq lastMode]. rewrite bool_decide_eq_false_2 by (by intros ?).
    cbn [snd].
    destruct (setMode_preserves (nth (Z.to_nat (modeIdx mode)) modes "")
                (setFrequency fixed3 f1 s)) as [Hc2 Hfd2].
    apply selected_mode_setFrequency; [congruence|congruence|done].
  - intros Hf2. unfold ts2. rewrite Hts1. unfold process_tuning.
    cbn [lastFreq lastMode]. rewrite bool_decide_eq_false_2 by done.
    cbn [lastFreq lastMode]. by rewrite bool_decide_eq_false_2 by (by intros ?).
Qed.

Lemma process_retune_reverts_mode_witness :
  let ts1 := process_tuning fixed3_20m (of_int 14230000) (of_int 2)
               (initial_tuning, live) in
  let ts2 := process_tuning fixed3_20m (of_int 7055000) (of_int 2) ts1 in
  nth (Z.to_nat (modeIdx (of_int 2))) modes "" ∈ modes
  ∧ selected_mode (sent ts1.2)
    = Some (bytes_of_string (kiwi_of (nth (Z.to_nat (modeIdx (of_int 2))) modes "")))
  ∧ ((of_int 100 < Qcabs (of_int 7055000 - of_int 14230000))%Qc →
     selected_mode (sent ts2.2) = Some (bytes_of_string "am"))
  ∧ (¬ (of_int 100 < Qcabs (of_int 7055000 - of_int 14230000))%Qc → ts2 = ts1).
Proof.
  apply (process_retune_reverts_mode fixed3_20m (of_int 14230000) (of_int 7055000)
           (of_int 2) live).
  - reflexivity.
  - vm_compute. discriminate.
  - intros x. simpl. lia.
  - intros H. apply (f_equal (λ q : Qc, Qnum q)) in H. vm_compute in H.
    discriminate H.
  - reflexivity.
Defined.

(** *** Presets *)

Lemma nth_lookup_default {A} (l : list A) (i : nat) (d x : A) :
  l !! i = Some x → nth i l d = x.
Proof. intros H. by rewrite (nth_lookup_Some _ _ _ _ H) at 1. Qed.

Lemma fmax_ge_l a b : (a ≤ fmax a b)%Qc.
Proof.
  unfold fmax. case_bool_decide; [by apply Qclt_le_weak|apply Qcle_refl].
Qed.

Lemma preset_turn_length cf st i pr g p :
  length (presetFrequencies (preset_turn cf st i pr g p)) = length (presetFrequencies p)
  ∧ length (presetSaved (preset_turn cf st i pr g p)) = length (presetSaved p)
  ∧ length (presetLightBrightness (preset_turn cf st i pr g p))
    = length (presetLightBrightness p).
Proof.
  unfold preset_turn, handlePresetPress, flashPresetLight, setFreqParam.
  destruct pr, g, (nth i (presetSaved p) false) eqn:E; cbn;
    rewrite ?E; cbn; rewrite ?length_insert; try done;
    repeat case_match; cbn; by rewrite ?length_insert.
Qed.

Lemma preset_turn_other cf st i pr g p j :
  j ≠ i →
  presetFrequencies (preset_turn cf st i pr g p) !! j = presetFrequencies p !! j
  ∧ presetSaved (preset_turn cf st i pr g p) !! j = presetSaved p !! j
  ∧ presetLightBrightness (preset_turn cf st i pr g p) !! j
    = presetLightBrightness p !! j.
Proof.
  intros Hj.
  unfold preset_turn, handlePresetPress, flashPresetLight, setFreqParam.
  destruct pr, g, (nth i (presetSaved p) false) eqn:E; cbn;
    rewrite ?E; cbn; repeat case_match; cbn;
    by rewrite ?list_lookup_insert_ne by done.
Qed.

Lemma nth_insert_same {A} (l : list A) (i : nat) (x d : A) :
  (i < length l)%nat → nth i (<[i:=x]> l) d = x.
Proof. intros H. apply nth_lookup_default. by apply list_lookup_insert_eq. Qed.

Lemma preset_turn_at cf st i pr g p sv f :
  presetSaved p !! i = Some sv → presetFrequencies p !! i = Some f →
  (i < length (presetLightBrightness p))%nat →
  presetSaved (preset_turn cf st i pr g p) !! i = Some (sv || pr)
  ∧ presetFrequencies (preset_turn cf st i pr g p) !! i
    = Some (if sv then f else if pr then cf else f)
  ∧ ∃ b : float, presetLightBrightness (preset_turn cf st i pr g p) !! i = Some b
         ∧ ((if sv || pr then of_int 2 / of_int 10 else fzero) ≤ b)%Qc.
Proof.
  intros Hsv Hf Hl.
  pose proof (lookup_lt_Some _ _ _ Hsv) as Hls.
  pose proof (lookup_lt_Some _ _ _ Hf) as Hlf.
  pose proof (nth_lookup_default _ _ false _ Hsv) as Hn.
  unfold preset_turn, handlePresetPress, flashPresetLight, setFreqParam.
  rewrite Hn.
  destruct sv, pr, g;
    cbn [negb andb orb presetSaved presetFrequencies presetLightBrightness freqParam];
    rewrite ?nth_insert_same, ?Hn by done;
    cbn [negb andb orb presetSaved presetFrequencies presetLightBrightness freqParam];
    rewrite ?nth_insert_same, ?Hn by done;
    (split_and!;
     [ by rewrite ?list_lookup_insert_eq by done
     | by rewrite ?list_lookup_insert_eq by done
     | eexists; split;
       [ apply list_lookup_insert_eq; by rewrite ?length_insert
       | apply fmax_ge_l ] ]).
Qed.

Lemma preset_loop_before cf st triggers :
  ∀ i p j, (j < i)%nat →
  presetFrequencies (preset_loop cf st i triggers p) !! j = presetFrequencies p !! j
  ∧ presetSaved (preset_loop cf st i triggers p) !! j = presetSaved p !! j
  ∧ presetLightBrightness (preset_loop cf st i triggers p) !! j
    = presetLightBrightness p !! j.
Proof.
  induction triggers as [|[pr g] rest IH]; intros i p j Hj; [done|].
  cbn [preset_loop].
  destruct (IH (S i) (preset_turn cf st i pr g p) j ltac:(lia)) as (-> & -> & ->).
  apply preset_turn_other. lia.
Qed.

Lemma preset_loop_at cf st triggers :
  ∀ i p k pr g sv f,
  triggers !! k = Some (pr, g) →
  presetSaved p !! (i + k)%nat = Some sv →
  presetFrequencies p !! (i + k)%nat = Some f →
  (i + k < length (presetLightBrightness p))%nat →
  presetSaved (preset_loop cf st i triggers p) !! (i + k)%nat = Some (sv || pr)
  ∧ presetFrequencies (preset_loop cf st i triggers p) !! (i + k)%nat
    = Some (if sv then f else if pr then cf else f)
  ∧ ∃ b : float, presetLightBrightness (preset_loop cf st i triggers p) !! (i + k)%nat
         = Some b
         ∧ ((if sv || pr then of_int 2 / of_int 10 else fzero) ≤ b)%Qc.
Proof.
  induction triggers as [|[pr0 g0] rest IH]; intros i p k pr g sv f Hk Hsv Hf Hl;
    [done|].
  cbn [preset_loop]. destruct k as [|k].
  - injection Hk as -> ->. rewrite Nat.add_0_r in *.
    destruct (preset_loop_before cf st rest (S i) (preset_turn cf st i pr g p) i
                ltac:(lia)) as (E1 & E2 & E3).
    rewrite E1, E2, E3.
    by apply preset_turn_at.
  - cbn in Hk. replace (i + S k)%nat with (S i + k)%nat in * by lia.
    destruct (preset_turn_other cf st i pr0 g0 p (S i + k) ltac:(lia))
      as (Hf' & Hs' & _).
    destruct (preset_turn_length cf st i pr0 g0 p) as (_ & _ & Hl').
    apply (IH (S i) _ k pr g); [done|by rewrite Hs'|by rewrite Hf'|by rewrite Hl'].
Qed.

Lemma preset_loop_length cf st triggers :
  ∀ i p,
  length (presetFrequencies (preset_loop cf st i triggers p))
  = length (presetFrequencies p)
  ∧ length (presetSaved (preset_loop cf st i triggers p)) = length (presetSaved p)
  ∧ length (presetLightBrightness (preset_loop cf st i triggers p))
    = length (presetLightBrightness p).
Proof.
  induction triggers as [|[pr g] rest IH]; intros i p; [done|].
  cbn [preset_loop].
  destruct (IH (S i) (preset_turn cf st i pr g p)) as (-> & -> & ->).
  apply preset_turn_length.
Qed.

(** One tick of the preset loop, for any combination of buttons and
    gates: the three arrays keep their size; a saved preset stays saved
    with its frequency untouched; an empty preset becomes saved exactly
    when its button fired, and then stores the knob value read at the start
    of the tick; every light stays at or above 0, and at or above 0.2 for a
    preset that is saved after the tick. *)
Theorem process_presets_keeps_saved (sampleTime : float)
    (triggers : list (bool * bool)) (p : presets) (i : nat) (pressed gated : bool) :
  presets_wf p → length triggers = NUM_PRESETS →
  triggers !! i = Some (pressed, gated) →
  let p' := process_presets sampleTime triggers p in
  presets_wf p'
  ∧ (presetSaved p !! i = Some true →
     presetSaved p' !! i = Some true
     ∧ presetFrequencies p' !! i = presetFrequencies p !! i)
  ∧ (presetSaved p !! i = Some false →
     presetSaved p' !! i = Some pressed
     ∧ presetFrequencies p' !! i
       = if pressed then Some (freqParam p) else presetFrequencies p !! i)
  ∧ ∃ b : float, presetLightBrightness p' !! i = Some b
         ∧ (fzero ≤ b)%Qc
         ∧ (presetSaved p' !! i = Some true → (of_int 2 / of_int 10 ≤ b)%Qc).
Proof.
  intros (Hlf & Hls & Hll) Hlt Hi p'.
  pose proof (lookup_lt_Some _ _ _ Hi) as Hi8. rewrite Hlt in Hi8.
  destruct (preset_loop_length (freqParam p) sampleTime triggers 0 p)
    as (Hlf' & Hls' & Hll').
  destruct (lookup_lt_is_Some_2 (presetSaved p) i ltac:(lia)) as [sv Hsv].
  destruct (lookup_lt_is_Some_2 (presetFrequencies p) i ltac:(lia)) as [f Hf].
  destruct (preset_loop_at (freqParam p) sampleTime triggers 0 p i pressed gated sv f
              Hi Hsv Hf ltac:(simpl; lia)) as (Hs' & Hf' & b & Hb & Hfloor).
  simpl in Hs', Hf', Hb. fold (process_presets sampleTime triggers p) in Hs', Hf', Hb.
  fold p' in Hs', Hf', Hb.
  split_and!.
  - unfold presets_wf, p', process_presets. lia.
  - intros Ht. rewrite Hsv in Ht. injection Ht as ->.
    by rewrite Hs', Hf', Hf.
  - intros Ht. rewrite Hsv in Ht. injection Ht as ->.
    rewrite Hs', Hf', Hf. by destruct pressed.
  - exists b. split_and!; [done| |].
    + revert Hfloor. destruct (sv || pressed); intros Hfloor; [|done].
      apply Qcle_trans with (of_int 2 / of_int 10)%Qc; [by vm_compute|done].
    + rewrite Hs'. intros [= E]. by rewrite E in Hfloor.
Qed.

Lemma process_presets_keeps_saved_witness :
  let p' := process_presets one_ms press_third newPresets in
  presets_wf p'
  ∧ (presetSaved newPresets !! 2%nat = Some true →
     presetSaved p' !! 2%nat = Some true
     ∧ presetFrequencies p' !! 2%nat = presetFrequencies newPresets !! 2%nat)
  ∧ (presetSaved newPresets !! 2%nat = Some false →
     presetSaved p' !! 2%nat = Some true
     ∧ presetFrequencies p' !! 2%nat
       = if true then Some (freqParam newPresets)
         else presetFrequencies newPresets !! 2%nat)
  ∧ ∃ b : float, presetLightBrightness p' !! 2%nat = Some b
         ∧ (fzero ≤ b)%Qc
         ∧ (presetSaved p' !! 2%nat = Some true → (of_int 2 / of_int 10 ≤ b)%Qc).
Proof.
  apply (process_presets_keeps_saved one_ms press_third newPresets
           2 true false).
  - split_and!; reflexivity.
  - reflexivity.
  - reflexivity.
Defined.

Lemma preset_turn_same_store cf st i pr g p q :
  same_store p q →
  same_store (preset_turn cf st i pr g p) (preset_turn cf st i pr g q).
Proof.
  destruct p as [pf pfs pss pl], q as [qf qfs qss ql].
  intros (E1 & E2 & E3). cbn in E1, E2, E3. subst qf qfs qss.
  unfold same_store, preset_turn, handlePresetPress, flashPresetLight, setFreqParam.
  cbn [negb andb orb presetSaved presetFrequencies presetLightBrightness freqParam].
  destruct pr, g, (nth i pss false) eqn:E;
    cbn [negb andb orb presetSaved presetFrequencies presetLightBrightness freqParam];
    rewrite ?E;
    cbn [negb andb orb presetSaved presetFrequencies presetLightBrightness freqParam];
    try done;
    destruct (nth i (<[i:=true]> pss) false); done.
Qed.

Lemma same_store_trans p q r : same_store p q → same_store q r → same_store p r.
Proof. intros (? & ? & ?) (? & ? & ?). unfold same_store. split_and!; congruence. Qed.

Lemma preset_turn_idle cf st i p :
  same_store (preset_turn cf st i false false p) p.
Proof. done. Qed.

Lemma preset_loop_idle cf st triggers :
  ∀ i p, Forall (λ t, t = (false, false)) triggers →
  same_store (preset_loop cf st i triggers p) p.
Proof.
  induction triggers as [|t rest IH]; intros i p Hall; [done|].
  apply Forall_cons in Hall as [-> Hall]. cbn [preset_loop].
  eapply same_store_trans; [by apply IH|apply preset_turn_idle].
Qed.

Lemma preset_loop_app cf st t1 :
  ∀ t2 i p,
  preset_loop cf st i (t1 ++ t2) p
  = preset_loop cf st (i + length t1) t2 (preset_loop cf st i t1 p).
Proof.
  induction t1 as [|[pr g] t1 IH]; intros t2 i p; cbn [preset_loop app length].
  - by rewrite Nat.add_0_r.
  - rewrite IH. f_equal. lia.
Qed.

Lemma only_button_split i triggers :
  only_button i triggers →
  triggers = take i triggers ++ (true, false) :: drop (S i) triggers
  ∧ length (take i triggers) = i
  ∧ Forall (λ t, t = (false, false)) (take i triggers)
  ∧ Forall (λ t, t = (false, false)) (drop (S i) triggers).
Proof.
  intros (Hlen & Hi & Hother).
  pose proof (lookup_lt_Some _ _ _ Hi) as Hlt.
  split_and!.
  - by rewrite take_drop_middle.
  - rewrite length_take. lia.
  - apply Forall_lookup. intros j t Hj.
    apply lookup_take_Some in Hj as [Hj Hji].
    rewrite Hother in Hj by lia. congruence.
  - apply Forall_lookup. intros j t Hj.
    rewrite lookup_drop in Hj.
    pose proof (lookup_lt_Some _ _ _ Hj).
    rewrite Hother in Hj by lia. congruence.
Qed.

Lemma preset_loop_only cf st i triggers p :
  only_button i triggers →
  same_store (preset_loop cf st 0 triggers p) (preset_turn cf st i true false p).
Proof.
  intros Hob. destruct (only_button_split i triggers Hob) as (Hsplit & Hlen & H1 & H2).
  rewrite Hsplit, preset_loop_app. cbn [preset_loop]. rewrite Hlen. cbn [Nat.add].
  eapply same_store_trans; [by apply preset_loop_idle|].
  apply preset_turn_same_store. by apply preset_loop_idle.
Qed.

(** Save, then recall.  Pressing only the button of an empty preset
    stores the knob value there and leaves the knob and the other presets
    alone; after the knob was moved by hand, pressing the same button again
    puts the knob back on the stored value and changes nothing that is
    stored. *)
Theorem preset_save_then_recall (sampleTime : float) (triggers : list (bool * bool))
    (i : nat) (moved : float) (p : presets) :
  presets_wf p → only_button i triggers → presetSaved p !! i = Some false →
  let p1 := process_presets sampleTime triggers p in
  let p2 := process_presets sampleTime triggers (setFreqParam moved p1) in
  freqParam p1 = freqParam p
  ∧ presetFrequencies p1 = <[i := freqParam p]> (presetFrequencies p)
  ∧ presetSaved p1 = <[i := true]> (presetSaved p)
  ∧ freqParam p2 = freqParam p
  ∧ presetFrequencies p2 = presetFrequencies p1
  ∧ presetSaved p2 = presetSaved p1.
Proof.
  intros (Hlf & Hls & Hll) Hob Hsv p1 p2.
  pose proof (lookup_lt_Some _ _ _ (proj1 (proj2 Hob))) as Hi.
  rewrite (proj1 Hob) in Hi.
  pose proof (nth_lookup_default _ _ false _ Hsv) as Hn.
  destruct (preset_loop_only (freqParam p) sampleTime i triggers p Hob)
    as (E1 & E2 & E3).
  fold (process_presets sampleTime triggers p) in E1, E2, E3. fold p1 in E1, E2, E3.
  assert (T1 : freqParam p1 = freqParam p
               ∧ presetFrequencies p1 = <[i := freqParam p]> (presetFrequencies p)
               ∧ presetSaved p1 = <[i := true]> (presetSaved p)).
  { rewrite E1, E2, E3.
    unfold preset_turn, handlePresetPress, flashPresetLight, setFreqParam.
    rewrite Hn.
    cbn [negb andb orb presetSaved presetFrequencies presetLightBrightness freqParam].
    done. }
  destruct T1 as (T1 & T2 & T3). split_and!; try done.
  all: destruct (preset_loop_only moved sampleTime i triggers (setFreqParam moved p1) Hob)
    as (G1 & G2 & G3);
    change (preset_loop moved sampleTime 0 triggers (setFreqParam moved p1)) with p2
      in G1, G2, G3;
    rewrite ?G1, ?G2, ?G3;
    unfold preset_turn, handlePresetPress, flashPresetLight, setFreqParam;
    cbn [negb andb orb presetSaved presetFrequencies presetLightBrightness freqParam];
    rewrite T3, nth_insert_same by lia;
    cbn [negb andb orb presetSaved presetFrequencies presetLightBrightness freqParam];
    rewrite ?T3, ?T2, ?nth_insert_same by lia; done.
Qed.

Lemma preset_save_then_recall_witness :
  let p1 := process_presets one_ms press_third newPresets in
  let p2 := process_presets one_ms press_third
              (setFreqParam (of_int 14230000) p1) in
  freqParam p1 = freqParam newPresets
  ∧ presetFrequencies p1 = <[2%nat := freqParam newPresets]> (presetFrequencies newPresets)
  ∧ presetSaved p1 = <[2%nat := true]> (presetSaved newPresets)
  ∧ freqParam p2 = freqParam newPresets
  ∧ presetFrequencies p2 = presetFrequencies p1
  ∧ presetSaved p2 = presetSaved p1.
Proof.
  apply (preset_save_then_recall one_ms press_third 2
           (of_int 14230000) newPresets).
  - split_and!; reflexivity.
  - split_and!; [reflexivity|reflexivity|].
    intros j Hj Hlt.
    do 8 (destruct j as [|j]; [first [reflexivity|lia]|]).
    unfold NUM_PRESETS in Hlt. lia.
  - reflexivity.
Defined.

(** *** The station table *)

Lemma nearest_scan (f : float) (table : list stations.Station) :
  ∀ (seen : list stations.Station) (acc : option stations.Station * float),
  (match acc.1 with
   | Some s => ∃ i, seen !! i = Some s
                    ∧ acc.2 = Qcabs (stations.freq s - f)
                    ∧ (acc.2 < of_int 1000000)%Qc
                    ∧ ∀ j t, seen !! j = Some t →
                        (acc.2 ≤ Qcabs (stations.freq t - f))%Qc
                        ∧ ((j < i)%nat → (acc.2 < Qcabs (stations.freq t - f))%Qc)
   | None => acc.2 = of_int 1000000
             ∧ ∀ j t, seen !! j = Some t →
                 (of_int 1000000 ≤ Qcabs (stations.freq t - f))%Qc
   end) →
  match (foldl (stations.nearer f) acc table).1 with
  | Some s => ∃ i, (seen ++ table) !! i = Some s
                   ∧ (Qcabs (stations.freq s - f) < of_int 1000000)%Qc
                   ∧ ∀ j t, (seen ++ table) !! j = Some t →
                       (Qcabs (stations.freq s - f) ≤ Qcabs (stations.freq t - f))%Qc
                       ∧ ((j < i)%nat →
                          (Qcabs (stations.freq s - f) < Qcabs (stations.freq t - f))%Qc)
  | None => ∀ j t, (seen ++ table) !! j = Some t →
              (of_int 1000000 ≤ Qcabs (stations.freq t - f))%Qc
  end.
Proof.
  induction table as [|s table IH]; intros seen [nearest minDiff] Hacc;
    cbn [fst snd] in *.
  - cbn [foldl fst]. rewrite app_nil_r. destruct nearest as [s|].
    + destruct Hacc as (i & Hi & Hd & Hlt & Hall). exists i.
      rewrite <- Hd. by split_and!.
    + by destruct Hacc.
  - cbn [foldl]. rewrite cons_middle, app_assoc. apply IH.
    unfold stations.nearer. cbn [fst snd]. case_bool_decide as Hd; cbn [fst snd].
    + exists (length seen). split_and!.
      * by rewrite lookup_app_r, Nat.sub_diag by lia.
      * done.
      * destruct nearest as [s0|].
        -- destruct Hacc as (_ & _ & _ & Hlt & _). by eapply Qclt_trans.
        -- destruct Hacc as [<- _]. done.
      * intros j t Hj. apply lookup_app_Some in Hj as [Hj|[Hge Hj]].
        -- assert (minDiff ≤ Qcabs (stations.freq t - f))%Qc as Hle.
           { destruct nearest as [s0|].
             - destruct Hacc as (i & _ & _ & _ & Hall). by apply (Hall j t).
             - destruct Hacc as [-> Hall]. by apply (Hall j t). }
           split; [apply Qclt_le_weak|intros _]; by eapply Qclt_le_trans.
        -- apply list_lookup_singleton_Some in Hj as [Hj <-].
           split; [apply Qcle_refl|lia].
    + apply Qcnot_lt_le in Hd. destruct nearest as [s0|].
      * destruct Hacc as (i & Hi & -> & Hlt & Hall). exists i.
        split_and!; [by apply lookup_app_l_Some|done|done|].
        intros j t Hj. apply lookup_app_Some in Hj as [Hj|[Hge Hj]];
          [by apply Hall|].
        apply list_lookup_singleton_Some in Hj as [Hj <-].
        split; [done|]. pose proof (lookup_lt_Some _ _ _ Hi). lia.
      * destruct Hacc as [-> Hall]. split; [done|].
        intros j t Hj. apply lookup_app_Some in Hj as [Hj|[Hge Hj]];
          [by apply (Hall j t)|].
        by apply list_lookup_singleton_Some in Hj as [Hj <-].
Qed.

(** [findNearestStation] returns the station of the table nearest to the
    frequency, the first of them in table order when several are equally
    near, and only when it is less than 1 MHz away; [getStation] gives the
    same station at its index.  It returns the null pointer exactly when
    every station is 1 MHz or more away. *)
Theorem findNearestStation_nearest (f : float) :
  match stations.findNearestStation f with
  | Some s =>
      ∃ i, stations.getStation (Z.of_nat i) = Some s
           ∧ (Qcabs (stations.freq s - f) < of_int 1000000)%Qc
           ∧ ∀ j t, stations.STATIONS !! j = Some t →
               (Qcabs (stations.freq s - f) ≤ Qcabs (stations.freq t - f))%Qc
               ∧ ((j < i)%nat →
                  (Qcabs (stations.freq s - f) < Qcabs (stations.freq t - f))%Qc)
  | None => ∀ t, t ∈ stations.STATIONS →
              (of_int 1000000 ≤ Qcabs (stations.freq t - f))%Qc
  end.
Proof.
  pose proof (nearest_scan f stations.STATIONS [] (None, of_int 1000000)) as H.
  cbn [fst snd app] in H. unfold stations.findNearestStation.
  destruct (foldl (stations.nearer f) (None, of_int 1000000) stations.STATIONS).1
    as [s|].
  - destruct H as (i & Hi & Hlt & Hall); [by split|].
    exists i. split_and!; [|done|done].
    pose proof (lookup_lt_Some _ _ _ Hi) as Hlen.
    unfold stations.getStation, stations.NUM_STATIONS.
    rewrite bool_decide_eq_true_2 by lia. by rewrite Nat2Z.id.
  - intros t Ht. apply list_elem_of_lookup in Ht as [j Hj].
    apply (H ltac:(by split) j t Hj).
Qed.
